(** * pandeia.engine.exposure: ramp timing, saturation and slope variance

    A shallow embedding of [src/pandeia/engine/exposure.py].

    Numbers.  Python [int]s are [Z].  Python and numpy floats are read as
    exact rationals ([Q]): rounding, overflow and underflow of binary64
    are left out, the special values that numpy produces instead of
    raising (infinities and not-a-number) are kept, see [npfloat].
    Rational results are compared with [==] ([Qeq]).

    Arrays.  A numpy array is the flat sequence of its pixels; every array
    operation of the module is elementwise, so the shape plays no role. *)

From Stdlib Require Import QArith Qround Qminmax Qabs Lia Lqa.
From stdpp Require Import base option list strings.

Local Open Scope Q_scope.
Local Coercion inject_Z : Z >-> Q.

(** ** Exceptions *)

(** The exceptions the module can raise, with their messages (a formatted
    message is kept as its template).  [ValueError] is what the spec calls
    a configuration error, [EngineInputError] its input error.  [IllTyped]
    is not a Python exception: it marks a call outside the model, where an
    argument is not the kind of array the method is documented to take. *)
Inductive exn : Type :=
  | ValueError (msg : string)
  | ZeroDivisionError
  | EngineInputError (msg : string)
  | IllTyped.

Inductive result (A : Type) : Type :=
  | Ok (a : A)
  | Raise (e : exn).
Arguments Ok {A} a.
Arguments Raise {A} e.

#[export] Instance result_ret : MRet result := @Ok.
#[export] Instance result_bind : MBind result := fun A B f r =>
  match r with
  | Ok a => f a
  | Raise e => Raise e
  end.

(** Python's [a / b] on scalars (true division). *)
Definition py_div (a b : Q) : result Q :=
  if Qeq_bool b 0 then Raise ZeroDivisionError else Ok (a / b).

(** ** The exposure specification *)

(** The arguments of [ExposureSpecification.__init__]. *)
Record ExposureArgs : Type := {
  a_pattern : string;
  a_ngroup : Z;
  a_nint : Z;
  a_nexp : Z;
  a_tframe : Q;
  a_nframe : Z;
  a_nsample : Z;
  a_nsample_skip : Z;
  a_tfffr : Q;
  a_subarray : string;
  a_nskip : Z;
  a_nprerej : Z;
  a_npostrej : Z;
  a_frame0 : bool;
  a_det_type : string
}.

(** The attributes set by [get_times_nir] and [get_times_mir]. *)
Record Times : Type := {
  t_tgroup : Q;
  t_measurement_time : Q;
  t_exposure_time : Q;
  t_saturation_time : Q;
  t_duty_cycle : Q;
  t_total_exposure_time : Q;
  t_total_integrations : Z
}.

(** The object after construction.  [tsample] and [nsample_total] exist
    only on a ['sias'] object: the methods test them with [hasattr]. *)
Record ExposureSpecification : Type := {
  det_type : string;
  pattern : string;
  ngroup : Z;
  nint : Z;
  nexp : Z;
  tframe : Q;
  tfffr : Q;
  nframe : Z;
  subarray : string;
  nskip : Z;
  nprerej : Z;
  npostrej : Z;
  nsample : Z;
  nsample_skip : Z;
  frame0 : bool;
  tgroup : Q;
  measurement_time : Q;
  exposure_time : Q;
  saturation_time : Q;
  duty_cycle : Q;
  total_exposure_time : Q;
  total_integrations : Z;
  tsample : option Q;
  nsample_total : option Z;
  nramps : Z
}.

Definition get_times_nir (c : ExposureArgs) : result Times :=
  let tgroup := a_tframe c * (a_nframe c + a_nskip c)%Z in
  let measurement_time :=
    a_tframe c * a_nint c * ((a_ngroup c - 1) * (a_nframe c + a_nskip c))%Z in
  let measurement_time :=
    if a_frame0 c
    then measurement_time + 0.5 * a_nint c * a_tframe c * a_nframe c
    else measurement_time in
  let exposure_time :=
    (a_tframe c + a_tfffr c) * a_nint c +
    a_tframe c *
      (a_nint c * ((a_ngroup c - 1) * (a_nframe c + a_nskip c) + a_nframe c))%Z in
  let saturation_time :=
    a_tfffr c +
    a_tframe c * ((a_ngroup c - 1) * (a_nframe c + a_nskip c) + a_nframe c)%Z in
  duty_cycle ← py_div measurement_time exposure_time;
  mret {| t_tgroup := tgroup;
          t_measurement_time := measurement_time;
          t_exposure_time := exposure_time;
          t_saturation_time := saturation_time;
          t_duty_cycle := duty_cycle;
          t_total_exposure_time := a_nexp c * exposure_time;
          t_total_integrations := (a_nexp c * a_nint c)%Z |}.

Definition get_times_mir (c : ExposureArgs) : result Times :=
  let tgroup := a_tframe c * (a_nframe c + a_nskip c)%Z in
  let measurement_time :=
    if (a_ngroup c >=? 5)%Z
    then (a_nint c * (a_ngroup c - 1 - (a_nprerej c + a_npostrej c)))%Z * tgroup
    else a_nint c * (a_tfffr c + a_ngroup c * tgroup)
         - a_nint c * a_tframe c * 0.5 * (a_nframe c - 1)%Z in
  let exposure_time :=
    a_nint c * (a_tfffr c + (a_ngroup c * a_nframe c)%Z * a_tframe c) in
  let saturation_time :=
    a_tfffr c + (a_ngroup c * a_nframe c)%Z * a_tframe c in
  duty_cycle ← py_div measurement_time exposure_time;
  mret {| t_tgroup := tgroup;
          t_measurement_time := measurement_time;
          t_exposure_time := exposure_time;
          t_saturation_time := saturation_time;
          t_duty_cycle := duty_cycle;
          t_total_exposure_time := a_nexp c * exposure_time;
          t_total_integrations := (a_nexp c * a_nint c)%Z |}.

(** [ExposureSpecification.__init__]. *)
Definition new_ExposureSpecification (c : ExposureArgs)
  : result ExposureSpecification :=
  let build (t : Times) (ts : option Q) (nt : option Z) :=
    {| det_type := a_det_type c; pattern := a_pattern c;
       ngroup := a_ngroup c; nint := a_nint c; nexp := a_nexp c;
       tframe := a_tframe c; tfffr := a_tfffr c; nframe := a_nframe c;
       subarray := a_subarray c; nskip := a_nskip c;
       nprerej := a_nprerej c; npostrej := a_npostrej c;
       nsample := a_nsample c; nsample_skip := a_nsample_skip c;
       frame0 := a_frame0 c;
       tgroup := t_tgroup t;
       measurement_time := t_measurement_time t;
       exposure_time := t_exposure_time t;
       saturation_time := t_saturation_time t;
       duty_cycle := t_duty_cycle t;
       total_exposure_time := t_total_exposure_time t;
       total_integrations := t_total_integrations t;
       tsample := ts; nsample_total := nt;
       nramps := (a_nint c * a_nexp c)%Z |} in
  if String.eqb (a_det_type c) "sias" then
    t ← get_times_mir c;
    tsample ← py_div (a_tframe c) (a_nsample c + a_nsample_skip c)%Z;
    mret (build t (Some tsample) (Some (a_nframe c * a_nsample c)%Z))
  else if String.eqb (a_det_type c) "h2rg" then
    t ← get_times_nir c;
    mret (build t None None)
  else Raise (ValueError "Unknown detector type %s").

(** The scenario of the spec: a persistent detector with a frame time of
    ten seconds and ten single-frame groups. *)
Definition scenario_nir : ExposureArgs :=
  {| a_pattern := "pattern"; a_ngroup := 10; a_nint := 1; a_nexp := 1;
     a_tframe := 10.0; a_nframe := 1; a_nsample := 1; a_nsample_skip := 0;
     a_tfffr := 0; a_subarray := "Full"; a_nskip := 0; a_nprerej := 0;
     a_npostrej := 0; a_frame0 := false; a_det_type := "h2rg" |}.

(** ** numpy floating-point values *)

(** An element of a float64 array: a finite value, an infinity or
    not-a-number.  There is one zero (the sign of a float zero is not
    modelled). *)
Inductive npfloat : Type :=
  | Fin (q : Q)
  | PInf
  | NInf
  | NaN.

Definition isfinite (x : npfloat) : bool :=
  match x with Fin _ => true | _ => false end.

Definition fneg (x : npfloat) : npfloat :=
  match x with
  | Fin q => Fin (- q)
  | PInf => NInf
  | NInf => PInf
  | NaN => NaN
  end.

Definition fadd (x y : npfloat) : npfloat :=
  match x, y with
  | NaN, _ | _, NaN => NaN
  | Fin a, Fin b => Fin (a + b)
  | PInf, NInf | NInf, PInf => NaN
  | PInf, _ | _, PInf => PInf
  | NInf, _ | _, NInf => NInf
  end.

Definition fsub (x y : npfloat) : npfloat := fadd x (fneg y).

(** An infinity of the sign of [q], not-a-number for zero. *)
Definition inf_of_sign (q : Q) : npfloat :=
  match q ?= 0 with
  | Gt => PInf
  | Lt => NInf
  | Eq => NaN
  end.

Definition fmul (x y : npfloat) : npfloat :=
  match x, y with
  | NaN, _ | _, NaN => NaN
  | Fin a, Fin b => Fin (a * b)
  | PInf, Fin b | Fin b, PInf => inf_of_sign b
  | NInf, Fin b | Fin b, NInf => inf_of_sign (- b)
  | PInf, PInf | NInf, NInf => PInf
  | PInf, NInf | NInf, PInf => NInf
  end.

(** Division of arrays never raises: a zero divisor gives an infinity,
    or not-a-number for [0 / 0]. *)
Definition fdiv (x y : npfloat) : npfloat :=
  match x, y with
  | NaN, _ | _, NaN => NaN
  | Fin a, Fin b => if Qeq_bool b 0 then inf_of_sign a else Fin (a / b)
  | Fin _, (PInf | NInf) => Fin 0
  | PInf, Fin b => if Qle_bool 0 b then PInf else NInf
  | NInf, Fin b => if Qle_bool 0 b then NInf else PInf
  | (PInf | NInf), (PInf | NInf) => NaN
  end.

(** [x ** 2]. *)
Definition fsquare (x : npfloat) : npfloat := fmul x x.

(** [x < y]; false as soon as one side is not-a-number. *)
Definition flt (x y : npfloat) : bool :=
  match x, y with
  | NaN, _ | _, NaN => false
  | Fin a, Fin b => negb (Qle_bool b a)
  | _, NInf => false
  | NInf, _ => true
  | PInf, _ => false
  | Fin _, PInf => true
  end.

(** [np.maximum] and [np.minimum]: not-a-number wins. *)
Definition fmax (x y : npfloat) : npfloat :=
  match x, y with
  | NaN, _ | _, NaN => NaN
  | _, _ => if flt x y then y else x
  end.

Definition fmin (x y : npfloat) : npfloat :=
  match x, y with
  | NaN, _ | _, NaN => NaN
  | _, _ => if flt y x then y else x
  end.

Definition np_floor (x : npfloat) : npfloat :=
  match x with Fin q => Fin (Qfloor q) | _ => x end.

Definition np_ceil (x : npfloat) : npfloat :=
  match x with Fin q => Fin (Qceiling q) | _ => x end.

(** [a.clip(a_min, a_max)], which numpy documents as
    [np.minimum(a_max, np.maximum(a, a_min))]: when [a_min > a_max] the
    result is [a_max].  (Releases before 1.17 gave [a_min] to an element
    below [a_min] instead; the two agree whenever [a_min <= a_max].) *)
Definition np_clip (a_min a_max x : npfloat) : npfloat :=
  fmin a_max (fmax x a_min).

(** [np.max] of a flat array; a zero-size array has no maximum. *)
Definition np_max (a : list npfloat) : result npfloat :=
  match a with
  | [] => Raise (ValueError "zero-size array to reduction operation maximum which has no identity")
  | x :: l => Ok (foldr fmax x l)
  end.

(** [np.sqrt] of a Python number.  The square root is rounded down to a
    multiple of [2^-52 / den]: as in binary64 the result is a rational
    close to the root, positive for a positive argument. *)
Definition np_sqrt (x : Q) : npfloat :=
  if Qle_bool 0 x
  then Fin (Z.sqrt (Qnum x * Zpos (Qden x) * 4 ^ 52) # (Qden x * 2 ^ 52))
  else NaN.

(** ** Masked arrays *)

(** A pixel of a [numpy.ma.MaskedArray]: the payload and the mask bit. *)
Record mpixel : Type := { data : npfloat; mask : bool }.

(** [ma.masked_less(a, value)], one pixel: the payload is kept and the
    pixel is masked where [a < value]. *)
Definition masked_less (value : npfloat) (x : npfloat) : mpixel :=
  {| data := x; mask := flt x value |}.

(** A pixel of a masked array inside an expression: [None] when masked.
    The payload numpy keeps under a set mask bit depends on the operation
    that produced it and is never read by this module, which ends every
    expression with [ma.filled]. *)
Abbreviation mval := (option npfloat).

Definition ma_view (p : mpixel) : mval :=
  if mask p then None else Some (data p).

(** A Python scalar inside a masked expression. *)
Definition ma_scalar (q : Q) : mval := Some (Fin q).

Definition ma_lift2 (f : npfloat → npfloat → npfloat) (x y : mval) : mval :=
  match x, y with
  | Some a, Some b => Some (f a b)
  | _, _ => None
  end.

(** [+], [-] and [*] mask a pixel that is masked on either side. *)
Definition ma_add : mval → mval → mval := ma_lift2 fadd.
Definition ma_sub : mval → mval → mval := ma_lift2 fsub.
Definition ma_mul : mval → mval → mval := ma_lift2 fmul.

Definition is_zero (x : npfloat) : bool :=
  match x with Fin q => Qeq_bool q 0 | _ => false end.

(** [/] also masks a pixel whose divisor is zero or whose quotient is not
    finite.  (numpy tests the divisor against the smallest normal double
    times the dividend; without underflow that is the test for zero.) *)
Definition ma_div (x y : mval) : mval :=
  match x, y with
  | Some a, Some b =>
      let r := fdiv a b in
      if isfinite r && negb (is_zero b) then Some r else None
  | _, _ => None
  end.

(** [x ** 2] masks a pixel whose square is not finite. *)
Definition ma_square (x : mval) : mval :=
  match x with
  | Some a => let r := fsquare a in if isfinite r then Some r else None
  | None => None
  end.

(** [ma.filled(x, fill_value=np.nan)], one pixel. *)
Definition ma_filled (x : mval) : npfloat := default NaN x.

(** Elementwise combination of two flat arrays with numpy's broadcasting
    of a one-element array. *)
Definition np_broadcast {A B C} (f : A → B → C) (a : list A) (b : list B)
  : result (list C) :=
  if (length a =? length b)%nat then Ok (zip_with f a b)
  else match a, b with
       | [x], _ => Ok (f x <$> b)
       | _, [y] => Ok ((λ x, f x y) <$> a)
       | _, _ => Raise (ValueError "operands could not be broadcast together")
       end.

(** ** The store and the method monad *)

(** The arrays a caller holds live in a store; a location is an index.
    Arrays built inside an expression are fresh values that nothing else
    refers to, and are not put in the store. *)
Inductive pyobj : Type :=
  | NdArray (a : list npfloat)
  | MaskedArray (a : list mpixel).

Abbreviation loc := nat.

(** What a method can see and change: the object it is called on and the
    store. *)
Record world (S : Type) : Type := { this : S; store : list pyobj }.
Arguments this {S} w.
Arguments store {S} w.
Arguments Build_world {S} this store.

Definition M (S A : Type) : Type := world S → result A * world S.

#[export] Instance M_ret {S} : MRet (M S) := λ A a w, (Ok a, w).
#[export] Instance M_bind {S} : MBind (M S) := λ A B f m w,
  match m w with
  | (Ok a, w') => f a w'
  | (Raise e, w') => (Raise e, w')
  end.

Definition get_self {S} : M S S := λ w, (Ok (this w), w).

Definition raise {S A} (e : exn) : M S A := λ w, (Raise e, w).

Definition lift {S A} (r : result A) : M S A := λ w, (r, w).

(** A new object, at the first unused location. *)
Definition alloc {S} (o : pyobj) : M S loc := λ w,
  (Ok (length (store w)),
   {| this := this w; store := store w ++ [o] |}).

Definition load {S} (l : loc) : M S pyobj := λ w,
  match store w !! l with
  | Some o => (Ok o, w)
  | None => (Raise IllTyped, w)
  end.

Definition load_ndarray {S} (l : loc) : M S (list npfloat) :=
  o ← load l;
  match o with NdArray a => mret a | _ => raise IllTyped end.

Definition load_masked {S} (l : loc) : M S (list mpixel) :=
  o ← load l;
  match o with MaskedArray a => mret a | _ => raise IllTyped end.

(** Overwrite the pixels of the masked array at [l], in place. *)
Definition store_masked {S} (l : loc) (a : list mpixel) : M S unit := λ w,
  (Ok (), {| this := this w; store := <[l := MaskedArray a]> (store w) |}).

(** [ma.copy(a)]: a new masked array with the pixels of [a]. *)
Definition ma_copy {S} (l : loc) : M S loc :=
  a ← load_masked l;
  alloc (MaskedArray a).

(** [a -= k] on a masked array: unmasked pixels only. *)
Definition isub_pixel (k : npfloat) (p : mpixel) : mpixel :=
  if mask p then p else {| data := fsub (data p) k; mask := false |}.

Definition ma_isub {S} (l : loc) (k : npfloat) : M S unit :=
  a ← load_masked l;
  store_masked l (isub_pixel k <$> a).

(** [a[sel] -= k] on a masked array, [sel] a boolean array. *)
Definition ma_isub_where {S} (l : loc) (sel : list bool) (k : npfloat)
  : M S unit :=
  a ← load_masked l;
  store_masked l (zip_with (λ (b : bool) p, if b then isub_pixel k p else p) sel a).

(** ** The methods of [ExposureSpecification] *)

Definition full_saturation_default : Q := 2.

(** [get_unsaturated_groups(self, slope, fullwell, full_saturation)].
    The result is a new masked array. *)
Definition get_unsaturated_groups (slope : loc) (fullwell : Q)
    (full_saturation : Q) : M ExposureSpecification loc :=
  self ← get_self;
  s ← load_ndarray slope;
  top ← lift (np_max s);
  let time_to_saturate :=
    (λ x, fdiv (Fin fullwell) (np_clip (Fin 1e-10) top x)) <$> s in
  let unsat_ramp_frac :=
    (λ t, fdiv t (Fin (saturation_time self))) <$> time_to_saturate in
  let unsat_ngroups_frac :=
    (λ f, fmul f (Fin (ngroup self))) <$> unsat_ramp_frac in
  let max_ngroups := np_floor <$> unsat_ngroups_frac in
  let max_ngroups := np_clip (Fin 0) (Fin (ngroup self)) <$> max_ngroups in
  alloc (MaskedArray (masked_less (Fin full_saturation) <$> max_ngroups)).

(** What [rn_variance] returns: a number when it is called without
    [unsat_ngroups], a masked array otherwise. *)
Inductive rnval : Type :=
  | RnScalar (x : npfloat)
  | RnArray (a : list mval).

Definition rn_pixels (r : rnval) : list mval :=
  match r with
  | RnScalar x => [Some x]
  | RnArray a => a
  end.

Definition both_fudges (rn_fudge excessp1 excessp2 : Q) : bool :=
  negb (Qeq_bool rn_fudge 1) &&
  (negb (Qeq_bool excessp1 0) || negb (Qeq_bool excessp2 0)).

Definition both_fudges_msg : string :=
  "Only one of rn_fudge or excessp1/p2 maybe used, not both.".

(** [rn_variance(self, readnoise, unsat_ngroups, rn_fudge, excessp1,
    excessp2)]; [unsat_ngroups] is [None] or an array in the store. *)
Definition rn_variance (readnoise : Q) (unsat_ngroups : option loc)
    (rn_fudge excessp1 excessp2 : Q) : M ExposureSpecification rnval :=
  self ← get_self;
  if both_fudges rn_fudge excessp1 excessp2
  then raise (ValueError both_fudges_msg)
  else
    let rn := readnoise in
    let m : Z :=
      match nsample_total self with
      | Some nsample_total => nsample_total
      | None => nframe self
      end in
    let tgroup := tgroup self in
    let excess := negb (Qeq_bool excessp1 0) || negb (Qeq_bool excessp2 0) in
    match unsat_ngroups with
    | None =>
        let n : Z := (ngroup self - (nprerej self + npostrej self))%Z in
        var_rn ← lift (py_div (12 * rn ^ 2)
                         ((m * n)%Z * (n ^ 2 - 1) * tgroup ^ 2));
        let var_rn := if negb (Qeq_bool rn_fudge 1)
                      then var_rn * rn_fudge else var_rn in
        if excess then
          t ← lift (py_div (12.0 * (n - 1)%Z) (n + 1)%Z);
          let excess_variance :=
            fdiv (fsub (Fin (t * excessp1 ^ 2)) (fdiv (Fin excessp2) (np_sqrt m)))
                 (Fin (((1 - n)%Z * tgroup) ^ 2)) in
          mret (RnScalar (fadd (Fin var_rn) excess_variance))
        else mret (RnScalar (Fin var_rn))
    | Some l =>
        a ← load_masked l;
        let var_rn (n : mval) : mval :=
          ma_div (ma_scalar (12 * rn ^ 2))
                 (ma_mul (ma_mul (ma_mul (ma_scalar m) n)
                                 (ma_sub (ma_square n) (ma_scalar 1)))
                         (ma_scalar (tgroup ^ 2))) in
        let fudged (n : mval) : mval :=
          if negb (Qeq_bool rn_fudge 1)
          then ma_mul (var_rn n) (ma_scalar rn_fudge) else var_rn n in
        let excess_variance (n : mval) : mval :=
          ma_div
            (ma_sub
               (ma_mul (ma_div (ma_mul (ma_scalar 12.0) (ma_sub n (ma_scalar 1)))
                               (ma_add n (ma_scalar 1)))
                       (ma_scalar (excessp1 ^ 2)))
               (Some (fdiv (Fin excessp2) (np_sqrt m))))
            (ma_square (ma_mul (ma_sub (ma_scalar 1) n) (ma_scalar tgroup))) in
        mret (RnArray
                ((λ p, let n := ma_view p in
                       if excess then ma_add (fudged n) (excess_variance n)
                       else fudged n) <$> a))
    end.

(** The [rate] dictionary, of which the methods read one entry. *)
Record Rate : Type := { fp_pix_variance : loc }.

(** The number of reads and the frame time of the noise formulas: those
    of the samples when the object has both sample attributes. *)
Definition reads_and_frame_time (self : ExposureSpecification) : Z * Q :=
  match nsample_total self, tsample self with
  | Some nsample_total, Some tsample => (nsample_total, tsample)
  | _, _ => (nframe self, tframe self)
  end.

(** The block of [slope_variance] that removes the rejected groups from
    its copy [n] of the valid-group counts, in place. *)
Definition reject_groups (n : loc) : M ExposureSpecification unit :=
  self ← get_self;
  if (negb (nprerej self =? 0)%Z || negb (npostrej self =? 0)%Z)
     && (ngroup self >=? 5)%Z
  then
    a ← load_masked n;
    let unsat_pixels :=
      (λ p, flt (fsub (Fin (ngroup self)) (np_ceil (data p)))
                (Fin (npostrej self))) <$> a in
    _ ← ma_isub_where n unsat_pixels (Fin (nprerej self));
    ma_isub n (Fin (npostrej self))
  else mret ().

(** [slope_variance(self, rate, dark_current, readnoise, unsat_ngroups,
    rn_fudge, excessp1, excessp2)]. *)
Definition slope_variance (rate : Rate) (dark_current readnoise : Q)
    (unsat_ngroups : loc) (rn_fudge excessp1 excessp2 : Q)
  : M ExposureSpecification (list npfloat * list npfloat) :=
  self ← get_self;
  let variance_per_pix := fp_pix_variance rate in
  let rn := readnoise in
  n ← ma_copy unsat_ngroups;
  _ ← reject_groups n;
  let '(m, tframe) := reads_and_frame_time self in
  let tgroup := tgroup self in
  slope_rn_var ← rn_variance rn (Some n) rn_fudge excessp1 excessp2;
  a ← load_masked n;
  let nv := ma_view <$> a in
  vpp ← load_ndarray variance_per_pix;
  let shot :=
    (λ n, ma_div (ma_mul (ma_scalar (6 / 5))
                         (ma_add (ma_square n) (ma_scalar 1)))
                 (ma_mul n (ma_sub (ma_square n) (ma_scalar 1)))) <$> nv in
  let signal :=
    (λ v, Some (fdiv (fadd v (Fin dark_current)) (Fin tgroup))) <$> vpp in
  shot_signal ← lift (np_broadcast ma_mul shot signal);
  ratio ← lift (py_div tframe tgroup);
  let correction :=
    (λ n, ma_sub (ma_scalar 1)
            (ma_mul (ma_div (ma_scalar (5 / 3 * (m ^ 2 - 1)))
                            (ma_mul (ma_scalar m)
                                    (ma_add (ma_square n) (ma_scalar 1))))
                    (ma_scalar ratio))) <$> nv in
  corrected ← lift (np_broadcast ma_mul shot_signal correction);
  slope_var ← lift (np_broadcast ma_add corrected (rn_pixels slope_rn_var));
  mret (ma_filled <$> slope_var, ma_filled <$> rn_pixels slope_rn_var).

(** ** Target acquisition *)

Record ExposureSpecificationTA : Type := {
  ta_base : ExposureSpecification;
  ngroup_extract : Z
}.

(** The arguments of [ExposureSpecificationTA.__init__]. *)
Record ExposureArgsTA : Type := {
  ta_pattern : string;
  ta_ngroup : Z;
  ta_ngroup_extract : Z;
  ta_nint : Z;
  ta_nexp : Z;
  ta_tframe : Q;
  ta_nframe : Z;
  ta_nsample : Z;
  ta_nsample_skip : Z;
  ta_subarray : string;
  ta_nskip : Z;
  ta_nprerej : Z;
  ta_npostrej : Z;
  ta_det_type : string
}.

(** [ExposureSpecificationTA.__init__]: the base constructor is called
    without [nsample], [tfffr] and [frame0], which take their defaults. *)
Definition new_ExposureSpecificationTA (c : ExposureArgsTA)
  : result ExposureSpecificationTA :=
  b ← new_ExposureSpecification
        {| a_pattern := ta_pattern c; a_ngroup := ta_ngroup c;
           a_nint := ta_nint c; a_nexp := ta_nexp c;
           a_tframe := ta_tframe c; a_nframe := ta_nframe c;
           a_nsample := 1; a_nsample_skip := ta_nsample_skip c;
           a_tfffr := 0; a_subarray := ta_subarray c;
           a_nskip := ta_nskip c; a_nprerej := ta_nprerej c;
           a_npostrej := ta_npostrej c; a_frame0 := false;
           a_det_type := ta_det_type c |};
  mret {| ta_base := b; ngroup_extract := ta_ngroup_extract c |}.

Definition too_many_extracted_msg : string :=
  "Number of groups to extract, {}, must be less than or equal to the number of groups {}".

Definition unsupported_pairs_msg : string :=
  "Target acquisition currently only supports 2 or 3 extracted groups.".

(** The factor for the minimum of co-subtracted pairs. *)
Definition min_factor_of (npairs : Z) : result Q :=
  if (npairs =? 1)%Z then Ok 1.0
  else if (npairs =? 2)%Z then Ok (2 / 3)
  else Raise (EngineInputError unsupported_pairs_msg).

(** [ExposureSpecificationTA.slope_variance]. *)
Definition ta_slope_variance (rate : Rate) (dark_current readnoise : Q)
    (unsat_ngroups : loc) (rn_fudge excessp1 excessp2 : Q)
  : M ExposureSpecificationTA (list npfloat * list npfloat) :=
  self ← get_self;
  let variance_per_pix := fp_pix_variance rate in
  let rn := readnoise in
  let n := unsat_ngroups in
  let '(m, tframe) := reads_and_frame_time (ta_base self) in
  let nextract := ngroup_extract self in
  if (ngroup_extract self >? ngroup (ta_base self))%Z
  then raise (EngineInputError too_many_extracted_msg)
  else
    let tgroup := tgroup (ta_base self) in
    a ← load_masked n;
    let textract :=
      (λ p, ma_div (ma_mul (ma_scalar tgroup) (ma_sub (ma_view p) (ma_scalar 1)))
                   (ma_scalar (nextract - 1)%Z)) <$> a in
    let npairs := (nextract - 1)%Z in
    min_factor ← lift (min_factor_of npairs);
    per_read ← lift (py_div (min_factor * (2 * rn ^ 2)) m);
    let slope_rn_var :=
      (λ t, ma_div (ma_scalar per_read) (ma_square t)) <$> textract in
    vpp ← load_ndarray variance_per_pix;
    let signal :=
      (λ v, Some (fmul (Fin min_factor) (fadd v (Fin dark_current)))) <$> vpp in
    shot ← lift (np_broadcast ma_div signal textract);
    k ← lift (py_div (1 / 3 * (m ^ 2 - 1)%Z) m);
    let correction :=
      (λ t, ma_sub (ma_scalar 1) (ma_div (ma_scalar (k * tframe)) t))
        <$> textract in
    corrected ← lift (np_broadcast ma_mul shot correction);
    slope_var ← lift (np_broadcast ma_add corrected slope_rn_var);
    mret (ma_filled <$> slope_var, ma_filled <$> slope_rn_var).

(** ** Predicates of the statements *)

(** The valid configurations: a known detector type, one group and one
    frame per group or more, no negative count, a positive frame time and
    a non-negative overhead. *)
Definition valid_args (c : ExposureArgs) : Prop :=
  (a_det_type c = "h2rg" ∨ a_det_type c = "sias") ∧
  (1 <= a_ngroup c)%Z ∧ (1 <= a_nframe c)%Z ∧ (0 <= a_nskip c)%Z ∧
  (0 <= a_nprerej c)%Z ∧ (0 <= a_npostrej c)%Z ∧
  0 < a_tframe c ∧ 0 <= a_tfffr c.

(** A configuration in which the duty cycle is a proper fraction: a
    persistent detector with two groups or more or with the zeroth frame,
    a sample-averaging detector without skipped frames that keeps at
    least one group after rejection. *)
Definition duty_regime (c : ExposureArgs) : Prop :=
  (a_det_type c = "h2rg" ∧ ((2 <= a_ngroup c)%Z ∨ a_frame0 c = true)) ∨
  (a_det_type c = "sias" ∧ a_nskip c = 0%Z ∧
   ((a_ngroup c < 5)%Z ∨ (a_nprerej c + a_npostrej c <= a_ngroup c - 2)%Z)).

(** A valid configuration with one integration or more, and for a
    sample-averaging detector one sample or more, is constructed. *)
Definition constructible (c : ExposureArgs) : Prop :=
  valid_args c ∧ (1 <= a_nint c)%Z ∧
  (a_det_type c = "sias" → (a_nsample c + a_nsample_skip c)%Z ≠ 0%Z).

(** A persistent detector read with a single group. *)
Definition single_group_nir : ExposureArgs :=
  {| a_pattern := "pattern"; a_ngroup := 1; a_nint := 1; a_nexp := 1;
     a_tframe := 10.0; a_nframe := 1; a_nsample := 1; a_nsample_skip := 0;
     a_tfffr := 0; a_subarray := "Full"; a_nskip := 0; a_nprerej := 0;
     a_npostrej := 0; a_frame0 := false; a_det_type := "h2rg" |}.

(** A sample-averaging detector read with three groups, with rejected
    groups configured. *)
Definition three_group_mir : ExposureArgs :=
  {| a_pattern := "FAST"; a_ngroup := 3; a_nint := 2; a_nexp := 1;
     a_tframe := 2.5; a_nframe := 2; a_nsample := 1; a_nsample_skip := 0;
     a_tfffr := 0.5; a_subarray := "Full"; a_nskip := 0; a_nprerej := 1;
     a_npostrej := 1; a_frame0 := false; a_det_type := "sias" |}.

(** Both corrections are requested: [rn_fudge] is not 1 and one of the
    excess parameters is not 0. *)
Definition both_fudges_given (rn_fudge excessp1 excessp2 : Q) : Prop :=
  ¬ rn_fudge == 1 ∧ (¬ excessp1 == 0 ∨ ¬ excessp2 == 0).

(** A computation never raises [e]. *)
Definition never_raises {S A} (e : exn) (m : M S A) : Prop :=
  ∀ w, (m w).1 ≠ Raise e.

(** A computation leaves the object and the store as they are. *)
Definition read_only {S A} (m : M S A) : Prop :=
  ∀ w, (m w).2 = w.

(** [w'] has the object of [w] and every array of [w], unchanged; it may
    hold new arrays. *)
Definition extends {S} (w w' : world S) : Prop :=
  this w' = this w ∧
  ∀ l o, store w !! l = Some o → store w' !! l = Some o.

(** The rejected groups are removed: a rejection count is set and the
    ramp has five groups or more. *)
Definition rejects (self : ExposureSpecification) : bool :=
  (negb (nprerej self =? 0)%Z || negb (npostrej self =? 0)%Z)
  && (ngroup self >=? 5)%Z.

(** One pixel of the valid-group counts after the rejected groups are
    removed: [npostrej] is subtracted, and [nprerej] too where
    [ngroup - ceil(count) < npostrej]; a masked pixel is left alone. *)
Definition reject_pixel (self : ExposureSpecification) (p : mpixel) : mpixel :=
  if rejects self then
    isub_pixel (Fin (npostrej self))
      (if flt (fsub (Fin (ngroup self)) (np_ceil (data p))) (Fin (npostrej self))
       then isub_pixel (Fin (nprerej self)) p
       else p)
  else p.

(** ** Objects and worlds of the examples *)

(** A sample-averaging detector read with five groups, the last of which
    is rejected. *)
Definition bright_mir_args : ExposureArgs :=
  {| a_pattern := "FAST"; a_ngroup := 5; a_nint := 1; a_nexp := 1;
     a_tframe := 1; a_nframe := 1; a_nsample := 1; a_nsample_skip := 0;
     a_tfffr := 0; a_subarray := "Full"; a_nskip := 0; a_nprerej := 0;
     a_npostrej := 1; a_frame0 := false; a_det_type := "sias" |}.

(** The object constructed from [bright_mir_args]. *)
Definition bright_mir : ExposureSpecification :=
  {| det_type := "sias"; pattern := "FAST"; ngroup := 5; nint := 1;
     nexp := 1; tframe := 1; tfffr := 0; nframe := 1; subarray := "Full";
     nskip := 0; nprerej := 0; npostrej := 1; nsample := 1;
     nsample_skip := 0; frame0 := false; tgroup := 1;
     measurement_time := 3; exposure_time := 5; saturation_time := 5;
     duty_cycle := 3 # 5; total_exposure_time := 5;
     total_integrations := 1; tsample := Some 1;
     nsample_total := Some 1%Z; nramps := 1 |}.

(** Two pixels with slopes 5 and 1 (location 0) and unit signal
    variance (location 1). *)
Definition bright_world : world ExposureSpecification :=
  {| this := bright_mir;
     store := [NdArray [Fin 5; Fin 1]; NdArray [Fin 1; Fin 1]] |}.

Definition bright_rate : Rate := {| fp_pix_variance := 1%nat |}.

(** [bright_world] with the saturation map of a full well of 10 at
    location 2: two and five valid groups. *)
Definition bright_world_saturation : world ExposureSpecification :=
  {| this := bright_mir;
     store := [NdArray [Fin 5; Fin 1]; NdArray [Fin 1; Fin 1];
               MaskedArray [{| data := Fin 2; mask := false |};
                            {| data := Fin 5; mask := false |}]] |}.

(** A target acquisition on a persistent detector: eleven groups, of
    which three are extracted. *)
Definition acquisition : ExposureSpecificationTA :=
  {| ta_base :=
       {| det_type := "h2rg"; pattern := "RAPID"; ngroup := 11; nint := 1;
          nexp := 1; tframe := 1; tfffr := 0; nframe := 1;
          subarray := "Full"; nskip := 0; nprerej := 0; npostrej := 0;
          nsample := 1; nsample_skip := 1; frame0 := false; tgroup := 1;
          measurement_time := 10; exposure_time := 12;
          saturation_time := 11; duty_cycle := 10 # 12;
          total_exposure_time := 12; total_integrations := 1;
          tsample := None; nsample_total := None; nramps := 1 |};
     ngroup_extract := 3 |}.

Definition acquisition_args : ExposureArgsTA :=
  {| ta_pattern := "RAPID"; ta_ngroup := 11; ta_ngroup_extract := 3;
     ta_nint := 1; ta_nexp := 1; ta_tframe := 1; ta_nframe := 1;
     ta_nsample := 1; ta_nsample_skip := 1; ta_subarray := "Full";
     ta_nskip := 0; ta_nprerej := 0; ta_npostrej := 0;
     ta_det_type := "h2rg" |}.

(** Two pixels with eleven valid groups (location 0) and unit signal
    variance (location 1). *)
Definition acquisition_world : world ExposureSpecificationTA :=
  {| this := acquisition;
     store := [MaskedArray [{| data := Fin 11; mask := false |};
                            {| data := Fin 11; mask := false |}];
               NdArray [Fin 1; Fin 1]] |}.

(** The read-noise variance of a target acquisition for one pixel, with
    the factor [min_factor] for the minimum of pairs:
    [min_factor * 2 * rn^2 / m / textract^2], where
    [textract = tgroup * (n - 1) / (ngroup_extract - 1)]. *)
Definition ta_read_noise (self : ExposureSpecificationTA)
    (min_factor readnoise : Q) (p : mpixel) : npfloat :=
  let m := (reads_and_frame_time (ta_base self)).1 in
  let textract :=
    ma_div (ma_mul (ma_scalar (tgroup (ta_base self)))
                   (ma_sub (ma_view p) (ma_scalar 1)))
           (ma_scalar (ngroup_extract self - 1)%Z) in
  ma_filled (ma_div (ma_scalar (min_factor * (2 * readnoise ^ 2) / m))
                    (ma_square textract)).

(** A computation changes neither the object nor an array of the store
    it starts from. *)
Definition frame {S A} (m : M S A) : Prop :=
  ∀ w, extends w (m w).2.

(** The smallest slope [get_unsaturated_groups] divides by. *)
Definition slope_floor : Q := 1e-10.

(** The valid-group count of one pixel, as [get_unsaturated_groups]
    computes it from the slope [x] of the pixel and the largest slope
    [top] of the array. *)
Definition valid_groups (self : ExposureSpecification) (fullwell : Q)
    (top x : npfloat) : npfloat :=
  np_clip (Fin 0) (Fin (ngroup self))
    (np_floor
       (fmul (fdiv (fdiv (Fin fullwell) (np_clip (Fin slope_floor) top x))
                   (Fin (saturation_time self)))
             (Fin (ngroup self)))).



(** [get_unsaturated_groups(slope, fullwell, full_saturation)], called
    in the world [w], returns the masked array [r]. *)
Definition saturation_map (w : world ExposureSpecification) (slope : loc)
    (fullwell full_saturation : Q) (r : list mpixel) : Prop :=
  ∃ l w', get_unsaturated_groups slope fullwell full_saturation w = (Ok l, w') ∧
          store w' !! l = Some (MaskedArray r).

(** A persistent detector read with two groups of 1e10 seconds. *)
Definition slow_nir_args : ExposureArgs :=
  {| a_pattern := "SLOW"; a_ngroup := 2; a_nint := 1; a_nexp := 1;
     a_tframe := 1e10; a_nframe := 1; a_nsample := 1; a_nsample_skip := 0;
     a_tfffr := 0; a_subarray := "Full"; a_nskip := 0; a_nprerej := 0;
     a_npostrej := 0; a_frame0 := false; a_det_type := "h2rg" |}.

(** The object constructed from [slow_nir_args]. *)
Definition slow_nir : ExposureSpecification :=
  {| det_type := "h2rg"; pattern := "SLOW"; ngroup := 2; nint := 1;
     nexp := 1; tframe := 10000000000; tfffr := 0; nframe := 1;
     subarray := "Full"; nskip := 0; nprerej := 0; npostrej := 0;
     nsample := 1; nsample_skip := 0; frame0 := false;
     tgroup := 10000000000; measurement_time := 10000000000;
     exposure_time := 30000000000; saturation_time := 20000000000;
     duty_cycle := 10000000000 # 30000000000;
     total_exposure_time := 30000000000; total_integrations := 1;
     tsample := None; nsample_total := None; nramps := 1 |}.



(** An object on which the noise formulas are defined: one group or
    more, a positive saturation time and group time, one read or more. *)
Definition well_formed (self : ExposureSpecification) : Prop :=
  (1 <= ngroup self)%Z ∧ 0 < saturation_time self ∧ 0 < tgroup self ∧
  (1 <= nframe self)%Z ∧
  (∀ nt, nsample_total self = Some nt → (1 <= nt)%Z).

(** A count from which no slope can be fitted: the noise formulas
    divide by [n * (n^2 - 1)]. *)
Definition no_slope (q : Q) : Prop := q == -1 ∨ q == 0 ∨ q == 1.

(** What the outputs [x] (slope variance) and [y] (read-noise variance)
    of [slope_variance] are at a pixel whose count, after the rejected
    groups are removed, is [p]: not-a-number when the pixel is masked or
    no slope can be fitted from the count, a finite value otherwise. *)
Definition pixel_verdict (p : mpixel) (x y : npfloat) : Prop :=
  ∃ q, data p = Fin q ∧
       (mask p = true ∨ no_slope q → x = NaN ∧ y = NaN) ∧
       (mask p = false → ¬ no_slope q → isfinite x = true ∧ isfinite y = true).

(** ** The closed formulas of the noise model *)

(** The number of reads [rn_variance] averages: the samples of a
    sample-averaging detector, the frames of a group otherwise. *)
Definition rn_reads (self : ExposureSpecification) : Z :=
  match nsample_total self with
  | Some nsample_total => nsample_total
  | None => nframe self
  end.

(** The value of [np.sqrt(m)] when it is finite. *)
Definition sqrt_reads (m : Z) : Q :=
  match np_sqrt m with
  | Fin s => s
  | _ => 0
  end.

(** The read-noise variance of a ramp with [q] groups: the MULTIACCUM
    term [12 rn^2 / (m q (q^2 - 1) tgroup^2)] times [rn_fudge], plus the
    excess variance of long ramps. *)
Definition rn_value (self : ExposureSpecification)
    (readnoise rn_fudge excessp1 excessp2 q : Q) : Q :=
  let m := rn_reads self in
  rn_fudge * (12 * readnoise ^ 2 / (m * q * (q ^ 2 - 1) * tgroup self ^ 2))
  + (12 * (q - 1) / (q + 1) * excessp1 ^ 2 - excessp2 / sqrt_reads m)
    / ((1 - q) * tgroup self) ^ 2.

(** The shot-noise part of the slope variance of a ramp with [q] groups
    and a signal variance [v] per second:
    [6/5 (q^2+1) / (q (q^2-1)) * (v + dark) / tgroup
     * (1 - 5/3 (m^2-1) / (m (q^2+1)) * tframe / tgroup)]. *)
Definition shot_value (self : ExposureSpecification)
    (dark_current v q : Q) : Q :=
  let '(m, tframe) := reads_and_frame_time self in
  6 / 5 * (q ^ 2 + 1) / (q * (q ^ 2 - 1))
  * ((v + dark_current) / tgroup self)
  * (1 - 5 / 3 * (m ^ 2 - 1) / (m * (q ^ 2 + 1)) * (tframe / tgroup self)).

(** The detector types [__init__] knows. *)
Definition known_detector (c : ExposureArgs) : Prop :=
  a_det_type c = "sias" ∨ a_det_type c = "h2rg".

(** A persistent detector asked for no integration. *)
Definition no_integration_nir : ExposureArgs :=
  {| a_pattern := "pattern"; a_ngroup := 10; a_nint := 0; a_nexp := 1;
     a_tframe := 10.0; a_nframe := 1; a_nsample := 1; a_nsample_skip := 0;
     a_tfffr := 0; a_subarray := "Full"; a_nskip := 0; a_nprerej := 0;
     a_npostrej := 0; a_frame0 := false; a_det_type := "h2rg" |}.

(** A valid configuration that is constructed and whose detector, when
    it averages samples, takes one sample or more. *)
Definition sampled (c : ExposureArgs) : Prop :=
  constructible c ∧ (a_det_type c = "sias" → (1 <= a_nsample c)%Z).

(** The number of groups the scalar path of [rn_variance] fits: those of
    the ramp that are not rejected. *)
Definition kept_groups (self : ExposureSpecification) : Z :=
  (ngroup self - (nprerej self + npostrej self))%Z.

(** The reads of a group take no longer than the group. *)
Definition reads_fit_group (self : ExposureSpecification) : Prop :=
  let '(m, tframe) := reads_and_frame_time self in
  m * tframe <= tgroup self.

(** ** The closed formulas of target acquisition *)

(** The effective group time of a pixel with [q] valid groups:
    [tgroup * (q - 1) / (ngroup_extract - 1)]. *)
Definition ta_textract (self : ExposureSpecificationTA) (q : Q) : Q :=
  tgroup (ta_base self) * (q - 1) / (ngroup_extract self - 1)%Z.

(** [min_factor * 2 rn^2 / m / textract^2]. *)
Definition ta_rn_value (self : ExposureSpecificationTA)
    (min_factor readnoise q : Q) : Q :=
  let m := (reads_and_frame_time (ta_base self)).1 in
  min_factor * (2 * readnoise ^ 2) / m / ta_textract self q ^ 2.

(** [min_factor * (v + dark) / textract
     * (1 - 1/3 (m^2 - 1) / m * tframe / textract)]. *)
Definition ta_shot_value (self : ExposureSpecificationTA)
    (min_factor dark_current v q : Q) : Q :=
  let '(m, tframe) := reads_and_frame_time (ta_base self) in
  min_factor * (v + dark_current) / ta_textract self q
  * (1 - 1 / 3 * (m ^ 2 - 1) / m * tframe / ta_textract self q).

(** * The background noise calculator ([bnc.py]) *)

From stdpp Require gmap.

Section bnc.
(** The values of the input dictionary, and the two parts of the
    engine that [bnc] calls: [build_empty_scene] and everything from
    [CalculationConfig] to [det_stddev.max() / np.sqrt(ndithers)],
    which reads the scene, the three required entries and the optional
    ['calculation'] entry. *)
Context {Value : Type}.
Variable build_empty_scene : result Value.
Variable detector_noise :
  Value → Value → Value → Value → option Value → result Q.

(** The message of the [EngineInputError]; [str] of a [KeyError]
    quotes the key. *)
Definition missing_information (key : string) : string :=
  "Missing information required for the calculation: '" +:+ key +:+ "'".

(** [calc_input[key]] inside the [try] block: the [KeyError] of a
    missing key is raised again as an [EngineInputError]. *)
Definition required (calc_input : gmap.gmap string Value) (key : string)
  : result Value :=
  match calc_input !! key with
  | Some v => Ok v
  | None => Raise (EngineInputError (missing_information key))
  end.

(** [bnc(calc_input)]. *)
Definition bnc (calc_input : gmap.gmap string Value) : result Q :=
  scene_configuration ← build_empty_scene;
  background ← required calc_input "background";
  instrument_configuration ← required calc_input "configuration";
  strategy_configuration ← required calc_input "strategy";
  detector_noise scene_configuration background instrument_configuration
    strategy_configuration (calc_input !! "calculation").
End bnc.

(** The entries of the input that [bnc] reads. *)
Definition bnc_keys : list string :=
  ["background"; "configuration"; "strategy"; "calculation"].

(** A sample-averaging detector read with five groups, all of which are
    rejected. *)
Definition over_rejected_mir : ExposureArgs :=
  {| a_pattern := "FAST"; a_ngroup := 5; a_nint := 1; a_nexp := 1;
     a_tframe := 1; a_nframe := 1; a_nsample := 1; a_nsample_skip := 0;
     a_tfffr := 0; a_subarray := "Full"; a_nskip := 0; a_nprerej := 3;
     a_npostrej := 3; a_frame0 := false; a_det_type := "sias" |}.


(** * Properties *)
(** ** Helpers: integers inside rational expressions *)

Lemma inject_Z_minus (a b : Z) : inject_Z (a - b) == inject_Z a - inject_Z b.
Proof.
  unfold Z.sub. rewrite inject_Z_plus, inject_Z_opp. reflexivity.
Qed.

Lemma py_div_ok (a b : Q) : ¬ b == 0 → py_div a b = Ok (a / b).
Proof.
  intros Hb. unfold py_div.
  destruct (Qeq_bool b 0) eqn:E; [| reflexivity].
  apply Qeq_bool_iff in E. contradiction.
Qed.

Lemma inject_Z_le (a b : Z) : (a <= b)%Z → inject_Z a <= inject_Z b.
Proof. intros H. rewrite <- Zle_Qle. exact H. Qed.

Lemma inject_Z_lt (a b : Z) : (a < b)%Z → inject_Z a < inject_Z b.
Proof. intros H. rewrite <- Zlt_Qlt. exact H. Qed.

Lemma inject_Z_nonneg (a : Z) : (0 <= a)%Z → 0 <= inject_Z a.
Proof. apply (inject_Z_le 0). Qed.

Lemma inject_Z_ge1 (a : Z) : (1 <= a)%Z → 1 <= inject_Z a.
Proof. apply (inject_Z_le 1). Qed.

Lemma inject_Z_neq0 (a : Z) : a ≠ 0%Z → ¬ inject_Z a == 0.
Proof. intros H E. apply H. unfold Qeq in E. simpl in E. lia. Qed.

Lemma Qdiv_unit_interval (a b : Q) : 0 < a → a <= b → 0 < a / b ∧ a / b <= 1.
Proof.
  intros Ha Hab.
  assert (Hb : 0 < b) by lra.
  split.
  - apply Qlt_shift_div_l; lra.
  - apply Qle_shift_div_r; lra.
Qed.

(** ** Timing *)

(** (C1) In the scenario of the spec the object is constructed, with a
    group time of 10, a saturation time of 100, an exposure time of 110, a
    measurement time of 90 and a duty cycle of 9/11. *)
Theorem scenario_nir_times :
  ∃ e, new_ExposureSpecification scenario_nir = Ok e ∧
       tgroup e == 10.0 ∧ saturation_time e == 100.0 ∧
       exposure_time e == 110.0 ∧ measurement_time e == 90.0 ∧
       duty_cycle e == 9 / 11.
Proof.
  eexists. split; [vm_compute; reflexivity |].
  repeat split; reflexivity.
Qed.

(** (C1, as stated) The values claimed for the scenario are not those of
    the constructed object: its saturation time is not 90, its exposure
    time not 100 and its duty cycle not 0.9. *)
Lemma scenario_nir_not_as_claimed :
  ¬ ∃ e, new_ExposureSpecification scenario_nir = Ok e ∧
         tgroup e == 10.0 ∧ saturation_time e == 90.0 ∧
         exposure_time e == 100.0 ∧ measurement_time e == 90.0 ∧
         duty_cycle e == 0.9.
Proof.
  intros (e & He & _ & Hsat & _).
  vm_compute in He. injection He as <-.
  vm_compute in Hsat. discriminate.
Qed.

Lemma exposure_time_nir_pos (c : ExposureArgs) :
  valid_args c → (1 <= a_nint c)%Z →
  0 < (a_tframe c + a_tfffr c) * a_nint c +
      a_tframe c *
        (a_nint c * ((a_ngroup c - 1) * (a_nframe c + a_nskip c) + a_nframe c))%Z.
Proof.
  intros (_ & Hg & Hf & Hs & _ & _ & Ht & Hr) Hn.
  assert (Hk : (0 <= a_nint c * ((a_ngroup c - 1) * (a_nframe c + a_nskip c) + a_nframe c))%Z) by nia.
  apply inject_Z_nonneg in Hk. apply inject_Z_ge1 in Hn.
  set (k := inject_Z (_ * _)) in *. set (n := inject_Z (a_nint c)) in *.
  assert (0 <= a_tframe c * k) by (apply Qmult_le_0_compat; lra).
  assert (0 < (a_tframe c + a_tfffr c) * n) by (apply Qmult_lt_0_compat; lra).
  lra.
Qed.

Lemma exposure_time_mir_pos (c : ExposureArgs) :
  (1 <= a_ngroup c)%Z → (1 <= a_nframe c)%Z → 0 < a_tframe c →
  0 <= a_tfffr c → (1 <= a_nint c)%Z →
  0 < a_nint c * (a_tfffr c + (a_ngroup c * a_nframe c)%Z * a_tframe c).
Proof.
  intros Hg Hf Ht Hr Hn.
  assert (Hk : (1 <= a_ngroup c * a_nframe c)%Z) by nia.
  apply inject_Z_ge1 in Hk. apply inject_Z_ge1 in Hn.
  set (k := inject_Z (_ * _)) in *. set (n := inject_Z (a_nint c)) in *.
  assert (0 < k * a_tframe c) by (apply Qmult_lt_0_compat; lra).
  apply Qmult_lt_0_compat; lra.
Qed.

Lemma Qpos_neq0 (x : Q) : 0 < x → ¬ x == 0.
Proof. intros H E. rewrite E in H. apply (Qlt_irrefl 0 H). Qed.

Ltac run_result :=
  unfold mbind, result_bind, mret, result_ret; cbn beta iota.

(** (C2) A valid configuration with one integration or more is
    constructed, with [total_exposure_time = nexp * exposure_time],
    [total_integrations = nexp * nint] and [nramps = nint * nexp]; in the
    regime [duty_regime] its duty cycle is in (0, 1]. *)
Theorem duty_cycle_and_totals (c : ExposureArgs) :
  constructible c →
  ∃ e, new_ExposureSpecification c = Ok e ∧
       total_exposure_time e == nexp e * exposure_time e ∧
       total_integrations e = (nexp e * nint e)%Z ∧
       nramps e = (nint e * nexp e)%Z ∧
       (duty_regime c → 0 < duty_cycle e ∧ duty_cycle e <= 1).
Proof.
  intros (Hv & Hn & Hs).
  pose proof Hv as (Hdet & Hg & Hf & Hk & Hpre & Hpost & Ht & Hr).
  unfold new_ExposureSpecification.
  destruct Hdet as [Hdet | Hdet]; rewrite Hdet; cbn [String.eqb Ascii.eqb Bool.eqb].
  - unfold get_times_nir.
    rewrite py_div_ok by (apply Qpos_neq0, exposure_time_nir_pos; assumption).
    run_result. eexists. split; [reflexivity |].
    cbn [total_exposure_time nexp exposure_time total_integrations nint nramps
         duty_cycle t_total_exposure_time t_exposure_time t_total_integrations t_duty_cycle].
    split; [reflexivity |]. split; [reflexivity |]. split; [reflexivity |].
    intros [[_ Hreg] | [Hsias _]]; [| congruence].
    assert (Ha : (0 <= (a_ngroup c - 1) * (a_nframe c + a_nskip c))%Z) by nia.
    assert (Ha' : (2 <= a_ngroup c → 1 <= (a_ngroup c - 1) * (a_nframe c + a_nskip c))%Z) by nia.
    remember ((a_ngroup c - 1) * (a_nframe c + a_nskip c))%Z as a eqn:Ea.
    rewrite !inject_Z_mult, !inject_Z_plus.
    apply inject_Z_nonneg in Ha; apply inject_Z_ge1 in Hn, Hf.
    assert (Ha1 : (2 <= a_ngroup c)%Z → 1 <= inject_Z a)
      by (intros H2; apply inject_Z_ge1; auto).
    clear Ea Ha'.
    set (n := inject_Z (a_nint c)) in *; set (r := inject_Z (a_nframe c)) in *.
    assert (Hx : 0 < a_tframe c * n) by (apply Qmult_lt_0_compat; lra).
    assert (Hp : 0 <= a_tframe c * n * inject_Z a) by (apply Qmult_le_0_compat; lra).
    assert (Hq : a_tframe c * n <= a_tframe c * n * r)
           by (rewrite <- (Qmult_1_r (a_tframe c * n)) at 1; apply Qmult_le_l; lra).
    assert (Hy : 0 <= a_tfffr c * n) by (apply Qmult_le_0_compat; lra).
    assert (Hp' : (2 <= a_ngroup c)%Z → 0 < a_tframe c * n * inject_Z a)
           by (intros H2; apply Ha1 in H2; apply Qmult_lt_0_compat; lra).
    assert (E1 : (a_tframe c + a_tfffr c) * n + a_tframe c * (n * (inject_Z a + r))
                 == a_tframe c * n + a_tfffr c * n + a_tframe c * n * inject_Z a + a_tframe c * n * r) by ring.
    assert (E2 : 0.5 * n * a_tframe c * r == (1#2) * (a_tframe c * n * r)) by ring.
    rewrite E1. clear E1.
    set (x := a_tframe c * n) in *; set (p := x * inject_Z a) in *; set (q := x * r) in *;
         set (y := a_tfffr c * n) in *.
    apply Qdiv_unit_interval.
    + destruct (a_frame0 c); [rewrite E2; lra |].
      destruct Hreg as [H2 | ?]; [apply Hp' in H2; lra | discriminate].
    + destruct (a_frame0 c); [rewrite E2 |]; lra.
  - unfold get_times_mir.
    rewrite (py_div_ok (a_tframe c)) by (apply inject_Z_neq0; auto).
    rewrite py_div_ok by (apply Qpos_neq0, exposure_time_mir_pos; assumption).
    run_result.
    eexists. split; [reflexivity |].
    cbn [total_exposure_time nexp exposure_time total_integrations nint nramps
         duty_cycle t_total_exposure_time t_exposure_time t_total_integrations t_duty_cycle].
    split; [reflexivity |]. split; [reflexivity |]. split; [reflexivity |].
    intros [[Hnir _] | (_ & Hskip & Hreg)]; [congruence |].
    rewrite Hskip, Z.add_0_r.
    apply inject_Z_ge1 in Hn as Hn'.
    set (n := inject_Z (a_nint c)) in *.
    assert (Hy : 0 <= n * a_tfffr c) by (apply Qmult_le_0_compat; lra).
    assert (E1 : n * (a_tfffr c + inject_Z (a_ngroup c * a_nframe c) * a_tframe c)
                 == n * a_tfffr c + a_tframe c * inject_Z (a_nint c * (a_ngroup c * a_nframe c)))
      by (rewrite !inject_Z_mult; fold n; ring).
    rewrite E1. clear E1.
    apply inject_Z_ge1 in Hg as Hg', Hf as Hf'.
    set (g := inject_Z (a_ngroup c)) in *. set (r := inject_Z (a_nframe c)) in *.
    assert (Hu : 0 < a_tframe c * n) by (apply Qmult_lt_0_compat; lra).
    assert (Hv' : a_tframe c * n <= a_tframe c * n * r)
      by (rewrite <- (Qmult_1_r (a_tframe c * n)) at 1; apply Qmult_le_l; lra).
    assert (Hw : a_tframe c * n * r <= a_tframe c * n * r * g)
      by (rewrite <- (Qmult_1_r (a_tframe c * n * r)) at 1; apply Qmult_le_l; lra).
    assert (Ebright : ∀ j : Z,
              inject_Z j * (a_tframe c * r) == a_tframe c * inject_Z (j * a_nframe c))
      by (intros j; rewrite inject_Z_mult; fold r; ring).
    assert (Efaint :
              n * (a_tfffr c + g * (a_tframe c * r))
                - n * a_tframe c * 0.5 * inject_Z (a_nframe c - 1)
              == n * a_tfffr c + a_tframe c * n * r * g
                 - (1 # 2) * (a_tframe c * n * r) + (1 # 2) * (a_tframe c * n))
      by (rewrite inject_Z_minus; fold r; ring).
    assert (Eexp : a_tframe c * inject_Z (a_nint c * (a_ngroup c * a_nframe c))
                   == a_tframe c * n * r * g)
      by (rewrite !inject_Z_mult; fold n g r; ring).
    apply Qdiv_unit_interval; destruct (a_ngroup c >=? 5)%Z eqn:E5;
      try apply Z.geb_le in E5.
    + assert (Hj : (1 <= (a_nint c * (a_ngroup c - 1 - (a_nprerej c + a_npostrej c))) * a_nframe c)%Z)
        by nia.
      rewrite Ebright. apply inject_Z_ge1 in Hj.
      apply Qmult_lt_0_compat; lra.
    + rewrite Efaint. lra.
    + assert (Hj : ((a_nint c * (a_ngroup c - 1 - (a_nprerej c + a_npostrej c))) * a_nframe c
                    <= a_nint c * (a_ngroup c * a_nframe c))%Z) by nia.
      rewrite Ebright. apply inject_Z_le in Hj.
      apply (Qmult_le_l _ _ (a_tframe c)) in Hj; [| lra]. lra.
    + rewrite Efaint, Eexp. lra.
Qed.

(** (C2, as stated) A valid persistent-detector configuration with a
    single group and no zeroth frame is constructed with a duty cycle of
    zero, which is not in (0, 1]. *)
Lemma single_group_duty_cycle_zero :
  valid_args single_group_nir ∧
  ∃ e, new_ExposureSpecification single_group_nir = Ok e ∧
       duty_cycle e == 0 ∧ ¬ 0 < duty_cycle e.
Proof.
  split.
  - unfold valid_args, single_group_nir; cbn.
    repeat split; try lia; try reflexivity; try discriminate. left; reflexivity.
  - eexists. split; [vm_compute; reflexivity |].
    split; [reflexivity | intros H; vm_compute in H; discriminate].
Qed.

Lemma duty_cycle_and_totals_witness :
  constructible scenario_nir ∧
  ∃ e, new_ExposureSpecification scenario_nir = Ok e ∧
       total_exposure_time e == nexp e * exposure_time e ∧
       total_integrations e = (nexp e * nint e)%Z ∧
       nramps e = (nint e * nexp e)%Z ∧
       (duty_regime scenario_nir → 0 < duty_cycle e ∧ duty_cycle e <= 1).
Proof.
  assert (H : constructible scenario_nir).
  { unfold constructible, valid_args, scenario_nir; cbn.
    repeat split; try lia; try reflexivity; try discriminate. left; reflexivity. }
  split; [exact H | exact (duty_cycle_and_totals scenario_nir H)].
Defined.

(** (C6) A sample-averaging detector is constructed with the attributes
    of its configuration, the group time [tframe * (nframe + nskip)],
    the measurement time of the very bright regime when it has fewer
    than five groups, whatever the rejected-group counts, and the
    measurement time [nint * (ngroup - 1 - nprerej - npostrej) * tgroup]
    from five groups on. *)
Theorem sias_measurement_time (c : ExposureArgs) :
  a_det_type c = "sias" →
  (1 <= a_ngroup c)%Z → (1 <= a_nframe c)%Z → (1 <= a_nint c)%Z →
  0 < a_tframe c → 0 <= a_tfffr c →
  (a_nsample c + a_nsample_skip c)%Z ≠ 0%Z →
  ∃ e, new_ExposureSpecification c = Ok e ∧
       (nint e = a_nint c ∧ ngroup e = a_ngroup c ∧ nframe e = a_nframe c ∧
        nskip e = a_nskip c ∧ tframe e = a_tframe c ∧ tfffr e = a_tfffr c ∧
        nprerej e = a_nprerej c ∧ npostrej e = a_npostrej c ∧
        tgroup e == a_tframe c * (a_nframe c + a_nskip c)%Z) ∧
       ((a_ngroup c < 5)%Z →
        measurement_time e ==
          nint e * (tfffr e + ngroup e * tgroup e)
          - nint e * tframe e * 0.5 * (nframe e - 1)%Z ∧
        measurement_time e ==
          a_nint c * (a_tfffr c
                      + a_ngroup c * (a_tframe c * (a_nframe c + a_nskip c)%Z))
          - a_nint c * a_tframe c * 0.5 * (a_nframe c - 1)%Z) ∧
       ((5 <= a_ngroup c)%Z →
        measurement_time e ==
          nint e * (ngroup e - 1 - nprerej e - npostrej e)%Z * tgroup e ∧
        measurement_time e ==
          a_nint c * (a_ngroup c - 1 - a_nprerej c - a_npostrej c)%Z
          * (a_tframe c * (a_nframe c + a_nskip c)%Z)).
Proof.
  intros Hdet Hg Hf Hn Ht Hr Hs.
  unfold new_ExposureSpecification. rewrite Hdet; cbn [String.eqb Ascii.eqb Bool.eqb].
  unfold get_times_mir.
  rewrite (py_div_ok (a_tframe c)) by (apply inject_Z_neq0; auto).
  rewrite py_div_ok by (apply Qpos_neq0, exposure_time_mir_pos; assumption).
  run_result. eexists. split; [reflexivity |].
  cbn [measurement_time t_measurement_time nint tfffr ngroup tgroup tframe
       nframe nskip nprerej npostrej t_tgroup].
  split; [repeat split; reflexivity |].
  split; intros H5.
  - apply Z.ltb_lt in H5. rewrite Z.geb_leb, Z.leb_antisym, H5.
    split; reflexivity.
  - apply Z.geb_le in H5. rewrite H5.
    rewrite <- inject_Z_mult.
    replace (a_ngroup c - 1 - (a_nprerej c + a_npostrej c))%Z
      with (a_ngroup c - 1 - a_nprerej c - a_npostrej c)%Z by lia.
    split; reflexivity.
Qed.

Lemma sias_measurement_time_witness :
  ∃ e, new_ExposureSpecification three_group_mir = Ok e ∧
       (nint e = 2%Z ∧ ngroup e = 3%Z ∧ nframe e = 2%Z ∧
        nskip e = 0%Z ∧ tframe e = 2.5 ∧ tfffr e = 0.5 ∧
        nprerej e = 1%Z ∧ npostrej e = 1%Z ∧
        tgroup e == 2.5 * (2 + 0)%Z) ∧
       ((a_ngroup three_group_mir < 5)%Z →
        measurement_time e ==
          nint e * (tfffr e + ngroup e * tgroup e)
          - nint e * tframe e * 0.5 * (nframe e - 1)%Z ∧
        measurement_time e ==
          2%Z * (0.5 + 3%Z * (2.5 * (2 + 0)%Z)) - 2%Z * 2.5 * 0.5 * (2 - 1)%Z) ∧
       ((5 <= a_ngroup three_group_mir)%Z →
        measurement_time e ==
          nint e * (ngroup e - 1 - nprerej e - npostrej e)%Z * tgroup e ∧
        measurement_time e ==
          2%Z * (3 - 1 - 1 - 1)%Z * (2.5 * (2 + 0)%Z)).
Proof.
  apply (sias_measurement_time three_group_mir);
    cbn; try reflexivity; try lia; discriminate.
Defined.

(** ** Running the method monad *)

Lemma run_bind {S A B} (m : M S A) (f : A → M S B) (w : world S) :
  (m ≫= f) w =
  match m w with
  | (Ok a, w') => f a w'
  | (Raise e, w') => (Raise e, w')
  end.
Proof. reflexivity. Qed.

Lemma run_bind_ok {S A B} (m : M S A) (f : A → M S B) w a w' :
  m w = (Ok a, w') → (m ≫= f) w = f a w'.
Proof. intros H. rewrite run_bind, H. reflexivity. Qed.

Lemma run_bind_raise {S A B} (m : M S A) (f : A → M S B) w e w' :
  m w = (Raise e, w') → (m ≫= f) w = (Raise e, w').
Proof. intros H. rewrite run_bind, H. reflexivity. Qed.

Lemma run_bind_inv {S A B} (m : M S A) (f : A → M S B) w b w' :
  (m ≫= f) w = (Ok b, w') →
  ∃ a w1, m w = (Ok a, w1) ∧ f a w1 = (Ok b, w').
Proof.
  rewrite run_bind. destruct (m w) as [[a | e] w1]; [eauto | discriminate].
Qed.

Lemma run_get_self {S B} (f : S → M S B) w : (get_self ≫= f) w = f (this w) w.
Proof. reflexivity. Qed.

Lemma run_lift_ok {S A B} (a : A) (f : A → M S B) w :
  (lift (Ok a) ≫= f) w = f a w.
Proof. reflexivity. Qed.

Lemma load_masked_run {S} (l : loc) (a : list mpixel) (w : world S) :
  store w !! l = Some (MaskedArray a) → load_masked l w = (Ok a, w).
Proof. intros H. unfold load_masked, load. rewrite run_bind, H. reflexivity. Qed.

Lemma load_ndarray_run {S} (l : loc) (a : list npfloat) (w : world S) :
  store w !! l = Some (NdArray a) → load_ndarray l w = (Ok a, w).
Proof. intros H. unfold load_ndarray, load. rewrite run_bind, H. reflexivity. Qed.

Lemma ma_copy_run {S} (l : loc) (a : list mpixel) (w : world S) :
  store w !! l = Some (MaskedArray a) →
  ma_copy l w =
  (Ok (length (store w)),
   {| this := this w; store := store w ++ [MaskedArray a] |}).
Proof.
  intros H. unfold ma_copy. rewrite (run_bind_ok _ _ _ _ _ (load_masked_run _ _ _ H)).
  reflexivity.
Qed.

(** *** Computations that never raise a given exception *)

Lemma never_raises_ret {S A} e (a : A) : never_raises (S := S) e (mret a).
Proof. intros w. discriminate. Qed.

Lemma never_raises_bind {S A B} e (m : M S A) (f : A → M S B) :
  never_raises e m → (∀ a, never_raises e (f a)) → never_raises e (m ≫= f).
Proof.
  intros Hm Hf w. rewrite run_bind. specialize (Hm w).
  destruct (m w) as [[a | e'] w']; [apply Hf |].
  cbn in *. congruence.
Qed.

Lemma never_raises_get_self {S} e : never_raises (S := S) e get_self.
Proof. intros w. discriminate. Qed.

Lemma never_raises_raise {S A} e e' :
  e' ≠ e → never_raises (S := S) (A := A) e (raise e').
Proof. intros H w. cbn. congruence. Qed.

Lemma never_raises_lift {S A} e (r : result A) :
  r ≠ Raise e → never_raises (S := S) e (lift r).
Proof. intros H w. exact H. Qed.

Lemma never_raises_load {S} e (l : loc) :
  e ≠ IllTyped → never_raises (S := S) e (load l).
Proof.
  intros H w. unfold load. destruct (store w !! l); cbn; congruence.
Qed.

Lemma never_raises_load_masked {S} e (l : loc) :
  e ≠ IllTyped → never_raises (S := S) e (load_masked l).
Proof.
  intros H. apply never_raises_bind; [apply never_raises_load; exact H |].
  intros [a | a]; [apply never_raises_raise; congruence | apply never_raises_ret].
Qed.

Lemma never_raises_load_ndarray {S} e (l : loc) :
  e ≠ IllTyped → never_raises (S := S) e (load_ndarray l).
Proof.
  intros H. apply never_raises_bind; [apply never_raises_load; exact H |].
  intros [a | a]; [apply never_raises_ret | apply never_raises_raise; congruence].
Qed.

Lemma never_raises_alloc {S} e (o : pyobj) : never_raises (S := S) e (alloc o).
Proof. intros w. discriminate. Qed.

Lemma never_raises_store_masked {S} e l a :
  never_raises (S := S) e (store_masked l a).
Proof. intros w. discriminate. Qed.

Lemma py_div_not_value_error (a b : Q) msg : py_div a b ≠ Raise (ValueError msg).
Proof. unfold py_div. destruct (Qeq_bool b 0); discriminate. Qed.

Lemma np_broadcast_not_both_fudges {A B C} (f : A → B → C) a b :
  np_broadcast f a b ≠ Raise (ValueError both_fudges_msg).
Proof.
  unfold np_broadcast. destruct (length a =? length b)%nat; [discriminate |].
  destruct a as [| x [|]], b as [| y [|]]; discriminate.
Qed.

Lemma world_eta {S} (w : world S) : {| this := this w; store := store w |} = w.
Proof. destruct w; reflexivity. Qed.

Lemma store_masked_run {S} l a (w : world S) :
  store_masked l a w =
  (Ok (), {| this := this w; store := <[l := MaskedArray a]> (store w) |}).
Proof. reflexivity. Qed.

Lemma reject_groups_run (n : loc) (a : list mpixel) w :
  store w !! n = Some (MaskedArray a) →
  reject_groups n w =
  (Ok (), {| this := this w;
             store := <[n := MaskedArray (reject_pixel (this w) <$> a)]> (store w) |}).
Proof.
  intros Hn. pose proof (lookup_lt_Some _ _ _ Hn) as Hlt.
  unfold reject_groups. rewrite run_get_self.
  unfold reject_pixel, rejects.
  destruct ((negb (nprerej (this w) =? 0)%Z || negb (npostrej (this w) =? 0)%Z)
            && (ngroup (this w) >=? 5)%Z).
  - rewrite (run_bind_ok _ _ _ _ _ (load_masked_run _ _ _ Hn)).
    unfold ma_isub_where, ma_isub.
    rewrite (run_bind_ok _ _ _ _ _ (run_bind_ok _ _ _ _ _ (load_masked_run _ _ _ Hn))).
    erewrite run_bind_ok
      by (apply load_masked_run; cbn; apply list_lookup_insert_eq; exact Hlt).
    rewrite store_masked_run. cbn [this store].
    rewrite list_insert_insert_eq.
    rewrite zip_with_fmap_l, zip_with_diag, <- list_fmap_compose.
    reflexivity.
  - cbn. rewrite list_fmap_id, list_insert_id by exact Hn.
    rewrite world_eta. reflexivity.
Qed.

(** ** The two read-noise corrections exclude each other *)

Lemma both_fudges_true (rn_fudge excessp1 excessp2 : Q) :
  both_fudges_given rn_fudge excessp1 excessp2 →
  both_fudges rn_fudge excessp1 excessp2 = true.
Proof.
  intros [Hf Hp]. unfold both_fudges.
  apply andb_true_intro. split.
  - apply negb_true_iff, not_true_is_false. rewrite Qeq_bool_iff. exact Hf.
  - apply orb_true_intro.
    destruct Hp as [Hp | Hp]; [left | right];
      apply negb_true_iff, not_true_is_false; rewrite Qeq_bool_iff; exact Hp.
Qed.

Lemma both_fudges_false (rn_fudge excessp1 excessp2 : Q) :
  rn_fudge == 1 ∨ (excessp1 == 0 ∧ excessp2 == 0) →
  both_fudges rn_fudge excessp1 excessp2 = false.
Proof.
  unfold both_fudges. intros [Hf | [H1 H2]].
  - apply Qeq_bool_iff in Hf. rewrite Hf. reflexivity.
  - apply Qeq_bool_iff in H1, H2. rewrite H1, H2. apply andb_false_r.
Qed.

Lemma rn_variance_both_fudges readnoise unsat_ngroups rn_fudge excessp1 excessp2 w :
  both_fudges rn_fudge excessp1 excessp2 = true →
  rn_variance readnoise unsat_ngroups rn_fudge excessp1 excessp2 w =
  (Raise (ValueError both_fudges_msg), w).
Proof.
  intros H. unfold rn_variance. rewrite run_get_self, H. reflexivity.
Qed.

Lemma rn_variance_one_fudge readnoise unsat_ngroups rn_fudge excessp1 excessp2 :
  both_fudges rn_fudge excessp1 excessp2 = false →
  never_raises (ValueError both_fudges_msg)
    (rn_variance readnoise unsat_ngroups rn_fudge excessp1 excessp2).
Proof.
  intros H. unfold rn_variance.
  apply never_raises_bind; [apply never_raises_get_self |]. intros self.
  rewrite H. destruct unsat_ngroups as [l |].
  - apply never_raises_bind; [apply never_raises_load_masked; discriminate |].
    intros a. apply never_raises_ret.
  - apply never_raises_bind; [apply never_raises_lift, py_div_not_value_error |].
    intros v. destruct (_ || _); [| apply never_raises_ret].
    apply never_raises_bind; [apply never_raises_lift, py_div_not_value_error |].
    intros t. apply never_raises_ret.
Qed.

Lemma never_raises_reject_groups e n :
  e ≠ IllTyped → never_raises e (reject_groups n).
Proof.
  intros He. unfold reject_groups.
  apply never_raises_bind; [apply never_raises_get_self |]. intros self.
  destruct (_ && _); [| apply never_raises_ret].
  apply never_raises_bind; [apply never_raises_load_masked; exact He |]. intros a.
  apply never_raises_bind.
  - apply never_raises_bind; [apply never_raises_load_masked; exact He |].
    intros a'. apply never_raises_store_masked.
  - intros _. apply never_raises_bind; [apply never_raises_load_masked; exact He |].
    intros a'. apply never_raises_store_masked.
Qed.

Lemma slope_variance_one_fudge rate dark_current readnoise unsat_ngroups
    rn_fudge excessp1 excessp2 :
  both_fudges rn_fudge excessp1 excessp2 = false →
  never_raises (ValueError both_fudges_msg)
    (slope_variance rate dark_current readnoise unsat_ngroups
       rn_fudge excessp1 excessp2).
Proof.
  intros H. unfold slope_variance.
  apply never_raises_bind; [apply never_raises_get_self |]. intros self.
  apply never_raises_bind.
  { apply never_raises_bind; [apply never_raises_load_masked; discriminate |].
    intros a. apply never_raises_alloc. }
  intros n.
  apply never_raises_bind; [apply never_raises_reject_groups; discriminate |].
  intros _. destruct (reads_and_frame_time self) as [m tframe].
  apply never_raises_bind; [apply rn_variance_one_fudge; exact H |]. intros rv.
  apply never_raises_bind; [apply never_raises_load_masked; discriminate |]. intros a.
  apply never_raises_bind; [apply never_raises_load_ndarray; discriminate |]. intros vpp.
  apply never_raises_bind; [apply never_raises_lift, np_broadcast_not_both_fudges |].
  intros x1.
  apply never_raises_bind; [apply never_raises_lift, py_div_not_value_error |].
  intros ratio.
  apply never_raises_bind; [apply never_raises_lift, np_broadcast_not_both_fudges |].
  intros x2.
  apply never_raises_bind; [apply never_raises_lift, np_broadcast_not_both_fudges |].
  intros x3. apply never_raises_ret.
Qed.

Lemma insert_last_array (st : list pyobj) (a a' : list mpixel) :
  <[length st := MaskedArray a']> (st ++ [MaskedArray a]) = st ++ [MaskedArray a'].
Proof.
  rewrite insert_app_r_alt by lia. rewrite Nat.sub_diag. reflexivity.
Qed.

(** The world in which [slope_variance] runs its formulas: the copy of
    the valid-group counts is the last array of the store, with the
    rejected groups removed. *)
Lemma slope_variance_prefix {B} (u : loc) (a : list mpixel) w
    (k : loc → unit → M ExposureSpecification B) :
  store w !! u = Some (MaskedArray a) →
  (n ← ma_copy u; x ← reject_groups n; k n x) w =
  k (length (store w)) ()
    {| this := this w;
       store := store w ++ [MaskedArray (reject_pixel (this w) <$> a)] |}.
Proof.
  intros Hu.
  rewrite (run_bind_ok _ _ _ _ _ (ma_copy_run _ _ _ Hu)).
  erewrite run_bind_ok.
  2:{ apply reject_groups_run. cbn [store].
      rewrite lookup_app_r by lia. rewrite Nat.sub_diag. reflexivity. }
  cbn [this store]. rewrite insert_last_array. reflexivity.
Qed.

(** (C4) When [rn_fudge] is not 1 and an excess parameter is not 0,
    [slope_variance] and [rn_variance] raise the [ValueError] of the two
    corrections and return nothing; when [rn_fudge] is 1 or both excess
    parameters are 0 neither raises it. *)
Theorem fudge_exclusion rate dark_current readnoise (u : loc) (a : list mpixel)
    (unsat_ngroups : option loc) rn_fudge excessp1 excessp2
    (w : world ExposureSpecification) :
  store w !! u = Some (MaskedArray a) →
  (both_fudges_given rn_fudge excessp1 excessp2 →
   (slope_variance rate dark_current readnoise u rn_fudge excessp1 excessp2 w).1
     = Raise (ValueError both_fudges_msg) ∧
   (rn_variance readnoise unsat_ngroups rn_fudge excessp1 excessp2 w).1
     = Raise (ValueError both_fudges_msg)) ∧
  (rn_fudge == 1 ∨ (excessp1 == 0 ∧ excessp2 == 0) →
   (slope_variance rate dark_current readnoise u rn_fudge excessp1 excessp2 w).1
     ≠ Raise (ValueError both_fudges_msg) ∧
   (rn_variance readnoise unsat_ngroups rn_fudge excessp1 excessp2 w).1
     ≠ Raise (ValueError both_fudges_msg)).
Proof.
  intros Hu. split.
  - intros Hboth. apply both_fudges_true in Hboth. split.
    + unfold slope_variance. rewrite run_get_self.
      rewrite (slope_variance_prefix _ _ _ _ Hu).
      destruct (reads_and_frame_time (this w)) as [m tframe].
      erewrite run_bind_raise by (apply rn_variance_both_fudges; exact Hboth).
      reflexivity.
    + rewrite rn_variance_both_fudges by exact Hboth. reflexivity.
  - intros Hone. apply both_fudges_false in Hone. split.
    + apply slope_variance_one_fudge; exact Hone.
    + apply rn_variance_one_fudge; exact Hone.
Qed.

Lemma bright_mir_constructed :
  new_ExposureSpecification bright_mir_args = Ok bright_mir.
Proof. vm_compute. reflexivity. Qed.

Lemma bright_world_saturation_map :
  get_unsaturated_groups 0%nat 10 full_saturation_default bright_world =
  (Ok 2%nat, bright_world_saturation).
Proof. vm_compute. reflexivity. Qed.

Lemma fudge_exclusion_witness :
  (slope_variance bright_rate 0 1 2%nat 2 1 0 bright_world_saturation).1
    = Raise (ValueError both_fudges_msg) ∧
  (rn_variance 1 None 2 1 0 bright_world_saturation).1
    = Raise (ValueError both_fudges_msg).
Proof.
  apply (fudge_exclusion bright_rate 0 1 2%nat _ None 2 1 0
           bright_world_saturation eq_refl).
  split; [intros H; discriminate H | left; intros H; discriminate H].
Defined.

(** ** Target acquisition *)

Lemma acquisition_constructed :
  new_ExposureSpecificationTA acquisition_args = Ok acquisition.
Proof. vm_compute. reflexivity. Qed.

Lemma np_broadcast_same {A B C} (f : A → B → C) (a : list A) (b : list B) :
  length a = length b → np_broadcast f a b = Ok (zip_with f a b).
Proof.
  intros H. unfold np_broadcast.
  rewrite (proj2 (Nat.eqb_eq _ _) H). reflexivity.
Qed.

(** (C5) [ExposureSpecificationTA.slope_variance] raises an
    [EngineInputError] when [ngroup_extract > ngroup] and when
    [ngroup_extract - 1] is neither 1 nor 2; otherwise it returns, with
    the factor 1.0 for one pair and 2/3 for two pairs in its read-noise
    variance. *)
Theorem ta_extracted_groups rate dark_current readnoise (u : loc)
    (a : list mpixel) (vpp : list npfloat) rn_fudge excessp1 excessp2
    (w : world ExposureSpecificationTA) :
  store w !! u = Some (MaskedArray a) →
  store w !! fp_pix_variance rate = Some (NdArray vpp) →
  length vpp = length a →
  (reads_and_frame_time (ta_base (this w))).1 ≠ 0%Z →
  let self := this w in
  let npairs := (ngroup_extract self - 1)%Z in
  let r := (ta_slope_variance rate dark_current readnoise u
              rn_fudge excessp1 excessp2 w).1 in
  ((ngroup_extract self > ngroup (ta_base self))%Z →
   r = Raise (EngineInputError too_many_extracted_msg)) ∧
  (npairs ≠ 1%Z → npairs ≠ 2%Z → ∃ msg, r = Raise (EngineInputError msg)) ∧
  ((ngroup_extract self <= ngroup (ta_base self))%Z →
   ∀ min_factor,
     (npairs = 1%Z ∧ min_factor = 1.0) ∨ (npairs = 2%Z ∧ min_factor = 2 / 3) →
     min_factor_of npairs = Ok min_factor ∧
     ∃ slope_var slope_rn_var,
       r = Ok (slope_var, slope_rn_var) ∧
       length slope_var = length a ∧
       slope_rn_var = ta_read_noise self min_factor readnoise <$> a).
Proof.
  intros Hu Hv Hlen Hm. cbv zeta.
  unfold ta_slope_variance. rewrite run_get_self.
  set (self := this w) in *. set (npairs := (ngroup_extract self - 1)%Z).
  destruct (reads_and_frame_time (ta_base self)) as [m tframe] eqn:Em.
  cbn [fst] in Hm.
  split; [| split].
  - intros Hgt. apply Z.gt_lt, Z.gtb_lt in Hgt. rewrite Hgt. reflexivity.
  - intros H1 H2.
    destruct (ngroup_extract self >? ngroup (ta_base self))%Z; [eexists; reflexivity |].
    rewrite (run_bind_ok _ _ _ _ _ (load_masked_run _ _ _ Hu)).
    unfold min_factor_of.
    apply Z.eqb_neq in H1, H2. rewrite H1, H2.
    eexists; reflexivity.
  - intros Hle mf Hmf.
    assert (Hgt : (ngroup_extract self >? ngroup (ta_base self))%Z = false)
      by (rewrite Z.gtb_ltb; apply Z.ltb_ge; exact Hle).
    rewrite Hgt.
    assert (Hf : min_factor_of npairs = Ok mf)
      by (destruct Hmf as [[-> ->] | [-> ->]]; reflexivity).
    split; [exact Hf |].
    rewrite (run_bind_ok _ _ _ _ _ (load_masked_run _ _ _ Hu)).
    rewrite Hf, run_lift_ok.
    rewrite !py_div_ok by (apply inject_Z_neq0; exact Hm).
    rewrite run_lift_ok.
    rewrite (run_bind_ok _ _ _ _ _ (load_ndarray_run _ _ _ Hv)).
    rewrite np_broadcast_same by (rewrite !length_fmap; exact Hlen).
    rewrite !run_lift_ok.
    rewrite np_broadcast_same by (rewrite length_zip_with, !length_fmap; lia).
    rewrite run_lift_ok.
    rewrite np_broadcast_same
      by (rewrite !length_zip_with, !length_fmap; lia).
    rewrite run_lift_ok.
    eexists _, _. split; [reflexivity |]. split.
    + rewrite length_fmap, !length_zip_with, !length_fmap. lia.
    + rewrite <- !list_fmap_compose. unfold ta_read_noise. rewrite Em. reflexivity.
Qed.

Lemma ta_extracted_groups_witness :
  min_factor_of (ngroup_extract acquisition - 1) = Ok (2 / 3) ∧
  ∃ slope_var slope_rn_var,
    (ta_slope_variance bright_rate 0 1 0%nat 1 0 0 acquisition_world).1
      = Ok (slope_var, slope_rn_var) ∧
    length slope_var = 2%nat ∧
    slope_rn_var =
      ta_read_noise acquisition (2 / 3) 1
        <$> [{| data := Fin 11; mask := false |};
             {| data := Fin 11; mask := false |}].
Proof.
  refine (proj2 (proj2 (ta_extracted_groups bright_rate 0 1 0%nat _ _ 1 0 0
                          acquisition_world eq_refl eq_refl eq_refl _)) _ _ _).
  - discriminate.
  - cbn. lia.
  - right. split; reflexivity.
Defined.

(** ** What the methods leave unchanged *)

Lemma read_only_ret {S A} (a : A) : read_only (S := S) (mret a).
Proof. intros w. reflexivity. Qed.

Lemma read_only_bind {S A B} (m : M S A) (f : A → M S B) :
  read_only m → (∀ a, read_only (f a)) → read_only (m ≫= f).
Proof.
  intros Hm Hf w. rewrite run_bind. specialize (Hm w).
  destruct (m w) as [[a | e] w']; cbn in Hm; subst w'; [apply Hf | reflexivity].
Qed.

Lemma read_only_get_self {S} : read_only (S := S) get_self.
Proof. intros w. reflexivity. Qed.

Lemma read_only_raise {S A} e : read_only (S := S) (A := A) (raise e).
Proof. intros w. reflexivity. Qed.

Lemma read_only_lift {S A} (r : result A) : read_only (S := S) (lift r).
Proof. intros w. reflexivity. Qed.

Lemma read_only_load {S} (l : loc) : read_only (S := S) (load l).
Proof. intros w. unfold load. destruct (store w !! l); reflexivity. Qed.

Lemma read_only_load_masked {S} (l : loc) : read_only (S := S) (load_masked l).
Proof.
  apply read_only_bind; [apply read_only_load |].
  intros [a | a]; [apply read_only_raise | apply read_only_ret].
Qed.

Lemma read_only_load_ndarray {S} (l : loc) : read_only (S := S) (load_ndarray l).
Proof.
  apply read_only_bind; [apply read_only_load |].
  intros [a | a]; [apply read_only_ret | apply read_only_raise].
Qed.

Create HintDb read_only discriminated.
#[export] Hint Resolve read_only_ret read_only_get_self read_only_raise
  read_only_lift read_only_load_masked read_only_load_ndarray : read_only.

Ltac read_only_steps :=
  repeat first
    [ apply read_only_bind; [solve [auto with read_only] | intros ?]
    | solve [auto with read_only] ].

Lemma read_only_rn_variance readnoise unsat_ngroups rn_fudge excessp1 excessp2 :
  read_only (rn_variance readnoise unsat_ngroups rn_fudge excessp1 excessp2).
Proof.
  unfold rn_variance. apply read_only_bind; [apply read_only_get_self |].
  intros self. destruct (both_fudges _ _ _); [apply read_only_raise |].
  destruct unsat_ngroups as [l |].
  - read_only_steps.
  - apply read_only_bind; [apply read_only_lift |]. intros v.
    destruct (_ || _); read_only_steps.
Qed.

#[export] Hint Resolve read_only_rn_variance : read_only.

Lemma extends_refl {S} (w : world S) : extends w w.
Proof. split; [reflexivity | auto]. Qed.

Lemma extends_trans {S} (w1 w2 w3 : world S) :
  extends w1 w2 → extends w2 w3 → extends w1 w3.
Proof.
  intros [H1 H2] [H3 H4]. split; [congruence | auto].
Qed.

Lemma extends_alloc {S} (w : world S) (o : pyobj) :
  extends w {| this := this w; store := store w ++ [o] |}.
Proof.
  split; [reflexivity |]. intros l o' H. cbn.
  apply lookup_app_l_Some. exact H.
Qed.

Lemma read_only_frame {S A} (m : M S A) : read_only m → frame m.
Proof. intros H w. rewrite H. apply extends_refl. Qed.

Lemma frame_bind {S A B} (m : M S A) (f : A → M S B) :
  frame m → (∀ a, frame (f a)) → frame (m ≫= f).
Proof.
  intros Hm Hf w. rewrite run_bind. specialize (Hm w).
  destruct (m w) as [[a | e] w']; cbn in Hm; [| exact Hm].
  eapply extends_trans; [exact Hm | apply Hf].
Qed.

Lemma frame_alloc {S} (o : pyobj) : frame (S := S) (alloc o).
Proof. intros w. apply extends_alloc. Qed.

Lemma frame_get_unsaturated_groups slope fullwell full_saturation :
  frame (get_unsaturated_groups slope fullwell full_saturation).
Proof.
  unfold get_unsaturated_groups.
  apply frame_bind; [apply read_only_frame, read_only_get_self |]. intros self.
  apply frame_bind; [apply read_only_frame, read_only_load_ndarray |]. intros s.
  apply frame_bind; [apply read_only_frame, read_only_lift |]. intros top.
  apply frame_alloc.
Qed.

(** The world [slope_variance] ends in: the object and the arrays it
    started with, and its copy of the valid-group counts, with the
    rejected groups removed, as a new last array. *)
Lemma slope_variance_world rate dark_current readnoise (u : loc)
    (a : list mpixel) rn_fudge excessp1 excessp2 w :
  store w !! u = Some (MaskedArray a) →
  (slope_variance rate dark_current readnoise u rn_fudge excessp1 excessp2 w).2 =
  {| this := this w;
     store := store w ++ [MaskedArray (reject_pixel (this w) <$> a)] |}.
Proof.
  intros Hu. unfold slope_variance.
  rewrite run_get_self, (slope_variance_prefix _ _ _ _ Hu).
  match goal with
  | |- (?m ?w').2 = ?w' => cut (read_only m); [intros H; apply H |]
  end.
  destruct (reads_and_frame_time (this w)) as [m tframe].
  read_only_steps.
Qed.

Lemma slope_variance_ill_typed rate dark_current readnoise (u : loc)
    rn_fudge excessp1 excessp2 w :
  (∀ a, store w !! u ≠ Some (MaskedArray a)) →
  slope_variance rate dark_current readnoise u rn_fudge excessp1 excessp2 w =
  (Raise IllTyped, w).
Proof.
  intros Hu. unfold slope_variance, ma_copy, load_masked, load.
  rewrite run_get_self, !run_bind.
  destruct (store w !! u) as [[b | b] |]; try reflexivity.
  exfalso. apply (Hu b). reflexivity.
Qed.

Lemma frame_slope_variance rate dark_current readnoise u rn_fudge excessp1 excessp2 :
  frame (slope_variance rate dark_current readnoise u rn_fudge excessp1 excessp2).
Proof.
  intros w. destruct (store w !! u) as [[b | a] |] eqn:Hu.
  - rewrite slope_variance_ill_typed by (rewrite Hu; discriminate).
    apply extends_refl.
  - rewrite (slope_variance_world _ _ _ _ _ _ _ _ _ Hu). apply extends_alloc.
  - rewrite slope_variance_ill_typed by (rewrite Hu; discriminate).
    apply extends_refl.
Qed.

(** (C10) [get_unsaturated_groups], [rn_variance] and [slope_variance]
    leave the object they are called on and every array of the caller as
    they are; the store a call ends in only has new arrays after the old
    ones, among them the copy [slope_variance] makes of the valid-group
    counts. *)
Theorem inputs_and_object_unchanged (w : world ExposureSpecification) :
  (∀ slope fullwell full_saturation,
     extends w (get_unsaturated_groups slope fullwell full_saturation w).2) ∧
  (∀ readnoise unsat_ngroups rn_fudge excessp1 excessp2,
     (rn_variance readnoise unsat_ngroups rn_fudge excessp1 excessp2 w).2 = w) ∧
  (∀ rate dark_current readnoise unsat_ngroups rn_fudge excessp1 excessp2,
     extends w
       (slope_variance rate dark_current readnoise unsat_ngroups
          rn_fudge excessp1 excessp2 w).2).
Proof.
  split; [| split].
  - intros. apply frame_get_unsaturated_groups.
  - intros. apply read_only_rn_variance.
  - intros. apply frame_slope_variance.
Qed.

(** The copy matters: the block that removes the rejected groups, run on
    the saturation map itself, would change the caller's array. *)
Remark reject_groups_writes_in_place :
  store (reject_groups 2%nat bright_world_saturation).2 !! 2%nat
  = Some (MaskedArray [{| data := Fin (2 + - 1%Z); mask := false |};
                       {| data := Fin (5 + - 0%Z + - 1%Z); mask := false |}]).
Proof. reflexivity. Qed.

(** ** Rejected groups *)

Lemma flt_integers (g c k : Z) :
  flt (fsub (Fin g) (Fin c)) (Fin k) = (g - c <? k)%Z.
Proof.
  cbn. destruct (Qle_bool k (g + - c)) eqn:E.
  - apply Qle_bool_iff in E.
    rewrite <- inject_Z_opp, <- inject_Z_plus, <- Zle_Qle in E.
    symmetry. apply Z.ltb_ge. lia.
  - symmetry. apply Z.ltb_lt.
    destruct (Z.lt_ge_cases (g - c) k) as [? | H]; [assumption |].
    exfalso. apply not_true_iff_false in E. apply E, Qle_bool_iff.
    rewrite <- inject_Z_opp, <- inject_Z_plus, <- Zle_Qle. lia.
Qed.

(** The read-noise variance [slope_variance] returns is the one
    [rn_variance] computes from the copy of the counts. *)
Lemma slope_variance_read_noise rate dark_current readnoise (u : loc)
    (a : list mpixel) rn_fudge excessp1 excessp2 w :
  store w !! u = Some (MaskedArray a) →
  let w' := {| this := this w;
               store := store w ++ [MaskedArray (reject_pixel (this w) <$> a)] |} in
  ∀ slope_var slope_rn_var,
    (slope_variance rate dark_current readnoise u
       rn_fudge excessp1 excessp2 w).1 = Ok (slope_var, slope_rn_var) →
    ∃ r, rn_variance readnoise (Some (length (store w)))
           rn_fudge excessp1 excessp2 w' = (Ok r, w') ∧
         slope_rn_var = ma_filled <$> rn_pixels r.
Proof.
  intros Hu w' sv rv. unfold slope_variance.
  rewrite run_get_self, (slope_variance_prefix _ _ _ _ Hu). fold w'.
  destruct (reads_and_frame_time (this w)) as [m tframe].
  pose proof (read_only_rn_variance readnoise (Some (length (store w)))
                rn_fudge excessp1 excessp2 w') as Hro.
  rewrite run_bind.
  destruct (rn_variance readnoise (Some (length (store w)))
              rn_fudge excessp1 excessp2 w') as [[r | e] w1] eqn:Hrn;
    cbn in Hro; subst w1; [| discriminate].
  intros Hrun. exists r. split; [reflexivity |].
  match type of Hrun with
  | (?t).1 = _ => destruct t as [res wf] eqn:Htail
  end.
  cbn in Hrun. subst res.
  repeat (apply run_bind_inv in Htail as (? & ? & _ & Htail)).
  unfold mret, M_ret in Htail. injection Htail as _ <- _. reflexivity.
Qed.

(** [slope_variance] works on a copy of the valid-group counts, the new
    last array of the store.  When the ramp
    has five groups or more and a rejection count is set, every unmasked
    pixel of the copy has [npostrej] subtracted, and [nprerej] too when
    [ngroup - ceil(count) < npostrej]; otherwise the copy holds the counts
    as they were.  Masked pixels are never touched. *)
Lemma rejected_counts_copy rate dark_current readnoise (u : loc)
    (a : list mpixel) rn_fudge excessp1 excessp2
    (w : world ExposureSpecification) :
  store w !! u = Some (MaskedArray a) →
  let self := this w in
  let w' := (slope_variance rate dark_current readnoise u
               rn_fudge excessp1 excessp2 w).2 in
  (∃ n, store w' !! length (store w) = Some (MaskedArray n) ∧
       length n = length a ∧
       ∀ i p, a !! i = Some p →
         ∃ p', n !! i = Some p' ∧ mask p' = mask p ∧
           (mask p = true → p' = p) ∧
           ((ngroup self < 5)%Z ∨ (nprerej self = 0 ∧ npostrej self = 0)%Z →
            p' = p) ∧
           ∀ q, mask p = false → data p = Fin q →
             (5 <= ngroup self)%Z →
             (nprerej self ≠ 0 ∨ npostrej self ≠ 0)%Z →
             ∃ q', data p' = Fin q' ∧
               ((ngroup self - Qceiling q < npostrej self)%Z →
                q' == q - nprerej self - npostrej self) ∧
               ((npostrej self <= ngroup self - Qceiling q)%Z →
                q' == q - npostrej self)) ∧
  ∀ slope_var slope_rn_var,
    (slope_variance rate dark_current readnoise u
       rn_fudge excessp1 excessp2 w).1 = Ok (slope_var, slope_rn_var) →
    ∃ r, rn_variance readnoise (Some (length (store w)))
           rn_fudge excessp1 excessp2 w' = (Ok r, w') ∧
         slope_rn_var = ma_filled <$> rn_pixels r.
Proof.
  intros Hu self w'. subst w'.
  rewrite (slope_variance_world _ _ _ _ _ _ _ _ _ Hu). cbn [store].
  split; [| apply (slope_variance_read_noise _ _ _ _ _ _ _ _ _ Hu)].
  exists (reject_pixel self <$> a).
  split; [rewrite lookup_app_r, Nat.sub_diag by lia; reflexivity |].
  split; [apply length_fmap |].
  intros i p Hp. exists (reject_pixel self p).
  split; [rewrite list_lookup_fmap, Hp; reflexivity |].
  unfold reject_pixel, rejects, isub_pixel.
  split; [| split; [| split]].
  - destruct (_ && _); [| reflexivity].
    destruct (flt _ _); destruct (mask p) eqn:Hm; cbn; rewrite ?Hm; reflexivity.
  - intros Hm. destruct (_ && _); [| reflexivity].
    destruct (flt _ _); rewrite !Hm; reflexivity.
  - intros [Hlt | [H1 H2]].
    + apply Z.ltb_lt in Hlt. rewrite Z.geb_leb, Z.leb_antisym, Hlt.
      rewrite andb_false_r. reflexivity.
    + rewrite H1, H2. reflexivity.
  - intros q Hm Hq H5 Hrej.
    assert (Hc : (negb (nprerej self =? 0)%Z || negb (npostrej self =? 0)%Z)
                 && (ngroup self >=? 5)%Z = true).
    { apply andb_true_intro. split; [| apply Z.geb_le; exact H5].
      apply orb_true_intro.
      destruct Hrej as [H | H]; [left | right];
        apply negb_true_iff, Z.eqb_neq; exact H. }
    rewrite Hc, Hq. cbn [np_ceil]. rewrite flt_integers.
    destruct (ngroup self - Qceiling q <? npostrej self)%Z eqn:E.
    + apply Z.ltb_lt in E. rewrite Hm. cbn.
      eexists. split; [reflexivity |]. split; intros; [ring | lia].
    + apply Z.ltb_ge in E. rewrite Hm. cbn. rewrite ?Hq.
      eexists. split; [reflexivity |]. split; intros; [lia | ring].
Qed.

(** ** Unsaturated groups *)

Lemma get_unsaturated_groups_run (s : loc) (sl : list npfloat) (top : npfloat)
    fullwell full_saturation w :
  store w !! s = Some (NdArray sl) →
  np_max sl = Ok top →
  get_unsaturated_groups s fullwell full_saturation w =
  (Ok (length (store w)),
   {| this := this w;
      store := store w ++
        [MaskedArray ((λ x, masked_less (Fin full_saturation)
                              (valid_groups (this w) fullwell top x)) <$> sl)] |}).
Proof.
  intros Hs Htop. unfold get_unsaturated_groups.
  rewrite run_get_self.
  rewrite (run_bind_ok _ _ _ _ _ (load_ndarray_run _ _ _ Hs)).
  rewrite Htop, run_lift_ok.
  rewrite <- !list_fmap_compose. reflexivity.
Qed.

Lemma get_unsaturated_groups_empty (s : loc) fullwell full_saturation w :
  store w !! s = Some (NdArray []) →
  ∃ msg, get_unsaturated_groups s fullwell full_saturation w
         = (Raise (ValueError msg), w).
Proof.
  intros Hs. unfold get_unsaturated_groups.
  rewrite run_get_self.
  rewrite (run_bind_ok _ _ _ _ _ (load_ndarray_run _ _ _ Hs)).
  eexists. reflexivity.
Qed.

Lemma Qle_bool_false (a b : Q) : Qle_bool a b = false ↔ b < a.
Proof.
  split.
  - intros H. apply Qnot_le_lt. intros Hle.
    apply Qle_bool_iff in Hle. congruence.
  - intros H. apply not_true_is_false. rewrite Qle_bool_iff.
    apply Qlt_not_le. exact H.
Qed.

Lemma Qeq_bool_false (a b : Q) : Qeq_bool a b = false ↔ ¬ a == b.
Proof.
  rewrite <- Qeq_bool_iff. split.
  - intros H. congruence.
  - apply not_true_is_false.
Qed.

(** The largest element of a non-empty array of finite values. *)
Lemma foldr_fmax_fin (l : list Q) (x : Q) :
  ∃ M, foldr fmax (Fin x) (Fin <$> l) = Fin M ∧ x <= M ∧
       (∀ q, q ∈ l → q <= M) ∧ (M = x ∨ M ∈ l).
Proof.
  induction l as [| y l IH].
  - exists x. repeat split; [apply Qle_refl | | left; reflexivity].
    intros q Hq. inversion Hq.
  - destruct IH as (M & HM & Hx & Hall & Hin).
    cbn [fmap list_fmap foldr]. rewrite HM. cbn [fmax flt].
    destruct (Qle_bool M y) eqn:E; cbn [negb].
    + apply Qle_bool_iff in E. exists y.
      split; [reflexivity |]. split; [eapply Qle_trans; eassumption |].
      split; [| right; left].
      intros q Hq. apply elem_of_cons in Hq as [-> | Hq]; [apply Qle_refl |].
      eapply Qle_trans; [apply Hall, Hq | exact E].
    + apply Qle_bool_false in E. exists M.
      split; [reflexivity |]. split; [exact Hx |].
      split; [| destruct Hin; [left | right; right]; assumption].
      intros q Hq. apply elem_of_cons in Hq as [-> | Hq];
        [apply Qlt_le_weak, E | apply Hall, Hq].
Qed.

Lemma np_max_fin (l : list Q) :
  l ≠ [] →
  ∃ M, np_max (Fin <$> l) = Ok (Fin M) ∧ (∀ q, q ∈ l → q <= M) ∧ M ∈ l.
Proof.
  destruct l as [| x l]; [congruence |]. intros _.
  destruct (foldr_fmax_fin l x) as (M & HM & Hx & Hall & Hin).
  exists M. cbn. rewrite HM. split; [reflexivity |]. split.
  - intros q Hq. apply elem_of_cons in Hq as [-> | Hq]; [exact Hx | apply Hall, Hq].
  - destruct Hin as [-> | Hin]; [left | right; exact Hin].
Qed.

Lemma Qle_inject (a b : Z) : inject_Z a <= inject_Z b ↔ (a <= b)%Z.
Proof. rewrite <- Zle_Qle. reflexivity. Qed.

Lemma Qlt_inject (a b : Z) : inject_Z a < inject_Z b ↔ (a < b)%Z.
Proof. rewrite <- Zlt_Qlt. reflexivity. Qed.


Lemma np_clip_integers (g z : Z) :
  (0 <= g)%Z →
  np_clip (Fin 0) (Fin g) (Fin z) = Fin (Z.max 0 (Z.min g z)).
Proof.
  intros Hg. unfold np_clip. cbn [fmax flt].
  destruct (Qle_bool 0 z) eqn:E1; cbn [negb fmin flt].
  - apply Qle_bool_iff in E1. apply (Qle_inject 0 z) in E1.
    destruct (Qle_bool g z) eqn:E2; cbn [negb].
    + apply Qle_bool_iff in E2. apply (Qle_inject g z) in E2.
      do 2 f_equal. lia.
    + apply Qle_bool_false in E2. apply (Qlt_inject z g) in E2.
      do 2 f_equal. lia.
  - apply Qle_bool_false in E1. apply (Qlt_inject z 0) in E1.
    destruct (Qle_bool g 0) eqn:E2; cbn [negb].
    + apply Qle_bool_iff in E2. apply (Qle_inject g 0) in E2.
      do 2 f_equal. lia.
    + change (Fin 0) with (Fin (inject_Z 0)). do 2 f_equal. lia.
Qed.



Lemma saturation_map_fin (w : world ExposureSpecification) (s : loc)
    (slope : list Q) fullwell full_saturation :
  store w !! s = Some (NdArray (Fin <$> slope)) →
  slope ≠ [] →
  ∃ top, (∀ q, q ∈ slope → q <= top) ∧ top ∈ slope ∧
    saturation_map w s fullwell full_saturation
      ((λ q, masked_less (Fin full_saturation)
               (valid_groups (this w) fullwell (Fin top) (Fin q))) <$> slope).
Proof.
  intros Hs Hne.
  destruct (np_max_fin slope Hne) as (top & Htop & Hall & Hin).
  exists top. split; [exact Hall |]. split; [exact Hin |].
  eexists _, _. split.
  - apply (get_unsaturated_groups_run _ _ _ _ _ _ Hs Htop).
  - cbn [store]. rewrite lookup_app_r, Nat.sub_diag by lia. cbn.
    rewrite <- list_fmap_compose. reflexivity.
Qed.







(** With an array whose slopes are all below the floor, the upper bound
    of the clip is below its lower bound and the slopes are not raised to
    the floor: a pixel of slope -1 gets no valid group, where a pixel of
    slope 1 gets five. *)
Remark negative_slopes_get_no_group :
  saturation_map
    {| this := bright_mir; store := [NdArray [Fin (-1)]] |} 0%nat 10
    full_saturation_default [{| data := Fin 0; mask := true |}] ∧
  saturation_map
    {| this := bright_mir; store := [NdArray [Fin 1]] |} 0%nat 10
    full_saturation_default [{| data := Fin 5; mask := false |}].
Proof.
  split; eexists _, _; (split; [vm_compute; reflexivity | reflexivity]).
Qed.

Lemma Qdiv_le_antitone (a c1 c2 : Q) :
  0 <= a → 0 < c1 → c1 <= c2 → a / c2 <= a / c1.
Proof.
  intros Ha H1 H12.
  assert (H2 : 0 < c2) by lra.
  apply Qle_shift_div_r; [exact H2 |].
  assert (Hq : 0 <= a / c1) by (apply Qle_shift_div_l; lra).
  assert (E : a == a / c1 * c1) by (field; lra).
  rewrite E at 1. apply Qmult_le_compat_nonneg; split; lra.
Qed.







Lemma slow_nir_constructed :
  new_ExposureSpecification slow_nir_args = Ok slow_nir.
Proof. vm_compute. reflexivity. Qed.


(** ** Where the variances are defined *)

Lemma ma_div_fin (a b : Q) :
  ma_div (Some (Fin a)) (Some (Fin b)) =
  if Qeq_bool b 0 then None else Some (Fin (a / b)).
Proof.
  unfold ma_div. cbn [fdiv is_zero].
  destruct (Qeq_bool b 0); [| reflexivity].
  unfold inf_of_sign. destruct (a ?= 0); reflexivity.
Qed.

Lemma ma_div_fin_ok (a b : Q) :
  ¬ b == 0 → ma_div (Some (Fin a)) (Some (Fin b)) = Some (Fin (a / b)).
Proof.
  intros H. rewrite ma_div_fin, (proj2 (Qeq_bool_false b 0) H). reflexivity.
Qed.

Lemma ma_div_fin_zero (a b : Q) :
  b == 0 → ma_div (Some (Fin a)) (Some (Fin b)) = None.
Proof.
  intros H. rewrite ma_div_fin, (proj2 (Qeq_bool_iff b 0) H). reflexivity.
Qed.

Lemma fdiv_fin (a b : Q) : ¬ b == 0 → fdiv (Fin a) (Fin b) = Fin (a / b).
Proof.
  intros H. cbn. rewrite (proj2 (Qeq_bool_false b 0) H). reflexivity.
Qed.

Lemma np_sqrt_reads (m : Z) :
  (1 <= m)%Z → ∃ s, np_sqrt m = Fin s ∧ ¬ s == 0.
Proof.
  intros Hm. unfold np_sqrt.
  rewrite (proj2 (Qle_bool_iff 0 m)) by (apply inject_Z_nonneg; lia).
  eexists. split; [reflexivity |].
  cbn [inject_Z Qnum Qden]. unfold Qeq. cbn [Qnum Qden].
  assert (0 < Z.sqrt (m * 1 * 4 ^ 52))%Z by (apply Z.sqrt_pos; lia).
  lia.
Qed.

Lemma no_slope_iff (q : Q) : q * (q * q + - (1)) == 0 ↔ no_slope q.
Proof.
  unfold no_slope. split.
  - intros H. apply Qmult_integral in H as [H | H]; [right; left; exact H |].
    assert (E : q * q + - (1) == (q - 1) * (q + 1)) by ring.
    rewrite E in H. apply Qmult_integral in H as [H | H]; [right; right | left]; lra.
  - intros [H | [H | H]]; rewrite H; reflexivity.
Qed.

Lemma Qmult_neq0 (a b : Q) : ¬ a == 0 → ¬ b == 0 → ¬ a * b == 0.
Proof. intros Ha Hb H. apply Qmult_integral in H. tauto. Qed.

Lemma Qsquare_neq0 (a : Q) : ¬ a == 0 → ¬ a ^ 2 == 0.
Proof. intros Ha. change (a ^ 2) with (a * a). apply Qmult_neq0; exact Ha. Qed.

Lemma slope_counts_neq0 (q : Q) :
  ¬ no_slope q →
  ¬ q == 0 ∧ ¬ q * q + - (1) == 0 ∧ ¬ q + 1 == 0 ∧ ¬ 1 + - q == 0.
Proof.
  unfold no_slope. intros H. repeat split; intros E; apply H.
  - right; left; exact E.
  - assert (E' : q * (q * q + - (1)) == 0) by (rewrite E; ring).
    apply no_slope_iff in E'. exact E'.
  - left. lra.
  - right; right. lra.
Qed.

Ltac ma_eval :=
  unfold ma_scalar;
  cbn [ma_view ma_scalar ma_mul ma_add ma_sub ma_lift2 ma_square fsquare
       fmul fadd fsub fneg isfinite mask data].

Ltac nonzero := repeat apply Qmult_neq0; try assumption.

Lemma rn_variance_pixels readnoise (l : loc) (a : list mpixel)
    rn_fudge excessp1 excessp2 (w : world ExposureSpecification) :
  store w !! l = Some (MaskedArray a) →
  well_formed (this w) →
  both_fudges rn_fudge excessp1 excessp2 = false →
  ∃ rv, rn_variance readnoise (Some l) rn_fudge excessp1 excessp2 w
        = (Ok (RnArray rv), w) ∧
        length rv = length a ∧
        ∀ i p, a !! i = Some p →
          ∃ y, rv !! i = Some y ∧
               (mask p = true → y = None) ∧
               ∀ q, mask p = false → data p = Fin q →
                 (no_slope q → y = None) ∧
                 (¬ no_slope q → ∃ v, y = Some (Fin v)).
Proof.
  intros Hl (Hg & Hsat & Htg & Hnf & Hnt) Hone.
  unfold rn_variance. rewrite run_get_self, Hone.
  rewrite (run_bind_ok _ _ _ _ _ (load_masked_run _ _ _ Hl)).
  eexists. split; [reflexivity |]. split; [apply length_fmap |].
  intros i p Hp. rewrite list_lookup_fmap, Hp. cbn [fmap option_fmap option_map].
  eexists. split; [reflexivity |].
  assert (Hm : (1 <= match nsample_total (this w) with
                     | Some nsample_total => nsample_total
                     | None => nframe (this w)
                     end)%Z)
    by (destruct (nsample_total (this w)); auto).
  set (m := match nsample_total (this w) with
            | Some nsample_total => nsample_total
            | None => nframe (this w)
            end) in *.
  destruct (np_sqrt_reads m Hm) as (s & -> & Hs).
  assert (Hm0 : ¬ inject_Z m == 0) by (apply inject_Z_neq0; lia).
  assert (Ht0 : ¬ tgroup (this w) == 0) by (apply Qpos_neq0, Htg).
  assert (Ht2 : ¬ tgroup (this w) ^ 2 == 0) by (apply Qsquare_neq0, Ht0).
  destruct p as [d [|]]; split.
  - intros _.
    destruct (negb (Qeq_bool excessp1 0) || negb (Qeq_bool excessp2 0)),
      (negb (Qeq_bool rn_fudge 1)); reflexivity.
  - discriminate.
  - discriminate.
  - intros q _ Hd. cbn [data] in Hd. subst d. ma_eval. split.
    + intros Hq. apply no_slope_iff in Hq.
      rewrite (ma_div_fin_zero (12 * readnoise ^ 2)).
      * destruct (negb (Qeq_bool excessp1 0) || negb (Qeq_bool excessp2 0)),
          (negb (Qeq_bool rn_fudge 1)); reflexivity.
      * rewrite <- (Qmult_assoc m), Hq. ring.
    + intros Hq. apply slope_counts_neq0 in Hq as (Hq0 & Hq1 & Hq2 & Hq3).
      rewrite !ma_div_fin_ok by nonzero. ma_eval.
      rewrite fdiv_fin by exact Hs. ma_eval.
      rewrite !ma_div_fin_ok by nonzero.
      destruct (negb (Qeq_bool excessp1 0) || negb (Qeq_bool excessp2 0)),
        (negb (Qeq_bool rn_fudge 1)); ma_eval; eexists; reflexivity.
Qed.


Lemma Qsquare_plus1_neq0 (q : Q) : ¬ q * q + 1 == 0.
Proof.
  intros H. assert (0 <= q * q) by nra. lra.
Qed.

Lemma ma_add_None_r (x : mval) : ma_add x None = None.
Proof. destruct x; reflexivity. Qed.

Lemma slope_variance_pixels rate dark_current readnoise (u : loc)
    (a : list mpixel) (vpp : list Q) rn_fudge excessp1 excessp2
    (w : world ExposureSpecification) :
  store w !! u = Some (MaskedArray a) →
  store w !! fp_pix_variance rate = Some (NdArray (Fin <$> vpp)) →
  length vpp = length a →
  well_formed (this w) →
  rn_fudge == 1 ∨ (excessp1 == 0 ∧ excessp2 == 0) →
  ∃ slope_var slope_rn_var w',
    slope_variance rate dark_current readnoise u rn_fudge excessp1 excessp2 w
    = (Ok (slope_var, slope_rn_var), w') ∧
    ∀ i p, a !! i = Some p →
      isfinite (data (reject_pixel (this w) p)) = true →
      ∃ x y, slope_var !! i = Some x ∧ slope_rn_var !! i = Some y ∧
             pixel_verdict (reject_pixel (this w) p) x y.
Proof.
  intros Hu Hv Hlen Hwf Hone.
  pose proof Hwf as (Hg & Hsat & Htg & Hnf & Hnt).
  apply both_fudges_false in Hone.
  unfold slope_variance. rewrite run_get_self, (slope_variance_prefix _ _ _ _ Hu).
  set (self := this w) in *.
  set (a' := reject_pixel self <$> a).
  set (w2 := {| this := self; store := store w ++ [MaskedArray a'] |}).
  assert (Hn : store w2 !! length (store w) = Some (MaskedArray a'))
    by (cbn; rewrite lookup_app_r, Nat.sub_diag by lia; reflexivity).
  assert (Hv2 : store w2 !! fp_pix_variance rate = Some (NdArray (Fin <$> vpp)))
    by (cbn; apply lookup_app_l_Some, Hv).
  assert (Hm : ∃ m tf, reads_and_frame_time self = (m, tf) ∧ (1 <= m)%Z).
  { unfold reads_and_frame_time.
    destruct (nsample_total self) as [nt |] eqn:E1;
      destruct (tsample self) as [ts |]; eauto. }
  destruct Hm as (m & tf & -> & Hm).
  destruct (rn_variance_pixels readnoise _ a' rn_fudge excessp1 excessp2 w2
              Hn Hwf Hone) as (rv & Hrv & Hlenrv & Hpx).
  rewrite (run_bind_ok _ _ _ _ _ Hrv). cbn [rn_pixels].
  rewrite (run_bind_ok _ _ _ _ _ (load_masked_run _ _ _ Hn)).
  rewrite (run_bind_ok _ _ _ _ _ (load_ndarray_run _ _ _ Hv2)).
  assert (Hlen' : length a' = length a) by apply length_fmap.
  rewrite np_broadcast_same by (rewrite !length_fmap; lia).
  rewrite run_lift_ok.
  rewrite py_div_ok by (apply Qpos_neq0, Htg).
  rewrite run_lift_ok.
  rewrite np_broadcast_same by (rewrite length_zip_with, !length_fmap; lia).
  rewrite run_lift_ok.
  rewrite np_broadcast_same by (rewrite !length_zip_with, !length_fmap; lia).
  rewrite run_lift_ok.
  eexists _, _, _. split; [reflexivity |].
  intros i p Hp Hfin.
  assert (Hp' : a' !! i = Some (reject_pixel self p))
    by (unfold a'; rewrite list_lookup_fmap, Hp; reflexivity).
  destruct (lookup_lt_is_Some_2 vpp i) as [v Hvi];
    [rewrite Hlen; apply (lookup_lt_Some _ _ _ Hp) |].
  destruct (Hpx i _ Hp') as (y & Hy & Hmasked & Hdef).
  rewrite !list_lookup_fmap, !lookup_zip_with, !list_lookup_fmap.
  rewrite Hp', Hvi. cbn [fmap option_fmap option_map mbind option_bind].
  rewrite Hy. cbn [fmap option_fmap option_map mbind option_bind].
  eexists _, _. split; [reflexivity |]. split; [reflexivity |].
  unfold pixel_verdict.
  destruct (reject_pixel self p) as [d mk]. cbn [data mask] in *.
  destruct d as [q | | |]; try discriminate.
  exists q. split; [reflexivity |].
  assert (Hm0 : ¬ inject_Z m == 0) by (apply inject_Z_neq0; lia).
  assert (Ht0 : ¬ tgroup self == 0) by (apply Qpos_neq0, Htg).
  split.
  - intros Hnan.
    assert (Hnone : y = None).
    { destruct mk; [apply Hmasked; reflexivity |].
      destruct Hnan as [? | Hns]; [discriminate |].
      apply (Hdef q eq_refl eq_refl), Hns. }
    rewrite Hnone, ma_add_None_r. split; reflexivity.
  - intros -> Hns.
    destruct (proj2 (Hdef q eq_refl eq_refl) Hns) as (vy & ->).
    apply slope_counts_neq0 in Hns as (Hq0 & Hq1 & Hq2 & Hq3).
    pose proof (Qsquare_plus1_neq0 q) as Hq4.
    ma_eval.
    rewrite !ma_div_fin_ok by nonzero. ma_eval.
    rewrite fdiv_fin by exact Ht0. ma_eval.
    split; reflexivity.
Qed.

Lemma np_clip_is_fin (lo hi x : Q) : ∃ c, np_clip (Fin lo) (Fin hi) (Fin x) = Fin c.
Proof.
  unfold np_clip. cbn [fmax flt].
  destruct (negb (Qle_bool lo x)); cbn [fmin flt];
    match goal with |- context [negb ?b] => destruct (negb b) end; eauto.
Qed.

(** With a positive full well, a positive saturation time and one group
    or more, every pixel of finite slope gets an integer count, also when
    its clipped slope is zero. *)
Lemma valid_groups_integer (self : ExposureSpecification) (fullwell top q : Q) :
  0 < fullwell → 0 < saturation_time self → (1 <= ngroup self)%Z →
  ∃ z : Z, valid_groups self fullwell (Fin top) (Fin q) = Fin z.
Proof.
  intros Hf Hs Hg. unfold valid_groups.
  destruct (np_clip_is_fin slope_floor top q) as (c & ->).
  cbn [fdiv]. destruct (Qeq_bool c 0).
  - unfold inf_of_sign. rewrite (proj1 (Qgt_alt fullwell 0) Hf).
    cbn [fdiv]. rewrite (proj2 (Qle_bool_iff 0 _)) by (apply Qlt_le_weak, Hs).
    cbn [fmul]. unfold inf_of_sign.
    rewrite (proj1 (Qgt_alt (ngroup self) 0))
      by (apply (inject_Z_lt 0); lia).
    exists (ngroup self). reflexivity.
  - cbn [fdiv]. rewrite (proj2 (Qeq_bool_false _ 0)) by (apply Qpos_neq0, Hs).
    cbn [fmul np_floor]. rewrite np_clip_integers by lia.
    eexists. reflexivity.
Qed.

Lemma reject_pixel_mask (self : ExposureSpecification) (p : mpixel) :
  mask (reject_pixel self p) = mask p.
Proof.
  unfold reject_pixel, isub_pixel. destruct (rejects self); [| reflexivity].
  destruct (flt _ _); destruct (mask p) eqn:E; cbn; rewrite ?E; reflexivity.
Qed.

Lemma reject_pixel_finite (self : ExposureSpecification) (p : mpixel) :
  isfinite (data p) = true → isfinite (data (reject_pixel self p)) = true.
Proof.
  unfold reject_pixel, isub_pixel. intros H.
  destruct (data p) as [q | | |] eqn:Ed; try discriminate.
  destruct (rejects self); [| rewrite Ed; reflexivity].
  destruct (flt _ _); destruct (mask p) eqn:E; cbn; rewrite ?E, ?Ed; reflexivity.
Qed.

Lemma reject_pixel_off (self : ExposureSpecification) (p : mpixel) :
  rejects self = false → reject_pixel self p = p.
Proof. intros H. unfold reject_pixel. rewrite H. reflexivity. Qed.

Lemma integer_count_fits (z : Z) : (2 <= z)%Z → ¬ no_slope z.
Proof.
  intros Hz [H | [H | H]]; unfold Qeq in H; cbn in H; lia.
Qed.

(** (C8) On a saturation map produced by [get_unsaturated_groups],
    [slope_variance] returns two arrays that are not-a-number at the
    pixels the map flags and at the unmasked pixels whose count, after
    the rejected groups are removed, is -1, 0 or 1, and finite at every
    other pixel.  When no group is rejected and the threshold is 2 or
    more, that is: not-a-number exactly at the flagged pixels. *)
Theorem variance_defined_where_slope_fits (w : world ExposureSpecification)
    (s : loc) rate (slope vpp : list Q) fullwell full_saturation
    dark_current readnoise rn_fudge excessp1 excessp2 :
  well_formed (this w) →
  store w !! s = Some (NdArray (Fin <$> slope)) →
  store w !! fp_pix_variance rate = Some (NdArray (Fin <$> vpp)) →
  length vpp = length slope → slope ≠ [] → 0 < fullwell →
  rn_fudge == 1 ∨ (excessp1 == 0 ∧ excessp2 == 0) →
  ∃ l w1 r,
    get_unsaturated_groups s fullwell full_saturation w = (Ok l, w1) ∧
    store w1 !! l = Some (MaskedArray r) ∧
    ∃ slope_var slope_rn_var w2,
      slope_variance rate dark_current readnoise l rn_fudge excessp1 excessp2 w1
      = (Ok (slope_var, slope_rn_var), w2) ∧
      ∀ i p, r !! i = Some p →
        ∃ x y, slope_var !! i = Some x ∧ slope_rn_var !! i = Some y ∧
          mask (reject_pixel (this w) p) = mask p ∧
          pixel_verdict (reject_pixel (this w) p) x y ∧
          (rejects (this w) = false → 2 <= full_saturation →
           (mask p = true → x = NaN ∧ y = NaN) ∧
           (mask p = false → isfinite x = true ∧ isfinite y = true)).
Proof.
  intros Hwf Hs Hv Hlen Hne Hf Hone.
  pose proof Hwf as (Hg & Hsat & Htg & Hnf & Hnt).
  destruct (np_max_fin slope Hne) as (top & Htop & _ & _).
  pose proof (get_unsaturated_groups_run s _ _ fullwell full_saturation w Hs Htop)
    as Hrun.
  rewrite <- list_fmap_compose in Hrun.
  set (r := (λ q, masked_less (Fin full_saturation)
                    (valid_groups (this w) fullwell (Fin top) (Fin q))) <$> slope).
  set (w1 := {| this := this w; store := store w ++ [MaskedArray r] |}).
  assert (Hl : store w1 !! length (store w) = Some (MaskedArray r))
    by (cbn; rewrite lookup_app_r, Nat.sub_diag by lia; reflexivity).
  assert (Hv1 : store w1 !! fp_pix_variance rate = Some (NdArray (Fin <$> vpp)))
    by (cbn; apply lookup_app_l_Some, Hv).
  assert (Hlenr : length vpp = length r)
    by (unfold r; rewrite length_fmap; exact Hlen).
  destruct (slope_variance_pixels rate dark_current readnoise _ r vpp
              rn_fudge excessp1 excessp2 w1 Hl Hv1 Hlenr Hwf Hone)
    as (sv & rv & w2 & Hsv & Hpx).
  exists (length (store w)), w1, r.
  split; [exact Hrun |]. split; [exact Hl |].
  exists sv, rv, w2. split; [exact Hsv |].
  intros i p Hp.
  assert (Hz : ∃ z : Z, data p = Fin z ∧ mask p = negb (Qle_bool full_saturation z)).
  { unfold r in Hp. rewrite list_lookup_fmap in Hp.
    destruct (slope !! i) as [q |]; [| discriminate].
    injection Hp as <-. cbn [data mask masked_less].
    destruct (valid_groups_integer (this w) fullwell top q Hf Hsat Hg) as (z & ->).
    exists z. split; reflexivity. }
  destruct Hz as (z & Hd & Hmask).
  destruct (Hpx i p Hp) as (x & y & Hx & Hy & Hverdict).
  { apply reject_pixel_finite. rewrite Hd. reflexivity. }
  exists x, y. split; [exact Hx |]. split; [exact Hy |].
  split; [apply reject_pixel_mask |]. split; [exact Hverdict |].
  intros Hoff Hthr. cbn [this] in Hverdict.
  rewrite reject_pixel_off in Hverdict by exact Hoff.
  destruct Hverdict as (q & Hq & Hnan & Hfinite).
  rewrite Hd in Hq. injection Hq as <-. split.
  - intros Hm. apply Hnan. left. exact Hm.
  - intros Hm. apply Hfinite; [exact Hm |].
    apply integer_count_fits.
    rewrite Hm in Hmask. symmetry in Hmask.
    apply negb_false_iff, Qle_bool_iff in Hmask.
    apply (Qle_inject 2 z). eapply Qle_trans; [exact Hthr | exact Hmask].
Qed.

Lemma bright_mir_well_formed : well_formed bright_mir.
Proof.
  unfold well_formed; cbn. repeat split; try lia.
  intros nt [= <-]. lia.
Qed.

Lemma variance_defined_where_slope_fits_witness :
  ∃ l w1 r,
    get_unsaturated_groups 0%nat 10 full_saturation_default bright_world
    = (Ok l, w1) ∧
    store w1 !! l = Some (MaskedArray r) ∧
    ∃ slope_var slope_rn_var w2,
      slope_variance bright_rate 0 1 l 1 0 0 w1
      = (Ok (slope_var, slope_rn_var), w2) ∧
      ∀ i p, r !! i = Some p →
        ∃ x y, slope_var !! i = Some x ∧ slope_rn_var !! i = Some y ∧
          mask (reject_pixel bright_mir p) = mask p ∧
          pixel_verdict (reject_pixel bright_mir p) x y ∧
          (rejects bright_mir = false → 2 <= full_saturation_default →
           (mask p = true → x = NaN ∧ y = NaN) ∧
           (mask p = false → isfinite x = true ∧ isfinite y = true)).
Proof.
  apply (variance_defined_where_slope_fits bright_world 0%nat bright_rate
           [5; 1] [1; 1] 10 full_saturation_default 0 1 1 0 0
           bright_mir_well_formed eq_refl eq_refl eq_refl).
  - discriminate.
  - reflexivity.
  - left. reflexivity.
Defined.

(** (C8, as stated) With five groups of which the last is rejected, a
    pixel with two valid groups is not flagged by the saturation map, yet
    both variances are not-a-number there: one group is left after the
    rejection. *)
Lemma rejected_pixel_is_nan :
  get_unsaturated_groups 0%nat 10 full_saturation_default bright_world
  = (Ok 2%nat, bright_world_saturation) ∧
  store bright_world_saturation !! 2%nat
  = Some (MaskedArray [{| data := Fin 2; mask := false |};
                       {| data := Fin 5; mask := false |}]) ∧
  ∃ slope_var slope_rn_var w',
    slope_variance bright_rate 0 1 2%nat 1 0 0 bright_world_saturation
    = (Ok (slope_var, slope_rn_var), w') ∧
    slope_var !! 0%nat = Some NaN ∧ slope_rn_var !! 0%nat = Some NaN.
Proof.
  split; [vm_compute; reflexivity |]. split; [reflexivity |].
  eexists _, _, _. split; [vm_compute; reflexivity |].
  split; reflexivity.
Qed.

(** * Further properties *)

(** ** The closed formulas *)

Lemma rn_reads_pos (self : ExposureSpecification) :
  well_formed self → (1 <= rn_reads self)%Z.
Proof.
  intros (_ & _ & _ & Hnf & Hnt). unfold rn_reads.
  destruct (nsample_total self); auto.
Qed.

Lemma sqrt_reads_fin (m : Z) :
  (1 <= m)%Z → np_sqrt m = Fin (sqrt_reads m) ∧ ¬ sqrt_reads m == 0.
Proof.
  intros Hm. destruct (np_sqrt_reads m Hm) as (s & Hs & Hs0).
  unfold sqrt_reads. rewrite Hs. split; [reflexivity | exact Hs0].
Qed.


(** ** The constructor *)

Lemma get_times_nir_not_value_error (c : ExposureArgs) msg :
  get_times_nir c ≠ Raise (ValueError msg).
Proof.
  unfold get_times_nir. run_result.
  match goal with |- context [py_div ?a ?b] =>
    pose proof (py_div_not_value_error a b msg); destruct (py_div a b) end;
    congruence.
Qed.

Lemma get_times_mir_not_value_error (c : ExposureArgs) msg :
  get_times_mir c ≠ Raise (ValueError msg).
Proof.
  unfold get_times_mir. run_result.
  match goal with |- context [py_div ?a ?b] =>
    pose proof (py_div_not_value_error a b msg); destruct (py_div a b) end;
    congruence.
Qed.

Lemma py_div_raises (a b : Q) e : py_div a b = Raise e → e = ZeroDivisionError.
Proof. unfold py_div. destruct (Qeq_bool b 0); congruence. Qed.

Lemma py_div_zero (a b : Q) : b == 0 → py_div a b = Raise ZeroDivisionError.
Proof.
  intros H. unfold py_div. apply Qeq_bool_iff in H. rewrite H. reflexivity.
Qed.

(** (X1) [ExposureSpecification.__init__] raises a [ValueError] exactly
    when the detector type is neither ['sias'] nor ['h2rg']; no other
    argument can make it raise that error. *)
Theorem unknown_detector_type_raises (c : ExposureArgs) :
  (∃ msg, new_ExposureSpecification c = Raise (ValueError msg))
  ↔ ¬ known_detector c.
Proof.
  unfold known_detector, new_ExposureSpecification.
  destruct (String.eqb_spec (a_det_type c) "sias") as [Hs | Hs].
  - split; [| tauto]. intros (msg & H). exfalso. revert H. run_result.
    pose proof (get_times_mir_not_value_error c msg).
    destruct (get_times_mir c); [| congruence].
    match goal with |- context [py_div ?a ?b] =>
      pose proof (py_div_not_value_error a b msg); destruct (py_div a b) end;
      congruence.
  - destruct (String.eqb_spec (a_det_type c) "h2rg") as [Hh | Hh].
    + split; [| tauto]. intros (msg & H). exfalso. revert H. run_result.
      pose proof (get_times_nir_not_value_error c msg).
      destruct (get_times_nir c); congruence.
    + split; [tauto |]. intros _. eexists. reflexivity.
Qed.

(** (X2) With a known detector type and [nint = 0] the constructor
    raises [ZeroDivisionError]: the exposure time is then 0 and the duty
    cycle divides by it. *)
Theorem no_integration_divides_by_zero (c : ExposureArgs) :
  known_detector c → a_nint c = 0%Z →
  new_ExposureSpecification c = Raise ZeroDivisionError.
Proof.
  intros Hk Hn. unfold new_ExposureSpecification.
  destruct (String.eqb_spec (a_det_type c) "sias") as [Hs | Hs].
  - unfold get_times_mir. rewrite Hn. match goal with |- context [py_div ?a (inject_Z 0 * ?b)] =>
      rewrite (py_div_zero a (inject_Z 0 * b)) end; [reflexivity |].
    change (inject_Z 0) with 0. ring.
  - destruct (String.eqb_spec (a_det_type c) "h2rg") as [Hh | Hh];
      [| destruct Hk; contradiction].
    unfold get_times_nir. rewrite Hn. rewrite py_div_zero; [reflexivity |].
    rewrite Z.mul_0_l. change (inject_Z 0) with 0. ring.
Qed.

Lemma no_integration_divides_by_zero_witness :
  new_ExposureSpecification no_integration_nir = Raise ZeroDivisionError.
Proof.
  apply (no_integration_divides_by_zero no_integration_nir).
  - right. reflexivity.
  - reflexivity.
Defined.

(** What [__init__] leaves on the object, by detector type. *)
Lemma new_ExposureSpecification_inv (c : ExposureArgs) (e : ExposureSpecification) :
  new_ExposureSpecification c = Ok e →
  det_type e = a_det_type c ∧ ngroup e = a_ngroup c ∧ nint e = a_nint c ∧
  nexp e = a_nexp c ∧ tframe e = a_tframe c ∧ tfffr e = a_tfffr c ∧
  nframe e = a_nframe c ∧ nskip e = a_nskip c ∧ nprerej e = a_nprerej c ∧
  npostrej e = a_npostrej c ∧ nsample e = a_nsample c ∧
  nsample_skip e = a_nsample_skip c ∧ frame0 e = a_frame0 c ∧
  ∃ t, tgroup e = t_tgroup t ∧ measurement_time e = t_measurement_time t ∧
       exposure_time e = t_exposure_time t ∧
       saturation_time e = t_saturation_time t ∧
       duty_cycle e = t_duty_cycle t ∧
       total_exposure_time e = t_total_exposure_time t ∧
       ((a_det_type c = "sias" ∧ get_times_mir c = Ok t ∧
         ¬ inject_Z (a_nsample c + a_nsample_skip c) == 0 ∧
         tsample e = Some (a_tframe c / (a_nsample c + a_nsample_skip c)%Z) ∧
         nsample_total e = Some (a_nframe c * a_nsample c)%Z) ∨
        (a_det_type c = "h2rg" ∧ get_times_nir c = Ok t ∧
         tsample e = None ∧ nsample_total e = None)).
Proof.
  unfold new_ExposureSpecification.
  destruct (String.eqb_spec (a_det_type c) "sias") as [Hs | Hs].
  - run_result. destruct (get_times_mir c) as [t |]; [| discriminate].
    unfold py_div.
    destruct (Qeq_bool _ 0) eqn:E; [discriminate |].
    apply Qeq_bool_false in E.
    intros [= <-]. cbn. repeat split; try reflexivity.
    exists t. repeat split; try reflexivity. left. auto.
  - destruct (String.eqb_spec (a_det_type c) "h2rg") as [Hh | Hh];
      [| discriminate].
    run_result. destruct (get_times_nir c) as [t |]; [| discriminate].
    intros [= <-]. cbn. repeat split; try reflexivity.
    exists t. repeat split; try reflexivity. right. auto.
Qed.

Lemma get_times_nir_inv (c : ExposureArgs) (t : Times) :
  get_times_nir c = Ok t →
  t_tgroup t = a_tframe c * (a_nframe c + a_nskip c)%Z ∧
  t_exposure_time t =
    (a_tframe c + a_tfffr c) * a_nint c +
    a_tframe c *
      (a_nint c * ((a_ngroup c - 1) * (a_nframe c + a_nskip c) + a_nframe c))%Z ∧
  t_saturation_time t =
    a_tfffr c +
    a_tframe c * ((a_ngroup c - 1) * (a_nframe c + a_nskip c) + a_nframe c)%Z ∧
  ¬ t_exposure_time t == 0 ∧
  t_duty_cycle t = t_measurement_time t / t_exposure_time t.
Proof.
  unfold get_times_nir, py_div. run_result.
  destruct (Qeq_bool _ 0) eqn:E; [discriminate |].
  apply Qeq_bool_false in E. intros [= <-]. cbn. auto.
Qed.

Lemma get_times_mir_inv (c : ExposureArgs) (t : Times) :
  get_times_mir c = Ok t →
  t_tgroup t = a_tframe c * (a_nframe c + a_nskip c)%Z ∧
  t_exposure_time t =
    a_nint c * (a_tfffr c + (a_ngroup c * a_nframe c)%Z * a_tframe c) ∧
  t_saturation_time t =
    a_tfffr c + (a_ngroup c * a_nframe c)%Z * a_tframe c ∧
  ¬ t_exposure_time t == 0 ∧
  t_duty_cycle t = t_measurement_time t / t_exposure_time t.
Proof.
  unfold get_times_mir, py_div. run_result.
  destruct (Qeq_bool _ 0) eqn:E; [discriminate |].
  apply Qeq_bool_false in E. intros [= <-]. cbn. auto.
Qed.

(** (X3) On every constructed object the exposure time is [nint] times
    the saturation time, plus one reset frame per integration on an
    ['h2rg'] detector; it is not 0, and the measurement time is the duty
    cycle times the exposure time. *)
Theorem exposure_time_per_integration (c : ExposureArgs)
    (e : ExposureSpecification) :
  new_ExposureSpecification c = Ok e →
  (det_type e = "h2rg" →
   exposure_time e == nint e * (saturation_time e + tframe e)) ∧
  (det_type e = "sias" → exposure_time e == nint e * saturation_time e) ∧
  tgroup e == tframe e * (nframe e + nskip e)%Z ∧
  ¬ exposure_time e == 0 ∧
  measurement_time e == duty_cycle e * exposure_time e.
Proof.
  intros H.
  destruct (new_ExposureSpecification_inv c e H)
    as (Hd & Hg & Hi & Hx & Htf & Htff & Hnf & Hsk & _ & _ & _ & _ & _ &
        t & Htg & Hm & He & Hs & Hdc & _ & Hcase).
  rewrite Hd, Hi, Htf, Hnf, Hsk, Htg, Hm, He, Hs, Hdc.
  destruct Hcase as [(Hty & Ht & _) | (Hty & Ht & _)].
  - apply get_times_mir_inv in Ht as (-> & He' & -> & Hne & ->).
    refine (conj _ (conj _ (conj _ (conj _ _)))).
    + rewrite Hty. discriminate.
    + intros _. rewrite He'. reflexivity.
    + reflexivity.
    + exact Hne.
    + field. exact Hne.
  - apply get_times_nir_inv in Ht as (-> & He' & -> & Hne & ->).
    refine (conj _ (conj _ (conj _ (conj _ _)))).
    + intros _. rewrite He'. rewrite !inject_Z_mult, !inject_Z_plus. ring.
    + rewrite Hty. discriminate.
    + reflexivity.
    + exact Hne.
    + field. exact Hne.
Qed.

Lemma exposure_time_per_integration_witness :
  exposure_time bright_mir == nint bright_mir * saturation_time bright_mir.
Proof.
  apply (exposure_time_per_integration bright_mir_args bright_mir).
  - vm_compute. reflexivity.
  - reflexivity.
Defined.

(** (X4) On every constructed object [nsample_total] and [tsample] are
    both set (['sias']) or both unset (['h2rg']), so that [rn_variance],
    which tests the first attribute, and [slope_variance], which tests
    both, use the same number of reads: [nframe * nsample] with the frame
    time [tframe / (nsample + nsample_skip)] on ['sias'], [nframe] with
    [tframe] on ['h2rg']. *)
Theorem constructed_reads_agree (c : ExposureArgs) (e : ExposureSpecification) :
  new_ExposureSpecification c = Ok e →
  (reads_and_frame_time e).1 = rn_reads e ∧
  (det_type e = "sias" →
   reads_and_frame_time e =
   ((nframe e * nsample e)%Z, tframe e / (nsample e + nsample_skip e)%Z)) ∧
  (det_type e = "h2rg" → reads_and_frame_time e = (nframe e, tframe e)).
Proof.
  intros H.
  destruct (new_ExposureSpecification_inv c e H)
    as (Hd & _ & _ & _ & Htf & _ & Hnf & _ & _ & _ & Hns & Hnk & _ &
        t & _ & _ & _ & _ & _ & _ & Hcase).
  unfold reads_and_frame_time, rn_reads.
  rewrite Hd, Htf, Hnf, Hns, Hnk.
  destruct Hcase as [(Hty & _ & _ & -> & ->) | (Hty & _ & -> & ->)];
    rewrite Hty; cbn; (split; [reflexivity | split]);
    first [ reflexivity | discriminate | intros _; reflexivity ].
Qed.

Lemma constructed_reads_agree_witness :
  (reads_and_frame_time bright_mir).1 = rn_reads bright_mir.
Proof.
  apply (constructed_reads_agree bright_mir_args bright_mir).
  vm_compute. reflexivity.
Defined.

Lemma saturation_time_nir_pos (c : ExposureArgs) :
  valid_args c →
  0 < a_tfffr c +
      a_tframe c * ((a_ngroup c - 1) * (a_nframe c + a_nskip c) + a_nframe c)%Z.
Proof.
  intros (_ & Hg & Hf & Hk & _ & _ & Ht & Hr).
  assert (H1 : (1 <= (a_ngroup c - 1) * (a_nframe c + a_nskip c) + a_nframe c)%Z)
    by nia.
  apply inject_Z_ge1 in H1.
  set (x := inject_Z _) in *.
  assert (0 < a_tframe c * x) by (apply Qmult_lt_0_compat; lra).
  lra.
Qed.

Lemma saturation_time_mir_pos (c : ExposureArgs) :
  valid_args c →
  0 < a_tfffr c + (a_ngroup c * a_nframe c)%Z * a_tframe c.
Proof.
  intros (_ & Hg & Hf & Hk & _ & _ & Ht & Hr).
  assert (H1 : (1 <= a_ngroup c * a_nframe c)%Z) by nia.
  apply inject_Z_ge1 in H1.
  set (x := inject_Z _) in *.
  assert (0 < x * a_tframe c) by (apply Qmult_lt_0_compat; lra).
  lra.
Qed.

Lemma tgroup_pos (c : ExposureArgs) :
  valid_args c → 0 < a_tframe c * (a_nframe c + a_nskip c)%Z.
Proof.
  intros (_ & Hg & Hf & Hk & _ & _ & Ht & Hr).
  assert (H1 : (1 <= a_nframe c + a_nskip c)%Z) by lia.
  apply inject_Z_ge1 in H1.
  apply Qmult_lt_0_compat; lra.
Qed.

Lemma constructed_well_formed (c : ExposureArgs) (e : ExposureSpecification) :
  valid_args c → (a_det_type c = "sias" → (1 <= a_nsample c)%Z) →
  new_ExposureSpecification c = Ok e → well_formed e.
Proof.
  intros Hv Hsam H.
  destruct (new_ExposureSpecification_inv c e H)
    as (Hd & Hg & _ & _ & Htf & _ & Hnf & _ & _ & _ & Hns & Hnk & _ &
        t & Htg & _ & _ & Hs & _ & _ & Hcase).
  pose proof Hv as (_ & Hg1 & Hf1 & _).
  unfold well_formed. rewrite Hg, Hs, Htg, Hnf.
  destruct Hcase as [(Hty & Ht & _ & _ & Hnt) | (Hty & Ht & _ & Hnt)].
  - apply get_times_mir_inv in Ht as (-> & _ & -> & _).
    refine (conj Hg1 (conj _ (conj _ (conj Hf1 _)))).
    + apply saturation_time_mir_pos, Hv.
    + apply tgroup_pos, Hv.
    + rewrite Hnt. intros nt [= <-]. specialize (Hsam Hty). nia.
  - apply get_times_nir_inv in Ht as (-> & _ & -> & _).
    refine (conj Hg1 (conj _ (conj _ (conj Hf1 _)))).
    + apply saturation_time_nir_pos, Hv.
    + apply tgroup_pos, Hv.
    + rewrite Hnt. discriminate.
Qed.

(** (X5) A valid configuration with one integration or more (and one
    sample or more on a ['sias'] detector) is constructed, and the object
    has a positive group time and saturation time and one read or more:
    the noise formulas never divide by zero because of the object. *)
Theorem valid_configuration_well_formed (c : ExposureArgs) :
  sampled c →
  ∃ e, new_ExposureSpecification c = Ok e ∧ well_formed e ∧
       (1 <= rn_reads e)%Z ∧ 0 < tgroup e ∧ 0 < saturation_time e.
Proof.
  intros ((Hv & Hi & Hz) & Hsam).
  assert (∃ e, new_ExposureSpecification c = Ok e) as (e & He).
  { unfold new_ExposureSpecification.
    pose proof Hv as (Hty & Hg & Hf & Hk & _ & _ & Ht & Hr).
    destruct (String.eqb_spec (a_det_type c) "sias") as [Hs | Hs].
    - unfold get_times_mir.
      rewrite (py_div_ok _ (a_nint c * _))
        by (apply Qpos_neq0, exposure_time_mir_pos; assumption).
      run_result.
      rewrite (py_div_ok (a_tframe c))
        by (apply inject_Z_neq0, Hz, Hs).
      eexists. reflexivity.
    - destruct Hty as [Hty | Hty]; [| contradiction].
      rewrite Hty. cbn [String.eqb Ascii.eqb Bool.eqb].
      unfold get_times_nir.
      rewrite py_div_ok
        by (apply Qpos_neq0, exposure_time_nir_pos; assumption).
      run_result. eexists. reflexivity. }
  exists e. split; [exact He |].
  pose proof (constructed_well_formed c e Hv Hsam He) as Hwf.
  split; [exact Hwf |]. split; [apply rn_reads_pos, Hwf |].
  destruct Hwf as (_ & Hs & Ht & _). auto.
Qed.

Lemma valid_configuration_well_formed_witness :
  ∃ e, new_ExposureSpecification bright_mir_args = Ok e ∧ well_formed e ∧
       (1 <= rn_reads e)%Z ∧ 0 < tgroup e ∧ 0 < saturation_time e.
Proof.
  apply (valid_configuration_well_formed bright_mir_args).
  unfold sampled, constructible, valid_args. cbn.
  repeat split; try lia; try lra; auto; try discriminate.
Defined.

(** ** The read-noise variance *)

(** At an unmasked pixel with [q] groups from which a slope can be
    fitted, the array path of [rn_variance] returns [rn_value]. *)
Lemma rn_variance_pixel_value readnoise (l : loc) (a : list mpixel)
    rn_fudge excessp1 excessp2 (w : world ExposureSpecification) i q :
  store w !! l = Some (MaskedArray a) →
  well_formed (this w) →
  rn_fudge == 1 ∨ (excessp1 == 0 ∧ excessp2 == 0) →
  a !! i = Some {| data := Fin q; mask := false |} →
  ¬ no_slope q →
  ∃ rv v, rn_variance readnoise (Some l) rn_fudge excessp1 excessp2 w
          = (Ok (RnArray rv), w) ∧
          length rv = length a ∧
          rv !! i = Some (Some (Fin v)) ∧
          v == rn_value (this w) readnoise rn_fudge excessp1 excessp2 q.
Proof.
  intros Hl Hwf Hone Hp Hq.
  pose proof (rn_reads_pos _ Hwf) as Hm.
  pose proof Hwf as (Hg & Hsat & Htg & Hnf & Hnt).
  pose proof (both_fudges_false _ _ _ Hone) as Hone'.
  unfold rn_variance. rewrite run_get_self, Hone'.
  rewrite (run_bind_ok _ _ _ _ _ (load_masked_run _ _ _ Hl)).
  change (match nsample_total (this w) with
          | Some nsample_total => nsample_total
          | None => nframe (this w)
          end) with (rn_reads (this w)).
  destruct (sqrt_reads_fin _ Hm) as (Hsq & Hs).
  rewrite Hsq.
  assert (Hm0 : ¬ inject_Z (rn_reads (this w)) == 0) by (apply inject_Z_neq0; lia).
  assert (Ht0 : ¬ tgroup (this w) == 0) by (apply Qpos_neq0, Htg).
  assert (Ht2 : ¬ tgroup (this w) ^ 2 == 0) by (apply Qsquare_neq0, Ht0).
  pose proof Hq as Hq'.
  apply slope_counts_neq0 in Hq' as (Hq0 & Hq1 & Hq2 & Hq3).
  assert (Hq4 : ¬ q ^ 2 - 1 == 0).
  { intros E. apply Hq1. rewrite <- E. ring. }
  assert (Hq5 : ¬ 1 - q == 0).
  { intros E. apply Hq3. rewrite <- E. ring. }
  destruct (negb (Qeq_bool excessp1 0) || negb (Qeq_bool excessp2 0)) eqn:Ex,
    (negb (Qeq_bool rn_fudge 1)) eqn:Ef.
  all: eexists _, _; split; [reflexivity |].
  all: split; [apply length_fmap |].
  all: rewrite list_lookup_fmap, Hp; cbn [fmap option_fmap option_map].
  all: ma_eval; rewrite ?ma_div_fin_ok by nonzero; ma_eval.
  all: rewrite ?fdiv_fin by exact Hs; ma_eval.
  all: rewrite ?ma_div_fin_ok by nonzero; ma_eval.
  all: split; [reflexivity |].
  all: unfold rn_value.
  all: try (apply negb_false_iff, Qeq_bool_iff in Ef).
  all: try (apply orb_false_iff in Ex as (E1 & E2);
            apply negb_false_iff, Qeq_bool_iff in E1;
            apply negb_false_iff, Qeq_bool_iff in E2).
  all: try rewrite Ef; try rewrite E1, E2.
  all: field; repeat split; assumption.
Qed.

(** The scalar path of [rn_variance]: a division by zero when no slope
    can be fitted from the groups that are kept, [rn_value] otherwise. *)
Lemma rn_variance_scalar_value readnoise rn_fudge excessp1 excessp2
    (w : world ExposureSpecification) :
  well_formed (this w) →
  rn_fudge == 1 ∨ (excessp1 == 0 ∧ excessp2 == 0) →
  let n := kept_groups (this w) in
  (no_slope n →
   rn_variance readnoise None rn_fudge excessp1 excessp2 w
   = (Raise ZeroDivisionError, w)) ∧
  (¬ no_slope n →
   ∃ v, rn_variance readnoise None rn_fudge excessp1 excessp2 w
        = (Ok (RnScalar (Fin v)), w) ∧
        v == rn_value (this w) readnoise rn_fudge excessp1 excessp2 n).
Proof.
  intros Hwf Hone n.
  pose proof (rn_reads_pos _ Hwf) as Hm.
  pose proof Hwf as (Hg & Hsat & Htg & Hnf & Hnt).
  pose proof (both_fudges_false _ _ _ Hone) as Hone'.
  unfold rn_variance. rewrite run_get_self, Hone'.
  change (match nsample_total (this w) with
          | Some nsample_total => nsample_total
          | None => nframe (this w)
          end) with (rn_reads (this w)).
  change (ngroup (this w) - (nprerej (this w) + npostrej (this w)))%Z with n.
  destruct (sqrt_reads_fin _ Hm) as (Hsq & Hs).
  rewrite Hsq.
  assert (Hm0 : ¬ inject_Z (rn_reads (this w)) == 0) by (apply inject_Z_neq0; lia).
  assert (Ht0 : ¬ tgroup (this w) == 0) by (apply Qpos_neq0, Htg).
  assert (Ht2 : ¬ tgroup (this w) ^ 2 == 0) by (apply Qsquare_neq0, Ht0).
  split.
  - intros Hq.
    rewrite (py_div_zero (12 * readnoise ^ 2)); [reflexivity |].
    apply no_slope_iff in Hq. rewrite inject_Z_mult.
    transitivity (inject_Z (rn_reads (this w)) * tgroup (this w) ^ 2
                  * (inject_Z n * (inject_Z n * inject_Z n + - (1)))).
    + ring.
    + rewrite Hq. ring.
  - intros Hq. pose proof Hq as Hq'.
    apply slope_counts_neq0 in Hq' as (Hq0 & Hq1 & Hq2 & Hq3).
    assert (Hq4 : ¬ inject_Z n ^ 2 - 1 == 0).
    { intros E. apply Hq1. rewrite <- E. ring. }
    assert (Hq5 : ¬ 1 - inject_Z n == 0).
    { intros E. apply Hq3. rewrite <- E. ring. }
    assert (Hq6 : ¬ inject_Z (n + 1) == 0).
    { rewrite inject_Z_plus. exact Hq2. }
    assert (Hq7 : ¬ inject_Z (1 - n) == 0).
    { rewrite inject_Z_minus. exact Hq5. }
    rewrite (py_div_ok (12 * readnoise ^ 2))
      by (rewrite inject_Z_mult; repeat apply Qmult_neq0; assumption).
    rewrite run_lift_ok.
    destruct (negb (Qeq_bool excessp1 0) || negb (Qeq_bool excessp2 0)) eqn:Ex,
      (negb (Qeq_bool rn_fudge 1)) eqn:Ef.
    all: rewrite ?(py_div_ok _ (inject_Z (n + 1))) by exact Hq6.
    all: rewrite ?run_lift_ok.
    all: rewrite ?fdiv_fin by exact Hs.
    all: cbn [fsub fadd fneg].
    all: rewrite ?fdiv_fin
           by (apply Qsquare_neq0, Qmult_neq0; assumption).
    all: cbn [fsub fadd fneg].
    all: eexists; split; [reflexivity |].
    all: unfold rn_value.
    all: try (apply negb_false_iff, Qeq_bool_iff in Ef).
    all: try (apply orb_false_iff in Ex as (E1 & E2);
              apply negb_false_iff, Qeq_bool_iff in E1;
              apply negb_false_iff, Qeq_bool_iff in E2).
    all: try rewrite Ef; try rewrite E1, E2.
    all: rewrite ?inject_Z_mult, ?inject_Z_minus, ?inject_Z_plus.
    all: rewrite ?inject_Z_minus in Hq7; rewrite ?inject_Z_plus in Hq6.
    all: field; repeat split; assumption.
Qed.

(** (X6) The array path of [rn_variance] returns an array of the length
    of [unsat_ngroups]; a pixel is masked when it is masked in
    [unsat_ngroups] or its count is -1, 0 or 1, and holds
    [rn_fudge * 12 rn^2 / (m q (q^2 - 1) tgroup^2)] plus the excess
    variance otherwise, [q] being its count and [m] the number of
    reads. *)
Theorem read_noise_per_pixel readnoise (l : loc) (a : list mpixel)
    rn_fudge excessp1 excessp2 (w : world ExposureSpecification) :
  store w !! l = Some (MaskedArray a) →
  well_formed (this w) →
  rn_fudge == 1 ∨ (excessp1 == 0 ∧ excessp2 == 0) →
  ∃ rv, rn_variance readnoise (Some l) rn_fudge excessp1 excessp2 w
        = (Ok (RnArray rv), w) ∧
        length rv = length a ∧
        ∀ i p q, a !! i = Some p → data p = Fin q →
          ∃ y, rv !! i = Some y ∧
               (mask p = true ∨ no_slope q → y = None) ∧
               (mask p = false → ¬ no_slope q →
                ∃ v, y = Some (Fin v) ∧
                     v == rn_value (this w) readnoise rn_fudge
                            excessp1 excessp2 q).
Proof.
  intros Hl Hwf Hone.
  destruct (rn_variance_pixels readnoise l a rn_fudge excessp1 excessp2 w
              Hl Hwf (both_fudges_false _ _ _ Hone)) as (rv & Hrun & Hlen & Hpix).
  exists rv. split; [exact Hrun |]. split; [exact Hlen |].
  intros i p q Hp Hd.
  destruct (Hpix i p Hp) as (y & Hy & Hmask & Hval).
  exists y. split; [exact Hy |]. split.
  - intros [Hm | Hq]; [exact (Hmask Hm) |].
    destruct (mask p) eqn:Em; [exact (Hmask eq_refl) |].
    exact (proj1 (Hval q eq_refl Hd) Hq).
  - intros Hm Hq.
    destruct p as [d mk]. cbn in Hd, Hm. subst d mk.
    destruct (rn_variance_pixel_value readnoise l a rn_fudge excessp1 excessp2
                w i q Hl Hwf Hone Hp Hq) as (rv' & v & Hrun' & _ & Hv & Hval').
    rewrite Hrun in Hrun'. injection Hrun' as <-.
    rewrite Hy in Hv. injection Hv as ->.
    exists v. split; [reflexivity | exact Hval'].
Qed.

Lemma read_noise_per_pixel_witness :
  ∃ rv, rn_variance 1 (Some 2%nat) 1 0 0 bright_world_saturation
        = (Ok (RnArray rv), bright_world_saturation) ∧
        length rv = 2%nat.
Proof.
  destruct (read_noise_per_pixel 1 2%nat
              [{| data := Fin 2; mask := false |};
               {| data := Fin 5; mask := false |}] 1 0 0
              bright_world_saturation)
    as (rv & Hrun & Hlen & _).
  - reflexivity.
  - exact bright_mir_well_formed.
  - left. reflexivity.
  - exists rv. split; [exact Hrun | exact Hlen].
Defined.

(** (X7) Called without [unsat_ngroups], [rn_variance] fits the
    [ngroup - (nprerej + npostrej)] groups that are kept: it raises
    [ZeroDivisionError] when that number is -1, 0 or 1, and otherwise
    returns the finite value that the array path gives a pixel with that
    many groups. *)
Theorem scalar_read_noise readnoise rn_fudge excessp1 excessp2
    (w : world ExposureSpecification) :
  well_formed (this w) →
  rn_fudge == 1 ∨ (excessp1 == 0 ∧ excessp2 == 0) →
  let n := kept_groups (this w) in
  (no_slope n →
   rn_variance readnoise None rn_fudge excessp1 excessp2 w
   = (Raise ZeroDivisionError, w)) ∧
  (¬ no_slope n →
   ∃ v, rn_variance readnoise None rn_fudge excessp1 excessp2 w
        = (Ok (RnScalar (Fin v)), w) ∧
        v == rn_value (this w) readnoise rn_fudge excessp1 excessp2 n ∧
        ∀ l a i, store w !! l = Some (MaskedArray a) →
          a !! i = Some {| data := Fin n; mask := false |} →
          ∃ rv v', rn_variance readnoise (Some l) rn_fudge excessp1 excessp2 w
                   = (Ok (RnArray rv), w) ∧
                   rv !! i = Some (Some (Fin v')) ∧ v' == v).
Proof.
  intros Hwf Hone n.
  destruct (rn_variance_scalar_value readnoise rn_fudge excessp1 excessp2 w
              Hwf Hone) as (Hzero & Hval).
  split; [exact Hzero |].
  intros Hq. destruct (Hval Hq) as (v & Hrun & Hv).
  exists v. split; [exact Hrun |]. split; [exact Hv |].
  intros l a i Hl Hp.
  destruct (rn_variance_pixel_value readnoise l a rn_fudge excessp1 excessp2
              w i n Hl Hwf Hone Hp Hq) as (rv & v' & Hrun' & _ & Hv' & Hval').
  exists rv, v'. split; [exact Hrun' |]. split; [exact Hv' |].
  rewrite Hval', Hv. reflexivity.
Qed.

Lemma scalar_read_noise_witness :
  ∃ v, rn_variance 1 None 1 0 0 bright_world_saturation
       = (Ok (RnScalar (Fin v)), bright_world_saturation).
Proof.
  destruct (scalar_read_noise 1 1 0 0 bright_world_saturation)
    as (_ & Hval).
  - exact bright_mir_well_formed.
  - left. reflexivity.
  - destruct Hval as (v & Hrun & _).
    + vm_compute. intuition discriminate.
    + exists v. exact Hrun.
Defined.

Lemma cube_minus_antitone (q1 q2 : Q) :
  1 < q1 → q1 <= q2 → 0 < q1 * (q1 ^ 2 - 1) ∧ q1 * (q1 ^ 2 - 1) <= q2 * (q2 ^ 2 - 1).
Proof.
  intros H1 H12. split.
  - apply Qmult_lt_0_compat; [lra |].
    assert (0 < (q1 - 1) * (q1 + 1)) by (apply Qmult_lt_0_compat; lra).
    assert (E : q1 ^ 2 - 1 == (q1 - 1) * (q1 + 1)) by ring.
    rewrite E. assumption.
  - assert (Ha : 0 <= (q2 - q1) * (q2 * q2 - 1))
      by (apply Qmult_le_0_compat; [lra |];
          assert (0 <= (q2 - 1) * (q2 + 1)) by (apply Qmult_le_0_compat; lra);
          assert (E : q2 * q2 - 1 == (q2 - 1) * (q2 + 1)) by ring;
          rewrite E; assumption).
    assert (Hb : 0 <= (q2 - q1) * (q1 * q2))
      by (apply Qmult_le_0_compat; [lra |]; apply Qmult_le_0_compat; lra).
    assert (Hc : 0 <= (q2 - q1) * (q1 * q1))
      by (apply Qmult_le_0_compat; [lra |]; apply Qmult_le_0_compat; lra).
    assert (E : q2 * (q2 ^ 2 - 1) - q1 * (q1 ^ 2 - 1) ==
                (q2 - q1) * (q2 * q2 - 1) + (q2 - q1) * (q1 * q2)
                + (q2 - q1) * (q1 * q1)) by ring.
    lra.
Qed.

(** Without excess variance the read-noise variance is the MULTIACCUM
    term alone; it is not negative and does not grow with the number of
    groups. *)
Lemma rn_value_antitone (self : ExposureSpecification)
    (readnoise rn_fudge q1 q2 : Q) :
  well_formed self → 0 <= rn_fudge → 1 < q1 → q1 <= q2 →
  0 <= rn_value self readnoise rn_fudge 0 0 q2 ∧
  rn_value self readnoise rn_fudge 0 0 q2
  <= rn_value self readnoise rn_fudge 0 0 q1.
Proof.
  intros Hwf Hf H1 H12.
  pose proof (rn_reads_pos _ Hwf) as Hm.
  destruct (sqrt_reads_fin _ Hm) as (_ & Hs).
  pose proof Hwf as (_ & _ & Htg & _).
  apply inject_Z_ge1 in Hm.
  set (m := inject_Z (rn_reads self)) in *.
  set (s := sqrt_reads (rn_reads self)) in *.
  set (tg := tgroup self) in *.
  assert (Hk : 0 < m * tg ^ 2).
  { apply Qmult_lt_0_compat; [lra |].
    assert (E : tg ^ 2 == tg * tg) by ring. rewrite E.
    apply Qmult_lt_0_compat; assumption. }
  destruct (cube_minus_antitone q1 q2 H1 H12) as (Hg1 & Hg12).
  assert (Hd1 : 0 < (m * tg ^ 2) * (q1 * (q1 ^ 2 - 1)))
    by (apply Qmult_lt_0_compat; assumption).
  assert (Hd12 : (m * tg ^ 2) * (q1 * (q1 ^ 2 - 1))
                 <= (m * tg ^ 2) * (q2 * (q2 ^ 2 - 1)))
    by (apply Qmult_le_l; assumption).
  assert (Hd2 : 0 < (m * tg ^ 2) * (q2 * (q2 ^ 2 - 1))) by lra.
  assert (Hrn : 0 <= 12 * readnoise ^ 2).
  { assert (E : 12 * readnoise ^ 2 == 12 * (readnoise * readnoise)) by ring.
    rewrite E. assert (0 <= readnoise * readnoise) by nra.
    apply Qmult_le_0_compat; [lra | assumption]. }
  assert (Hval : ∀ q, 1 < q →
            rn_value self readnoise rn_fudge 0 0 q ==
            rn_fudge * (12 * readnoise ^ 2 / ((m * tg ^ 2) * (q * (q ^ 2 - 1))))).
  { intros q Hq. unfold rn_value. fold m s tg.
    destruct (cube_minus_antitone q q Hq ltac:(lra)) as (Hg & _).
    assert (Hd : 0 < (m * tg ^ 2) * (q * (q ^ 2 - 1)))
      by (apply Qmult_lt_0_compat; assumption).
    assert (¬ q == 0) by (apply Qpos_neq0; lra).
    assert (¬ q + 1 == 0) by (apply Qpos_neq0; lra).
    assert (¬ 1 - q == 0) by (intros E; lra).
    assert (¬ q ^ 2 - 1 == 0).
    { intros E. rewrite E in Hg. lra. }
    assert (¬ m == 0) by (apply Qpos_neq0; lra).
    assert (¬ tg == 0) by (apply Qpos_neq0; assumption).
    field. repeat split; assumption. }
  rewrite (Hval q1 H1), (Hval q2 ltac:(lra)).
  pose proof (Qdiv_le_antitone _ _ _ Hrn Hd1 Hd12) as Hdiv.
  assert (Hpos : 0 <= 12 * readnoise ^ 2 / ((m * tg ^ 2) * (q2 * (q2 ^ 2 - 1)))).
  { apply Qle_shift_div_l; [assumption | lra]. }
  split.
  - apply Qmult_le_0_compat; assumption.
  - rewrite !(Qmult_comm rn_fudge). apply Qmult_le_compat_r; assumption.
Qed.

(** (X8) With no excess variance and a fudge factor that is not
    negative, the read-noise variance of [rn_variance] is not negative
    and does not grow with the number of valid groups: of two unmasked
    pixels with more than one group, the one with more groups has the
    smaller variance. *)
Theorem read_noise_decreases_with_groups readnoise (l : loc) (a : list mpixel)
    rn_fudge (w : world ExposureSpecification) i j qi qj :
  store w !! l = Some (MaskedArray a) →
  well_formed (this w) → 0 <= rn_fudge →
  a !! i = Some {| data := Fin qi; mask := false |} →
  a !! j = Some {| data := Fin qj; mask := false |} →
  1 < qi → qi <= qj →
  ∃ rv vi vj, rn_variance readnoise (Some l) rn_fudge 0 0 w
              = (Ok (RnArray rv), w) ∧
              rv !! i = Some (Some (Fin vi)) ∧
              rv !! j = Some (Some (Fin vj)) ∧
              0 <= vj ∧ vj <= vi.
Proof.
  intros Hl Hwf Hf Hi Hj H1 H12.
  assert (Hone : rn_fudge == 1 ∨ (0 == 0 ∧ 0 == 0))
    by (right; split; reflexivity).
  assert (Hni : ¬ no_slope qi) by (unfold no_slope; lra).
  assert (Hnj : ¬ no_slope qj) by (unfold no_slope; lra).
  destruct (rn_variance_pixel_value readnoise l a rn_fudge 0 0 w i qi
              Hl Hwf Hone Hi Hni) as (rv & vi & Hrun & _ & Hvi & Hvali).
  destruct (rn_variance_pixel_value readnoise l a rn_fudge 0 0 w j qj
              Hl Hwf Hone Hj Hnj) as (rv' & vj & Hrun' & _ & Hvj & Hvalj).
  rewrite Hrun in Hrun'. injection Hrun' as <-.
  exists rv, vi, vj. split; [exact Hrun |].
  split; [exact Hvi |]. split; [exact Hvj |].
  rewrite Hvali, Hvalj.
  apply rn_value_antitone; assumption.
Qed.

Lemma read_noise_decreases_with_groups_witness :
  ∃ rv vi vj, rn_variance 1 (Some 2%nat) 1 0 0 bright_world_saturation
              = (Ok (RnArray rv), bright_world_saturation) ∧
              rv !! 0%nat = Some (Some (Fin vi)) ∧
              rv !! 1%nat = Some (Some (Fin vj)) ∧
              0 <= vj ∧ vj <= vi.
Proof.
  apply (read_noise_decreases_with_groups 1 2%nat
           [{| data := Fin 2; mask := false |};
            {| data := Fin 5; mask := false |}] 1
           bright_world_saturation 0%nat 1%nat 2 5).
  - reflexivity.
  - exact bright_mir_well_formed.
  - lra.
  - reflexivity.
  - reflexivity.
  - lra.
  - lra.
Defined.

(** ** The slope variance *)

(** The outputs of [slope_variance], pixel by pixel: where a slope can
    be fitted from the count [q] left after the rejected groups are
    removed, the read-noise variance is [rn_value] and the slope variance
    adds [shot_value] to it. *)
Lemma slope_variance_values rate dark_current readnoise (u : loc)
    (a : list mpixel) (vpp : list Q) rn_fudge excessp1 excessp2
    (w : world ExposureSpecification) :
  store w !! u = Some (MaskedArray a) →
  store w !! fp_pix_variance rate = Some (NdArray (Fin <$> vpp)) →
  length vpp = length a →
  well_formed (this w) →
  rn_fudge == 1 ∨ (excessp1 == 0 ∧ excessp2 == 0) →
  ∃ slope_var slope_rn_var,
    slope_variance rate dark_current readnoise u rn_fudge excessp1 excessp2 w
    = (Ok (slope_var, slope_rn_var),
       {| this := this w;
          store := store w ++ [MaskedArray (reject_pixel (this w) <$> a)] |}) ∧
    length slope_var = length a ∧ length slope_rn_var = length a ∧
    ∀ i p q v, a !! i = Some p →
      reject_pixel (this w) p = {| data := Fin q; mask := false |} →
      ¬ no_slope q → vpp !! i = Some v →
      ∃ xv yv, slope_var !! i = Some (Fin xv) ∧
               slope_rn_var !! i = Some (Fin yv) ∧
               yv == rn_value (this w) readnoise rn_fudge excessp1 excessp2 q ∧
               xv == shot_value (this w) dark_current v q + yv.
Proof.
  intros Hu Hv Hlen Hwf Hone.
  pose proof Hwf as (Hg & Hsat & Htg & Hnf & Hnt).
  pose proof (both_fudges_false _ _ _ Hone) as Hone'.
  unfold slope_variance. rewrite run_get_self, (slope_variance_prefix _ _ _ _ Hu).
  set (self := this w) in *.
  set (a' := reject_pixel self <$> a).
  set (w2 := {| this := self; store := store w ++ [MaskedArray a'] |}).
  assert (Hn : store w2 !! length (store w) = Some (MaskedArray a'))
    by (cbn; rewrite lookup_app_r, Nat.sub_diag by lia; reflexivity).
  assert (Hv2 : store w2 !! fp_pix_variance rate = Some (NdArray (Fin <$> vpp)))
    by (cbn; apply lookup_app_l_Some, Hv).
  assert (Hm : ∃ m tf, reads_and_frame_time self = (m, tf) ∧ (1 <= m)%Z).
  { unfold reads_and_frame_time.
    destruct (nsample_total self) as [nt |] eqn:E1;
      destruct (tsample self) as [ts |]; eauto. }
  destruct Hm as (m & tf & Hrt & Hm). rewrite Hrt.
  destruct (rn_variance_pixels readnoise _ a' rn_fudge excessp1 excessp2 w2
              Hn Hwf Hone') as (rv & Hrv & Hlenrv & _).
  rewrite (run_bind_ok _ _ _ _ _ Hrv). cbn [rn_pixels].
  rewrite (run_bind_ok _ _ _ _ _ (load_masked_run _ _ _ Hn)).
  rewrite (run_bind_ok _ _ _ _ _ (load_ndarray_run _ _ _ Hv2)).
  assert (Hlen' : length a' = length a) by apply length_fmap.
  rewrite np_broadcast_same by (rewrite !length_fmap; lia).
  rewrite run_lift_ok.
  rewrite py_div_ok by (apply Qpos_neq0, Htg).
  rewrite run_lift_ok.
  rewrite np_broadcast_same by (rewrite length_zip_with, !length_fmap; lia).
  rewrite run_lift_ok.
  rewrite np_broadcast_same by (rewrite !length_zip_with, !length_fmap; lia).
  rewrite run_lift_ok.
  eexists _, _. split; [reflexivity |].
  split; [rewrite length_fmap, !length_zip_with, !length_fmap; lia |].
  split; [rewrite length_fmap; lia |].
  intros i p q v Hp Hrej Hns Hvi.
  assert (Hp' : a' !! i = Some {| data := Fin q; mask := false |})
    by (unfold a'; rewrite list_lookup_fmap, Hp; cbn; rewrite Hrej; reflexivity).
  destruct (rn_variance_pixel_value readnoise _ a' rn_fudge excessp1 excessp2
              w2 i q Hn Hwf Hone Hp' Hns) as (rv' & vy & Hrv' & _ & Hy & Hvy).
  rewrite Hrv in Hrv'. injection Hrv' as <-.
  rewrite !list_lookup_fmap, !lookup_zip_with, !list_lookup_fmap.
  rewrite Hp', Hvi. cbn [fmap option_fmap option_map mbind option_bind].
  rewrite Hy. cbn [fmap option_fmap option_map mbind option_bind].
  assert (Hm0 : ¬ inject_Z m == 0) by (apply inject_Z_neq0; lia).
  assert (Ht0 : ¬ tgroup self == 0) by (apply Qpos_neq0, Htg).
  pose proof Hns as Hns'.
  apply slope_counts_neq0 in Hns' as (Hq0 & Hq1 & Hq2 & Hq3).
  pose proof (Qsquare_plus1_neq0 q) as Hq4.
  ma_eval.
  rewrite !ma_div_fin_ok by nonzero. ma_eval.
  rewrite fdiv_fin by exact Ht0. ma_eval.
  eexists _, _. split; [reflexivity |]. split; [reflexivity |].
  split; [exact Hvy |].
  unfold shot_value. fold self. rewrite Hrt.
  assert (Hq5 : ¬ q ^ 2 - 1 == 0).
  { intros E. apply Hq1. rewrite <- E. ring. }
  assert (Hq6 : ¬ q ^ 2 + 1 == 0).
  { intros E. apply Hq4. rewrite <- E. ring. }
  field. repeat split; assumption.
Qed.

(** (C7) [slope_variance] computes its noise formulas from a copy of the
    valid-group counts, the new last array of the store.  When the ramp
    has five groups or more and a rejection count is set, every unmasked
    pixel of the copy has [npostrej] subtracted, and [nprerej] too when
    [ngroup - ceil(count) < npostrej]; otherwise the copy holds the counts
    as they were.  Masked pixels are never touched.  Both outputs are
    computed from the counts of the copy: the read-noise variance is
    that of [rn_variance] on the copy, and at every pixel of the copy
    from whose count [q] a slope can be fitted the slope variance is the
    shot-noise term of [q] plus the read-noise variance of [q]. *)
Theorem rejected_groups_removed rate dark_current readnoise (u : loc)
    (a : list mpixel) rn_fudge excessp1 excessp2
    (w : world ExposureSpecification) :
  store w !! u = Some (MaskedArray a) →
  let self := this w in
  let w' := (slope_variance rate dark_current readnoise u
               rn_fudge excessp1 excessp2 w).2 in
  (∃ n, store w' !! length (store w) = Some (MaskedArray n) ∧
       length n = length a ∧
       ∀ i p, a !! i = Some p →
         ∃ p', n !! i = Some p' ∧ mask p' = mask p ∧
           (mask p = true → p' = p) ∧
           ((ngroup self < 5)%Z ∨ (nprerej self = 0 ∧ npostrej self = 0)%Z →
            p' = p) ∧
           ∀ q, mask p = false → data p = Fin q →
             (5 <= ngroup self)%Z →
             (nprerej self ≠ 0 ∨ npostrej self ≠ 0)%Z →
             ∃ q', data p' = Fin q' ∧
               ((ngroup self - Qceiling q < npostrej self)%Z →
                q' == q - nprerej self - npostrej self) ∧
               ((npostrej self <= ngroup self - Qceiling q)%Z →
                q' == q - npostrej self)) ∧
  (∀ slope_var slope_rn_var,
    (slope_variance rate dark_current readnoise u
       rn_fudge excessp1 excessp2 w).1 = Ok (slope_var, slope_rn_var) →
    ∃ r, rn_variance readnoise (Some (length (store w)))
           rn_fudge excessp1 excessp2 w' = (Ok r, w') ∧
         slope_rn_var = ma_filled <$> rn_pixels r) ∧
  (∀ vpp n,
    well_formed self →
    store w !! fp_pix_variance rate = Some (NdArray (Fin <$> vpp)) →
    length vpp = length a →
    rn_fudge == 1 ∨ (excessp1 == 0 ∧ excessp2 == 0) →
    store w' !! length (store w) = Some (MaskedArray n) →
    ∃ slope_var slope_rn_var,
      (slope_variance rate dark_current readnoise u
         rn_fudge excessp1 excessp2 w).1 = Ok (slope_var, slope_rn_var) ∧
      ∀ i q v, n !! i = Some {| data := Fin q; mask := false |} →
        ¬ no_slope q → vpp !! i = Some v →
        ∃ xv yv, slope_var !! i = Some (Fin xv) ∧
                 slope_rn_var !! i = Some (Fin yv) ∧
                 yv == rn_value self readnoise rn_fudge excessp1 excessp2 q ∧
                 xv == shot_value self dark_current v q + yv).
Proof.
  intros Hu self w'.
  destruct (rejected_counts_copy rate dark_current readnoise u a
              rn_fudge excessp1 excessp2 w Hu) as (Hcopy & Hrn).
  split; [exact Hcopy |]. split; [exact Hrn |].
  intros vpp n Hwf Hv Hlen Hone Hn.
  destruct (slope_variance_values rate dark_current readnoise u a vpp
              rn_fudge excessp1 excessp2 w Hu Hv Hlen Hwf Hone)
    as (sv & srv & Hrun & _ & _ & Hpix).
  exists sv, srv. split; [rewrite Hrun; reflexivity |].
  subst w'. rewrite Hrun in Hn. cbn [snd store] in Hn.
  rewrite lookup_app_r, Nat.sub_diag in Hn by lia.
  injection Hn as <-.
  intros i q v Hq Hns Hvi.
  rewrite list_lookup_fmap in Hq.
  destruct (a !! i) as [p |] eqn:Hp; [| discriminate].
  cbn [fmap option_fmap option_map] in Hq. injection Hq as Hq.
  exact (Hpix i p q v Hp Hq Hns Hvi).
Qed.

Lemma rejected_groups_removed_witness :
  ∃ n, store (slope_variance bright_rate 0 1 2%nat 1 0 0
                bright_world_saturation).2 !! 3%nat
       = Some (MaskedArray n) ∧
       n !! 0%nat = Some {| data := Fin (2 + - 1%Z); mask := false |} ∧
       ∃ slope_var slope_rn_var,
         (slope_variance bright_rate 0 1 2%nat 1 0 0
            bright_world_saturation).1 = Ok (slope_var, slope_rn_var) ∧
         ∃ xv yv, slope_var !! 1%nat = Some (Fin xv) ∧
                  slope_rn_var !! 1%nat = Some (Fin yv) ∧
                  yv == rn_value bright_mir 1 1 0 0 (5 + - 0%Z + - 1%Z) ∧
                  xv == shot_value bright_mir 0 1 (5 + - 0%Z + - 1%Z) + yv.
Proof.
  destruct (rejected_groups_removed bright_rate 0 1 2%nat _ 1 0 0
              bright_world_saturation eq_refl) as ((n & Hn & _ & _) & _ & Hvar).
  exists n. split; [exact Hn |].
  destruct (Hvar [1; 1] n bright_mir_well_formed eq_refl eq_refl
              (or_introl (Qeq_refl 1)) Hn) as (sv & srv & Hrun & Hpix).
  vm_compute in Hn. injection Hn as <-.
  split; [reflexivity |].
  exists sv, srv. split; [exact Hrun |].
  apply (Hpix 1%nat (5 + - 0%Z + - 1%Z) 1).
  - reflexivity.
  - vm_compute. intuition discriminate.
  - reflexivity.
Defined.

Lemma reads_times_frame (M T G : Q) :
  1 <= M → 0 < G → M * T <= G → (M * M - 1) * T <= M * G.
Proof.
  intros HM HG HT.
  assert (H1 : 0 <= M * (G - M * T)) by (apply Qmult_le_0_compat; lra).
  assert (H2 : 0 <= (M - 1) * (M + 1)) by (apply Qmult_le_0_compat; lra).
  destruct (Qlt_le_dec T 0) as [Hneg | Hpos].
  - assert (H3 : 0 <= (M - 1) * (M + 1) * - T)
      by (apply Qmult_le_0_compat; lra).
    assert (H4 : 0 < M * G) by (apply Qmult_lt_0_compat; lra).
    assert (E : (M * M - 1) * T == - ((M - 1) * (M + 1) * - T)) by ring.
    lra.
  - assert (E : M * G - (M * M - 1) * T == M * (G - M * T) + T) by ring.
    lra.
Qed.

(** The shot-noise part of the slope variance is not negative when the
    signal variance plus the dark current is not and the reads of a
    group fit in the group. *)
Lemma shot_value_nonneg (self : ExposureSpecification) (dark_current v q : Q) :
  well_formed self → reads_fit_group self →
  1 < q → 0 <= v + dark_current →
  0 <= shot_value self dark_current v q.
Proof.
  intros Hwf Hfit Hq Hv.
  pose proof Hwf as (_ & _ & Htg & Hnf & Hnt).
  unfold shot_value, reads_fit_group in *.
  assert (Hm : (1 <= (reads_and_frame_time self).1)%Z).
  { unfold reads_and_frame_time.
    destruct (nsample_total self) as [nt |] eqn:E1;
      destruct (tsample self) as [ts |]; cbn; auto. }
  destruct (reads_and_frame_time self) as [m tf]. cbn in Hm.
  apply inject_Z_ge1 in Hm.
  set (M := inject_Z m) in *. set (G := tgroup self) in *.
  destruct (cube_minus_antitone q q Hq ltac:(lra)) as (Hg & _).
  assert (Hq2 : 1 < q * q).
  { assert (0 < (q - 1) * (q + 1)) by (apply Qmult_lt_0_compat; lra).
    assert (E : q * q - 1 == (q - 1) * (q + 1)) by ring. lra. }
  pose proof (reads_times_frame M tf G Hm Htg Hfit) as Hk.
  assert (HMG : 0 < M * G) by (apply Qmult_lt_0_compat; lra).
  assert (HD : 0 < 3 * (M * G * (q * q + 1)))
    by (assert (0 < M * G * (q * q + 1)) by (apply Qmult_lt_0_compat; lra); lra).
  assert (Hx : 5 * ((M * M - 1) * tf) / (3 * (M * G * (q * q + 1))) <= 1).
  { apply Qle_shift_div_r; [exact HD |].
    assert (0 <= M * G * (q * q - 1)) by (apply Qmult_le_0_compat; lra).
    assert (E : 1 * (3 * (M * G * (q * q + 1)))
                == 6 * (M * G) + 3 * (M * G * (q * q - 1))) by ring.
    lra. }
  assert (E3 : 1 - 5 / 3 * (M ^ 2 - 1) / (M * (q ^ 2 + 1)) * (tf / G)
               == 1 - 5 * ((M * M - 1) * tf) / (3 * (M * G * (q * q + 1)))).
  { field. repeat split; apply Qpos_neq0; lra. }
  rewrite E3.
  apply Qmult_le_0_compat; [apply Qmult_le_0_compat |].
  - apply Qle_shift_div_l; [exact Hg |].
    assert (E : 6 / 5 * (q ^ 2 + 1) == 6 / 5 * (q * q + 1)) by ring.
    rewrite E, Qmult_0_l. apply Qmult_le_0_compat; [| lra].
    apply Qle_shift_div_l; [reflexivity | discriminate].
  - apply Qle_shift_div_l; [exact Htg |]. rewrite Qmult_0_l. exact Hv.
  - lra.
Qed.

(** On an object constructed from a valid configuration that skips no
    negative number of samples, the reads of a group fit in the group. *)
Lemma constructed_reads_fit (c : ExposureArgs) (e : ExposureSpecification) :
  sampled c → (0 <= a_nsample_skip c)%Z →
  new_ExposureSpecification c = Ok e → reads_fit_group e.
Proof.
  intros ((Hv & Hi & Hz) & Hsam) Hskip H.
  destruct (new_ExposureSpecification_inv c e H)
    as (Hd & _ & _ & _ & Htf & _ & Hnf & _ & _ & _ & Hns & Hnk & _ &
        t & Htg & _ & _ & _ & _ & _ & Hcase).
  pose proof Hv as (_ & _ & Hf1 & Hk1 & _ & _ & Ht1 & _).
  unfold reads_fit_group, reads_and_frame_time. rewrite Htg, Htf, Hnf.
  apply inject_Z_ge1 in Hf1. apply inject_Z_nonneg in Hk1.
  destruct Hcase as [(Hty & Ht & _ & -> & ->) | (Hty & Ht & -> & ->)].
  - apply get_times_mir_inv in Ht as (-> & _).
    specialize (Hsam Hty).
    apply inject_Z_ge1 in Hsam. apply inject_Z_nonneg in Hskip.
    rewrite !inject_Z_mult, !inject_Z_plus.
    set (F := inject_Z (a_nframe c)) in *. set (K := inject_Z (a_nskip c)) in *.
    set (N := inject_Z (a_nsample c)) in *.
    set (S := inject_Z (a_nsample_skip c)) in *. set (T := a_tframe c) in *.
    assert (E : F * N * (T / (N + S)) == F * N * T / (N + S))
      by (field; apply Qpos_neq0; lra).
    rewrite E. apply Qle_shift_div_r; [lra |].
    assert (0 <= T * F * S) by (repeat apply Qmult_le_0_compat; lra).
    assert (0 <= T * K * (N + S)) by (repeat apply Qmult_le_0_compat; lra).
    assert (E' : T * (F + K) * (N + S) - F * N * T
                 == T * F * S + T * K * (N + S)) by ring.
    lra.
  - apply get_times_nir_inv in Ht as (-> & _).
    rewrite inject_Z_plus.
    set (F := inject_Z (a_nframe c)) in *. set (K := inject_Z (a_nskip c)) in *.
    set (T := a_tframe c) in *.
    assert (0 <= T * K) by (apply Qmult_le_0_compat; lra).
    assert (E' : T * (F + K) - F * T == T * K) by ring.
    lra.
Qed.

(** (X9) [slope_variance] returns two arrays of the length of
    [unsat_ngroups] and leaves its working copy of the counts in a new
    array; at every pixel where a slope can be fitted from the count [q]
    left after the rejected groups are removed, the read-noise variance
    is that of [rn_variance] and the slope variance is
    [6/5 (q^2+1)/(q (q^2-1)) (v + dark)/tgroup
     (1 - 5/3 (m^2-1)/(m (q^2+1)) tframe/tgroup)] plus the read-noise
    variance, [v] being the signal variance of the pixel. *)
Theorem slope_variance_formula rate dark_current readnoise (u : loc)
    (a : list mpixel) (vpp : list Q) rn_fudge excessp1 excessp2
    (w : world ExposureSpecification) :
  store w !! u = Some (MaskedArray a) →
  store w !! fp_pix_variance rate = Some (NdArray (Fin <$> vpp)) →
  length vpp = length a →
  well_formed (this w) →
  rn_fudge == 1 ∨ (excessp1 == 0 ∧ excessp2 == 0) →
  ∃ slope_var slope_rn_var w',
    slope_variance rate dark_current readnoise u rn_fudge excessp1 excessp2 w
    = (Ok (slope_var, slope_rn_var), w') ∧
    this w' = this w ∧
    store w' = store w ++ [MaskedArray (reject_pixel (this w) <$> a)] ∧
    length slope_var = length a ∧ length slope_rn_var = length a ∧
    ∀ i p q v, a !! i = Some p →
      reject_pixel (this w) p = {| data := Fin q; mask := false |} →
      ¬ no_slope q → vpp !! i = Some v →
      ∃ xv yv, slope_var !! i = Some (Fin xv) ∧
               slope_rn_var !! i = Some (Fin yv) ∧
               yv == rn_value (this w) readnoise rn_fudge excessp1 excessp2 q ∧
               xv == shot_value (this w) dark_current v q + yv.
Proof.
  intros Hu Hv Hlen Hwf Hone.
  destruct (slope_variance_values rate dark_current readnoise u a vpp
              rn_fudge excessp1 excessp2 w Hu Hv Hlen Hwf Hone)
    as (sv & srv & Hrun & Hl1 & Hl2 & Hpix).
  eexists sv, srv, _. split; [exact Hrun |].
  split; [reflexivity |]. split; [reflexivity |].
  split; [exact Hl1 |]. split; [exact Hl2 |]. exact Hpix.
Qed.

Lemma slope_variance_formula_witness :
  ∃ slope_var slope_rn_var w',
    slope_variance bright_rate 0 1 2%nat 1 0 0 bright_world_saturation
    = (Ok (slope_var, slope_rn_var), w') ∧
    length slope_var = 2%nat ∧ length slope_rn_var = 2%nat.
Proof.
  destruct (slope_variance_formula bright_rate 0 1 2%nat
              [{| data := Fin 2; mask := false |};
               {| data := Fin 5; mask := false |}] [1; 1] 1 0 0
              bright_world_saturation)
    as (sv & srv & w' & Hrun & _ & _ & Hl1 & Hl2 & _).
  - reflexivity.
  - reflexivity.
  - reflexivity.
  - exact bright_mir_well_formed.
  - left. reflexivity.
  - exists sv, srv, w'. split; [exact Hrun |]. split; assumption.
Defined.

(** (X10) On an object constructed from a valid configuration (with no
    negative number of skipped samples), the slope variance of
    [slope_variance] is at least its read-noise variance at every pixel
    that is left with more than one group and whose signal variance plus
    dark current is not negative. *)
Theorem slope_variance_at_least_read_noise (c : ExposureArgs)
    rate dark_current readnoise (u : loc)
    (a : list mpixel) (vpp : list Q) rn_fudge excessp1 excessp2
    (w : world ExposureSpecification) :
  sampled c → (0 <= a_nsample_skip c)%Z →
  new_ExposureSpecification c = Ok (this w) →
  store w !! u = Some (MaskedArray a) →
  store w !! fp_pix_variance rate = Some (NdArray (Fin <$> vpp)) →
  length vpp = length a →
  rn_fudge == 1 ∨ (excessp1 == 0 ∧ excessp2 == 0) →
  ∃ slope_var slope_rn_var w',
    slope_variance rate dark_current readnoise u rn_fudge excessp1 excessp2 w
    = (Ok (slope_var, slope_rn_var), w') ∧
    ∀ i p q v, a !! i = Some p →
      reject_pixel (this w) p = {| data := Fin q; mask := false |} →
      1 < q → vpp !! i = Some v → 0 <= v + dark_current →
      ∃ xv yv, slope_var !! i = Some (Fin xv) ∧
               slope_rn_var !! i = Some (Fin yv) ∧ yv <= xv.
Proof.
  intros Hc Hskip Hnew Hu Hv Hlen Hone.
  pose proof Hc as ((Hva & _) & Hsam).
  pose proof (constructed_well_formed c _ Hva Hsam Hnew) as Hwf.
  pose proof (constructed_reads_fit c _ Hc Hskip Hnew) as Hfit.
  destruct (slope_variance_values rate dark_current readnoise u a vpp
              rn_fudge excessp1 excessp2 w Hu Hv Hlen Hwf Hone)
    as (sv & srv & Hrun & _ & _ & Hpix).
  eexists sv, srv, _. split; [exact Hrun |].
  intros i p q v Hp Hrej Hq Hvi Hpos.
  assert (Hns : ¬ no_slope q) by (unfold no_slope; lra).
  destruct (Hpix i p q v Hp Hrej Hns Hvi) as (xv & yv & Hx & Hy & _ & Hxv).
  exists xv, yv. split; [exact Hx |]. split; [exact Hy |].
  pose proof (shot_value_nonneg (this w) dark_current v q Hwf Hfit Hq Hpos).
  lra.
Qed.

Lemma slope_variance_at_least_read_noise_witness :
  ∃ slope_var slope_rn_var w',
    slope_variance bright_rate 0 1 2%nat 1 0 0 bright_world_saturation
    = (Ok (slope_var, slope_rn_var), w') ∧
    ∃ xv yv, slope_var !! 1%nat = Some (Fin xv) ∧
             slope_rn_var !! 1%nat = Some (Fin yv) ∧ yv <= xv.
Proof.
  destruct (slope_variance_at_least_read_noise bright_mir_args
              bright_rate 0 1 2%nat
              [{| data := Fin 2; mask := false |};
               {| data := Fin 5; mask := false |}] [1; 1] 1 0 0
              bright_world_saturation)
    as (sv & srv & w' & Hrun & Hpix).
  - unfold sampled, constructible, valid_args. cbn.
    repeat split; try lia; try lra; auto; try discriminate.
  - cbn. lia.
  - vm_compute. reflexivity.
  - reflexivity.
  - reflexivity.
  - reflexivity.
  - left. reflexivity.
  - exists sv, srv, w'. split; [exact Hrun |].
    apply (Hpix 1%nat {| data := Fin 5; mask := false |} (5 + - 0%Z + - 1%Z) 1).
    + reflexivity.
    + vm_compute. reflexivity.
    + vm_compute. reflexivity.
    + reflexivity.
    + vm_compute. discriminate.
Defined.

(** ** The saturation map *)

Lemma valid_groups_bounds (self : ExposureSpecification) (fullwell top q : Q) :
  0 < fullwell → 0 < saturation_time self → (1 <= ngroup self)%Z →
  ∃ z : Z, valid_groups self fullwell (Fin top) (Fin q) = Fin z ∧
           (0 <= z <= ngroup self)%Z.
Proof.
  intros Hf Hs Hg. unfold valid_groups.
  destruct (np_clip_is_fin slope_floor top q) as (c & ->).
  cbn [fdiv]. destruct (Qeq_bool c 0).
  - unfold inf_of_sign. rewrite (proj1 (Qgt_alt fullwell 0) Hf).
    cbn [fdiv]. rewrite (proj2 (Qle_bool_iff 0 _)) by (apply Qlt_le_weak, Hs).
    cbn [fmul]. unfold inf_of_sign.
    rewrite (proj1 (Qgt_alt (ngroup self) 0))
      by (apply (inject_Z_lt 0); lia).
    exists (ngroup self). split; [reflexivity | lia].
  - cbn [fdiv]. rewrite (proj2 (Qeq_bool_false _ 0)) by (apply Qpos_neq0, Hs).
    cbn [fmul np_floor]. rewrite np_clip_integers by lia.
    eexists. split; [reflexivity | lia].
Qed.

Lemma masked_less_fin (fs : Q) (z : Z) :
  mask (masked_less (Fin fs) (Fin z)) = true ↔ inject_Z z < fs.
Proof.
  cbn. rewrite negb_true_iff. apply Qle_bool_false.
Qed.

(** (X11) For every non-empty array of finite slopes, a positive full
    well and an object with a positive saturation time and one group or
    more, [get_unsaturated_groups] returns a masked array of the same
    length whose counts are integers between 0 and [ngroup]; a pixel is
    masked exactly when its count is below [full_saturation].  This
    holds also when every slope is below 1e-10, zero or negative. *)
Theorem unsaturated_groups_bounds (w : world ExposureSpecification)
    (s : loc) (slope : list Q) fullwell full_saturation :
  store w !! s = Some (NdArray (Fin <$> slope)) →
  slope ≠ [] → 0 < fullwell →
  0 < saturation_time (this w) → (1 <= ngroup (this w))%Z →
  ∃ r, saturation_map w s fullwell full_saturation r ∧
       length r = length slope ∧
       ∀ i p, r !! i = Some p →
         ∃ z : Z, data p = Fin z ∧ (0 <= z <= ngroup (this w))%Z ∧
                  (mask p = true ↔ inject_Z z < full_saturation).
Proof.
  intros Hs Hne Hf Hsat Hg.
  destruct (saturation_map_fin w s slope fullwell full_saturation Hs Hne)
    as (top & _ & _ & Hmap).
  eexists. split; [exact Hmap |]. split; [apply length_fmap |].
  intros i p Hp. rewrite list_lookup_fmap in Hp.
  destruct (slope !! i) as [q |]; [| discriminate].
  cbn [fmap option_fmap option_map] in Hp. injection Hp as <-.
  cbn [data masked_less].
  destruct (valid_groups_bounds (this w) fullwell top q Hf Hsat Hg)
    as (z & -> & Hz).
  exists z. split; [reflexivity |]. split; [exact Hz |].
  apply masked_less_fin.
Qed.

Lemma unsaturated_groups_bounds_witness :
  ∃ r, saturation_map bright_world 0%nat 10 full_saturation_default r ∧
       length r = 2%nat.
Proof.
  destruct (unsaturated_groups_bounds bright_world 0%nat [5; 1] 10
              full_saturation_default) as (r & Hmap & Hlen & _).
  - reflexivity.
  - discriminate.
  - reflexivity.
  - reflexivity.
  - cbn. lia.
  - exists r. split; [exact Hmap | exact Hlen].
Defined.

Lemma flt_threshold (x : npfloat) (a b : Q) :
  a <= b → flt x (Fin a) = true → flt x (Fin b) = true.
Proof.
  intros Hab. destruct x as [q | | |]; cbn; try tauto.
  rewrite !negb_true_iff, !Qle_bool_false. lra.
Qed.

(** (X12) The threshold [full_saturation] does not change the counts of
    [get_unsaturated_groups], only the mask, and raising it only masks
    more pixels. *)
Theorem threshold_only_masks (w : world ExposureSpecification)
    (s : loc) (slope : list npfloat) fullwell fs fs' :
  store w !! s = Some (NdArray slope) → slope ≠ [] → fs <= fs' →
  ∃ r r', saturation_map w s fullwell fs r ∧
          saturation_map w s fullwell fs' r' ∧
          data <$> r = data <$> r' ∧
          ∀ i p p', r !! i = Some p → r' !! i = Some p' →
            mask p = true → mask p' = true.
Proof.
  intros Hs Hne Hle.
  assert (∃ top, np_max slope = Ok top) as (top & Htop)
    by (destruct slope; [contradiction | eexists; reflexivity]).
  pose proof (get_unsaturated_groups_run s slope top fullwell fs w Hs Htop) as H1.
  pose proof (get_unsaturated_groups_run s slope top fullwell fs' w Hs Htop) as H2.
  eexists _, _. split; [| split; [| split]].
  - eexists _, _. split; [exact H1 |].
    cbn. rewrite lookup_app_r, Nat.sub_diag by lia. reflexivity.
  - eexists _, _. split; [exact H2 |].
    cbn. rewrite lookup_app_r, Nat.sub_diag by lia. reflexivity.
  - rewrite <- !list_fmap_compose. reflexivity.
  - intros i p p' Hp Hp'. rewrite list_lookup_fmap in Hp, Hp'.
    destruct (slope !! i) as [x |]; [| discriminate].
    cbn [fmap option_fmap option_map] in Hp, Hp'.
    injection Hp as <-. injection Hp' as <-.
    cbn [mask masked_less]. apply flt_threshold, Hle.
Qed.

Lemma threshold_only_masks_witness :
  ∃ r r', saturation_map bright_world 0%nat 10 2 r ∧
          saturation_map bright_world 0%nat 10 3 r' ∧
          data <$> r = data <$> r'.
Proof.
  destruct (threshold_only_masks bright_world 0%nat [Fin 5; Fin 1] 10 2 3)
    as (r & r' & H1 & H2 & Hd & _).
  - reflexivity.
  - discriminate.
  - vm_compute. discriminate.
  - exists r, r'. split; [exact H1 |]. split; [exact H2 | exact Hd].
Defined.






(** ** Target acquisition *)

(** (X15) [ExposureSpecificationTA.slope_variance] changes neither the
    object nor the store (it makes no copy of [unsat_ngroups] and removes
    no rejected group), and it does not look at [rn_fudge], [excessp1]
    and [excessp2]: they may be given together. *)
Theorem ta_slope_variance_read_only rate dark_current readnoise (u : loc)
    rn_fudge excessp1 excessp2 (w : world ExposureSpecificationTA) :
  (ta_slope_variance rate dark_current readnoise u
     rn_fudge excessp1 excessp2 w).2 = w ∧
  ta_slope_variance rate dark_current readnoise u rn_fudge excessp1 excessp2 w
  = ta_slope_variance rate dark_current readnoise u 1 0 0 w ∧
  (ta_slope_variance rate dark_current readnoise u
     rn_fudge excessp1 excessp2 w).1 ≠ Raise (ValueError both_fudges_msg).
Proof.
  assert (Hro : read_only (ta_slope_variance rate dark_current readnoise u
                             rn_fudge excessp1 excessp2)).
  { unfold ta_slope_variance.
    apply read_only_bind; [apply read_only_get_self | intros self].
    destruct (reads_and_frame_time (ta_base self)) as [m tf].
    destruct (ngroup_extract self >? ngroup (ta_base self))%Z;
      [apply read_only_raise |].
    read_only_steps. }
  split; [apply Hro |]. split; [reflexivity |].
  assert (Hv : ∀ npairs, min_factor_of npairs ≠ Raise (ValueError both_fudges_msg))
    by (intros npairs; unfold min_factor_of;
        destruct (npairs =? 1)%Z, (npairs =? 2)%Z; discriminate).
  assert (Hnr : never_raises (ValueError both_fudges_msg)
                  (ta_slope_variance rate dark_current readnoise u
                     rn_fudge excessp1 excessp2)).
  { unfold ta_slope_variance.
    apply never_raises_bind; [apply never_raises_get_self | intros self].
    destruct (reads_and_frame_time (ta_base self)) as [m tf].
    destruct (ngroup_extract self >? ngroup (ta_base self))%Z;
      [apply never_raises_raise; discriminate |].
    repeat first
      [ apply never_raises_ret
      | apply never_raises_load_masked; discriminate
      | apply never_raises_load_ndarray; discriminate
      | apply never_raises_bind; [| intros ?]
      | apply never_raises_lift;
        first [ apply Hv | apply py_div_not_value_error
              | apply np_broadcast_not_both_fudges ] ]. }
  apply Hnr.
Qed.

Lemma min_factor_of_pairs (npairs : Z) (mf : Q) :
  min_factor_of npairs = Ok mf → npairs = 1%Z ∨ npairs = 2%Z.
Proof.
  unfold min_factor_of.
  destruct (Z.eqb_spec npairs 1); [auto |].
  destruct (Z.eqb_spec npairs 2); [auto | discriminate].
Qed.

(** (X16) The outputs of the target-acquisition [slope_variance], pixel
    by pixel: both are not-a-number at a masked pixel and at a pixel with
    exactly one valid group (its effective group time
    [tgroup * (q - 1) / (ngroup_extract - 1)] is zero); at every other
    pixel the read-noise variance is
    [min_factor * 2 rn^2 / m / textract^2] and the slope variance adds
    [min_factor * (v + dark) / textract
     * (1 - 1/3 (m^2 - 1) / m * tframe / textract)] to it. *)
Theorem ta_variance_per_pixel rate dark_current readnoise (u : loc)
    (a : list mpixel) (vpp : list Q) rn_fudge excessp1 excessp2 min_factor
    (w : world ExposureSpecificationTA) :
  store w !! u = Some (MaskedArray a) →
  store w !! fp_pix_variance rate = Some (NdArray (Fin <$> vpp)) →
  length vpp = length a →
  (ngroup_extract (this w) <= ngroup (ta_base (this w)))%Z →
  min_factor_of (ngroup_extract (this w) - 1) = Ok min_factor →
  (1 <= (reads_and_frame_time (ta_base (this w))).1)%Z →
  0 < tgroup (ta_base (this w)) →
  ∃ slope_var slope_rn_var,
    ta_slope_variance rate dark_current readnoise u rn_fudge excessp1 excessp2 w
    = (Ok (slope_var, slope_rn_var), w) ∧
    ∀ i p q v, a !! i = Some p → data p = Fin q → vpp !! i = Some v →
      ∃ x y, slope_var !! i = Some x ∧ slope_rn_var !! i = Some y ∧
        (mask p = true ∨ q == 1 → x = NaN ∧ y = NaN) ∧
        (mask p = false → ¬ q == 1 →
         ∃ xv yv, x = Fin xv ∧ y = Fin yv ∧
           yv == ta_rn_value (this w) min_factor readnoise q ∧
           xv == ta_shot_value (this w) min_factor dark_current v q + yv).
Proof.
  intros Hu Hv Hlen Hle Hmf Hm Htg.
  unfold ta_slope_variance. rewrite run_get_self.
  set (self := this w) in *.
  unfold ta_rn_value, ta_shot_value, ta_textract. fold self.
  destruct (reads_and_frame_time (ta_base self)) as [m tf] eqn:Em.
  cbn [fst] in Hm.
  assert (Hgt : (ngroup_extract self >? ngroup (ta_base self))%Z = false)
    by (rewrite Z.gtb_ltb; apply Z.ltb_ge; exact Hle).
  rewrite Hgt.
  rewrite (run_bind_ok _ _ _ _ _ (load_masked_run _ _ _ Hu)).
  rewrite Hmf, run_lift_ok.
  assert (Hm0 : ¬ inject_Z m == 0) by (apply inject_Z_neq0; lia).
  rewrite !py_div_ok by exact Hm0.
  rewrite run_lift_ok.
  rewrite (run_bind_ok _ _ _ _ _ (load_ndarray_run _ _ _ Hv)).
  rewrite np_broadcast_same by (rewrite !length_fmap; exact Hlen).
  rewrite !run_lift_ok.
  rewrite np_broadcast_same by (rewrite length_zip_with, !length_fmap; lia).
  rewrite run_lift_ok.
  rewrite np_broadcast_same
    by (rewrite !length_zip_with, !length_fmap; lia).
  rewrite run_lift_ok.
  eexists _, _. split; [reflexivity |].
  intros i p q v Hp Hd Hvi.
  rewrite !list_lookup_fmap, !lookup_zip_with, !list_lookup_fmap.
  rewrite Hp, Hvi. cbn [fmap option_fmap option_map mbind option_bind].
  eexists _, _. split; [reflexivity |]. split; [reflexivity |].
  apply min_factor_of_pairs in Hmf.
  assert (Hnp : ¬ inject_Z (ngroup_extract self - 1) == 0)
    by (apply inject_Z_neq0; lia).
  assert (Ht0 : ¬ tgroup (ta_base self) == 0) by (apply Qpos_neq0, Htg).
  destruct p as [d mk]. cbn [data mask] in *. subst d.
  destruct mk.
  - split; [intros _; split; reflexivity | discriminate].
  - ma_eval. rewrite ma_div_fin_ok by exact Hnp. ma_eval.
    split.
    + intros [Hf | Hq]; [discriminate |].
      assert (Hz : tgroup (ta_base self) * (q + - (1))
                   / inject_Z (ngroup_extract self - 1) == 0)
        by (rewrite Hq; field; exact Hnp).
      repeat (rewrite ma_div_fin_zero by (first [exact Hz | rewrite Hz; ring])).
      split; reflexivity.
    + intros _ Hq.
      assert (Hq1 : ¬ q + - (1) == 0) by (intros E; apply Hq; lra).
      assert (Hte : ¬ tgroup (ta_base self) * (q + - (1))
                      / inject_Z (ngroup_extract self - 1) == 0).
      { intros E. apply (Qmult_neq0 _ _ Ht0 Hq1).
        rewrite <- (Qmult_0_l (inject_Z (ngroup_extract self - 1))), <- E.
        field. exact Hnp. }
      rewrite !ma_div_fin_ok
        by (first [exact Hte | apply Qmult_neq0; exact Hte]).
      ma_eval. cbn [fst].
      eexists _, _. split; [reflexivity |]. split; [reflexivity |].
      split.
      * field. repeat split; assumption.
      * rewrite (inject_Z_minus (m ^ 2) 1), Z.pow_2_r, inject_Z_mult.
        field. repeat split; assumption.
Qed.

Lemma ta_variance_per_pixel_witness :
  ∃ slope_var slope_rn_var,
    ta_slope_variance bright_rate 0 1 0%nat 1 0 0 acquisition_world
    = (Ok (slope_var, slope_rn_var), acquisition_world).
Proof.
  destruct (ta_variance_per_pixel bright_rate 0 1 0%nat
              [{| data := Fin 11; mask := false |};
               {| data := Fin 11; mask := false |}] [1; 1] 1 0 0 (2 / 3)
              acquisition_world) as (sv & srv & Hrun & _).
  - reflexivity.
  - reflexivity.
  - reflexivity.
  - cbn. lia.
  - reflexivity.
  - cbn. lia.
  - reflexivity.
  - exists sv, srv. exact Hrun.
Defined.

(** (X17) The target-acquisition constructor passes neither [nsample],
    [tfffr] nor [frame0] to [ExposureSpecification.__init__]: the object
    has [nsample = 1], [tfffr = 0] and no zeroth frame whatever
    [nsample] was given, and its noise formulas use [nframe] reads on
    both detector types. *)
Theorem ta_constructor_defaults (c : ExposureArgsTA)
    (e : ExposureSpecificationTA) :
  new_ExposureSpecificationTA c = Ok e →
  ngroup_extract e = ta_ngroup_extract c ∧
  nsample (ta_base e) = 1%Z ∧ tfffr (ta_base e) = 0 ∧
  frame0 (ta_base e) = false ∧
  nsample_skip (ta_base e) = ta_nsample_skip c ∧
  (reads_and_frame_time (ta_base e)).1 = ta_nframe c.
Proof.
  unfold new_ExposureSpecificationTA. run_result.
  destruct (new_ExposureSpecification _) as [b |] eqn:Hb; [| discriminate].
  intros [= <-]. cbn [ta_base ngroup_extract].
  destruct (new_ExposureSpecification_inv _ b Hb)
    as (_ & _ & _ & _ & _ & Htff & _ & _ & _ & _ & Hns & Hnk & Hf0 &
        t & _ & _ & _ & _ & _ & _ & Hcase).
  cbn in Htff, Hns, Hnk, Hf0, Hcase.
  refine (conj eq_refl (conj Hns (conj Htff (conj Hf0 (conj Hnk _))))).
  unfold reads_and_frame_time.
  destruct Hcase as [(_ & _ & _ & -> & ->) | (_ & _ & -> & ->)]; cbn [fst].
  - apply Z.mul_1_r.
  - destruct (new_ExposureSpecification_inv _ b Hb)
      as (_ & _ & _ & _ & _ & _ & Hnf & _). exact Hnf.
Qed.

Lemma ta_constructor_defaults_witness :
  nsample (ta_base acquisition) = 1%Z ∧
  (reads_and_frame_time (ta_base acquisition)).1 = ta_nframe acquisition_args.
Proof.
  destruct (ta_constructor_defaults acquisition_args acquisition)
    as (_ & Hns & _ & _ & _ & Hm).
  - vm_compute. reflexivity.
  - split; [exact Hns | exact Hm].
Defined.

(** ** The background noise calculator *)

Section bnc_properties.
Context {Value : Type}.
Variable build_empty_scene : result Value.
Variable detector_noise :
  Value → Value → Value → Value → option Value → result Q.

Lemma required_insert_ne (calc_input : gmap.gmap string Value) key k (v : Value) :
  k ≠ key → required (<[k := v]> calc_input) key = required calc_input key.
Proof.
  intros Hk. unfold required. rewrite fin_maps.lookup_insert_ne by exact Hk.
  reflexivity.
Qed.

(** (X18) [bnc] needs the entries ['background'], ['configuration']
    and ['strategy'] of its input: it raises an [EngineInputError] that
    names the first of them that is missing, in that order, and
    otherwise hands the three entries, with the optional
    ['calculation'] entry, to the engine. *)
Theorem bnc_missing_information (calc_input : gmap.gmap string Value)
    (scene : Value) :
  build_empty_scene = Ok scene →
  (calc_input !! "background" = None →
   bnc build_empty_scene detector_noise calc_input
   = Raise (EngineInputError
              "Missing information required for the calculation: 'background'")) ∧
  (∀ b, calc_input !! "background" = Some b →
     (calc_input !! "configuration" = None →
      bnc build_empty_scene detector_noise calc_input
      = Raise (EngineInputError
                 "Missing information required for the calculation: 'configuration'")) ∧
     (∀ c, calc_input !! "configuration" = Some c →
        (calc_input !! "strategy" = None →
         bnc build_empty_scene detector_noise calc_input
         = Raise (EngineInputError
                    "Missing information required for the calculation: 'strategy'")) ∧
        (∀ s, calc_input !! "strategy" = Some s →
           bnc build_empty_scene detector_noise calc_input
           = detector_noise scene b c s (calc_input !! "calculation")))).
Proof.
  intros Hscene. unfold bnc, required. rewrite Hscene. run_result.
  split; [intros ->; reflexivity |].
  intros b ->. split; [intros ->; reflexivity |].
  intros c ->. split; [intros ->; reflexivity |].
  intros s ->. reflexivity.
Qed.

(** (X19) [bnc] ignores every entry of its input other than
    ['background'], ['configuration'], ['strategy'] and
    ['calculation']; in particular the scene of the calculation. *)
Theorem bnc_ignores_other_entries (calc_input : gmap.gmap string Value)
    (key : string) (v : Value) :
  key ∉ bnc_keys →
  bnc build_empty_scene detector_noise (<[key := v]> calc_input)
  = bnc build_empty_scene detector_noise calc_input.
Proof.
  intros Hk. unfold bnc_keys in Hk.
  rewrite !not_elem_of_cons in Hk. destruct Hk as (H1 & H2 & H3 & H4 & _).
  unfold bnc. rewrite !required_insert_ne by assumption.
  rewrite fin_maps.lookup_insert_ne by assumption. reflexivity.
Qed.
End bnc_properties.

Lemma bnc_missing_information_witness :
  bnc (Ok 0%Z) (λ _ _ _ _ _, Ok 0) ({["background" := 1%Z]} : gmap.gmap string Z)
  = Raise (EngineInputError
             "Missing information required for the calculation: 'configuration'").
Proof.
  destruct (bnc_missing_information (Ok 0%Z) (λ _ _ _ _ _, Ok 0)
              ({["background" := 1%Z]} : gmap.gmap string Z) 0%Z eq_refl)
    as (_ & H).
  destruct (H 1%Z) as (Hc & _).
  - vm_compute. reflexivity.
  - apply Hc. vm_compute. reflexivity.
Defined.

Lemma bnc_ignores_other_entries_witness :
  bnc (Ok 0%Z) (λ _ _ _ _ _, Ok 0)
    (<["scene" := 2%Z]> ({["background" := 1%Z]} : gmap.gmap string Z))
  = bnc (Ok 0%Z) (λ _ _ _ _ _, Ok 0) ({["background" := 1%Z]} : gmap.gmap string Z).
Proof.
  apply (bnc_ignores_other_entries (Ok 0%Z) (λ _ _ _ _ _, Ok 0)
           ({["background" := 1%Z]} : gmap.gmap string Z) "scene" 2%Z).
  unfold bnc_keys. rewrite !not_elem_of_cons.
  repeat split; try discriminate. apply not_elem_of_nil.
Defined.

(** ** The duty cycle at the edges *)

Lemma Qdiv_neg (a b : Q) : a < 0 → 0 < b → a / b < 0.
Proof.
  intros Ha Hb. apply Qlt_shift_div_r; [exact Hb |]. rewrite Qmult_0_l. exact Ha.
Qed.

(** (X20) The constructor accepts a ['sias'] configuration of five
    groups or more that rejects every group
    ([nprerej + npostrej > ngroup - 1]): the object then has a negative
    measurement time and a negative duty cycle. *)
Theorem over_rejection_negative_duty_cycle (c : ExposureArgs) :
  a_det_type c = "sias" → valid_args c → (1 <= a_nint c)%Z →
  (a_nsample c + a_nsample_skip c)%Z ≠ 0%Z →
  (5 <= a_ngroup c)%Z → (a_ngroup c - 1 < a_nprerej c + a_npostrej c)%Z →
  ∃ e, new_ExposureSpecification c = Ok e ∧
       measurement_time e < 0 ∧ duty_cycle e < 0.
Proof.
  intros Hty Hv Hi Hz H5 Hrej.
  pose proof Hv as (_ & Hg & Hf & Hk & _ & _ & Ht & Hr).
  pose proof (exposure_time_mir_pos c Hg Hf Ht Hr Hi) as He.
  pose proof (tgroup_pos c Hv) as Htg.
  unfold new_ExposureSpecification. rewrite Hty. cbn [String.eqb Ascii.eqb Bool.eqb].
  unfold get_times_mir.
  rewrite (py_div_ok _ (a_nint c * _)) by (apply Qpos_neq0, He).
  run_result.
  rewrite (py_div_ok (a_tframe c)) by (apply inject_Z_neq0, Hz).
  eexists. split; [reflexivity |]. cbn [measurement_time duty_cycle].
  rewrite (proj2 (Z.geb_le _ _)) by lia.
  assert (Hn : inject_Z (a_nint c * (a_ngroup c - 1 - (a_nprerej c + a_npostrej c)))
               <= inject_Z (-1)) by (apply inject_Z_le; nia).
  change (inject_Z (-1)) with (-1) in Hn.
  set (n := inject_Z (a_nint c * _)) in *.
  set (tg := a_tframe c * inject_Z (a_nframe c + a_nskip c)) in *.
  assert (Hm : n * tg < 0).
  { assert (0 < (- n) * tg) by (apply Qmult_lt_0_compat; lra).
    assert (E : n * tg == - ((- n) * tg)) by ring. lra. }
  split; [exact Hm | apply Qdiv_neg; assumption].
Qed.

Lemma over_rejection_negative_duty_cycle_witness :
  ∃ e, new_ExposureSpecification over_rejected_mir = Ok e ∧
       measurement_time e < 0 ∧ duty_cycle e < 0.
Proof.
  apply (over_rejection_negative_duty_cycle over_rejected_mir).
  - reflexivity.
  - unfold valid_args. cbn. repeat split; try lia; try lra; auto.
  - cbn. lia.
  - cbn. lia.
  - cbn. lia.
  - cbn. lia.
Defined.

(** (X21) On a ['sias'] detector read with fewer than five groups the
    duty cycle is
    [1 + tframe (2 ngroup nskip - (nframe - 1))
         / (2 (tfffr + ngroup nframe tframe))]:
    skipped frames count in the measurement time but not in the exposure
    time, so the duty cycle is above 1 when
    [2 * ngroup * nskip > nframe - 1] and below 1 when
    [2 * ngroup * nskip < nframe - 1]. *)
Theorem mir_duty_cycle_bound (c : ExposureArgs) :
  a_det_type c = "sias" → valid_args c → (1 <= a_nint c)%Z →
  (a_nsample c + a_nsample_skip c)%Z ≠ 0%Z → (a_ngroup c < 5)%Z →
  ∃ e, new_ExposureSpecification c = Ok e ∧
       duty_cycle e ==
         1 + a_tframe c * (2 * a_ngroup c * a_nskip c - (a_nframe c - 1))%Z
             / (2 * (a_tfffr c + (a_ngroup c * a_nframe c)%Z * a_tframe c)) ∧
       ((a_nframe c - 1 < 2 * a_ngroup c * a_nskip c)%Z → 1 < duty_cycle e) ∧
       ((2 * a_ngroup c * a_nskip c < a_nframe c - 1)%Z → duty_cycle e < 1).
Proof.
  intros Hty Hv Hi Hz H5.
  pose proof Hv as (_ & Hg & Hf & Hk & _ & _ & Ht & Hr).
  pose proof (exposure_time_mir_pos c Hg Hf Ht Hr Hi) as He.
  pose proof (saturation_time_mir_pos c Hv) as Hsat.
  unfold new_ExposureSpecification. rewrite Hty. cbn [String.eqb Ascii.eqb Bool.eqb].
  unfold get_times_mir.
  rewrite (py_div_ok _ (a_nint c * _)) by (apply Qpos_neq0, He).
  run_result.
  rewrite (py_div_ok (a_tframe c)) by (apply inject_Z_neq0, Hz).
  rewrite Z.geb_leb, (proj2 (Z.leb_gt _ _)) by lia.
  eexists. split; [reflexivity |]. cbn [duty_cycle t_duty_cycle].
  apply inject_Z_ge1 in Hi.
  set (d := (2 * a_ngroup c * a_nskip c - (a_nframe c - 1))%Z).
  assert (Hd : inject_Z d == 2 * inject_Z (a_ngroup c) * inject_Z (a_nskip c)
                             - (inject_Z (a_nframe c) - 1)).
  { unfold d. rewrite !inject_Z_minus, !inject_Z_mult. reflexivity. }
  rewrite ?inject_Z_minus, ?inject_Z_mult, ?inject_Z_plus.
  rewrite ?inject_Z_mult in He, Hsat.
  change (inject_Z 1) with 1.
  set (I := inject_Z (a_nint c)) in *. set (G := inject_Z (a_ngroup c)) in *.
  set (F := inject_Z (a_nframe c)) in *. set (K := inject_Z (a_nskip c)) in *.
  set (T := a_tframe c) in *. set (R := a_tfffr c) in *.
  set (D := inject_Z d) in *.
  assert (HS2 : 0 < 2 * (R + G * F * T)) by lra.
  assert (Eq : (I * (R + G * (T * (F + K))) - I * T * 0.5 * (F - 1))
               / (I * (R + G * F * T))
               == 1 + T * D / (2 * (R + G * F * T))).
  { rewrite Hd. field. split; apply Qpos_neq0; lra. }
  rewrite Eq. split; [reflexivity |].
  split; intros H.
  - assert (HD : 0 < D) by (apply (inject_Z_lt 0); unfold d; lia).
    assert (0 < T * D / (2 * (R + G * F * T))).
    { apply Qlt_shift_div_l; [exact HS2 |]. rewrite Qmult_0_l.
      apply Qmult_lt_0_compat; assumption. }
    lra.
  - assert (HD : D < 0) by (apply (inject_Z_lt _ 0); unfold d; lia).
    assert (T * D / (2 * (R + G * F * T)) < 0).
    { apply Qdiv_neg; [| exact HS2].
      assert (0 < T * - D) by (apply Qmult_lt_0_compat; lra).
      assert (E : T * D == - (T * - D)) by ring. lra. }
    lra.
Qed.

Lemma mir_duty_cycle_bound_witness :
  ∃ e, new_ExposureSpecification three_group_mir = Ok e ∧
       duty_cycle e ==
         1 + 2.5 * (2 * 3 * 0 - (2 - 1))%Z / (2 * (0.5 + (3 * 2)%Z * 2.5)) ∧
       ((2 - 1 < 2 * 3 * 0)%Z → 1 < duty_cycle e) ∧
       ((2 * 3 * 0 < 2 - 1)%Z → duty_cycle e < 1).
Proof.
  apply (mir_duty_cycle_bound three_group_mir).
  - reflexivity.
  - unfold valid_args. cbn. repeat split; try lia; try lra; auto.
  - cbn. lia.
  - cbn. lia.
  - cbn. lia.
Defined.

(** (X22) On an ['h2rg'] detector the duty cycle of every valid
    configuration with one integration or more is at least 0 and
    strictly below 1: each integration spends a reset frame and its
    first group outside the measurement time. *)
Theorem nir_duty_cycle_below_one (c : ExposureArgs) :
  a_det_type c = "h2rg" → valid_args c → (1 <= a_nint c)%Z →
  ∃ e, new_ExposureSpecification c = Ok e ∧
       0 <= duty_cycle e ∧ duty_cycle e < 1.
Proof.
  intros Hty Hv Hi.
  pose proof Hv as (_ & Hg & Hf & Hk & _ & _ & Ht & Hr).
  pose proof (exposure_time_nir_pos c Hv Hi) as He.
  unfold new_ExposureSpecification. rewrite Hty. cbn [String.eqb Ascii.eqb Bool.eqb].
  unfold get_times_nir.
  rewrite py_div_ok by (apply Qpos_neq0, He).
  run_result. eexists. split; [reflexivity |]. cbn [duty_cycle t_duty_cycle].
  assert (HY : (0 <= (a_ngroup c - 1) * (a_nframe c + a_nskip c))%Z) by nia.
  apply inject_Z_nonneg in HY. apply inject_Z_ge1 in Hi, Hf.
  set (y := ((a_ngroup c - 1) * (a_nframe c + a_nskip c))%Z) in *.
  rewrite ?inject_Z_mult, ?inject_Z_plus.
  rewrite ?inject_Z_mult, ?inject_Z_plus in He.
  set (Y := inject_Z y) in *.
  set (I := inject_Z (a_nint c)) in *. set (F := inject_Z (a_nframe c)) in *.
  set (T := a_tframe c) in *. set (R := a_tfffr c) in *.
  set (E := (T + R) * I + T * (I * (Y + F))) in *.
  assert (HTI : 0 < T * I) by (apply Qmult_lt_0_compat; lra).
  assert (HTIY : 0 <= T * I * Y) by (apply Qmult_le_0_compat; lra).
  assert (HTIF : 0 < T * I * F) by (apply Qmult_lt_0_compat; lra).
  assert (HRI : 0 <= R * I) by (apply Qmult_le_0_compat; lra).
  assert (EE : E == T * I + R * I + T * I * Y + T * I * F) by (unfold E; ring).
  destruct (a_frame0 c).
  - assert (EM : T * I * Y + 0.5 * I * T * F == T * I * Y + T * I * F / 2)
      by field.
    split.
    + apply Qle_shift_div_l; [exact He |]. rewrite Qmult_0_l, EM.
      assert (0 <= T * I * F / 2) by (apply Qle_shift_div_l; lra). lra.
    + apply Qlt_shift_div_r; [exact He |]. rewrite Qmult_1_l, EM, EE.
      assert (T * I * F / 2 <= T * I * F) by (apply Qle_shift_div_r; lra). lra.
  - split.
    + apply Qle_shift_div_l; [exact He |]. rewrite Qmult_0_l. exact HTIY.
    + apply Qlt_shift_div_r; [exact He |]. rewrite Qmult_1_l, EE. lra.
Qed.

Lemma nir_duty_cycle_below_one_witness :
  ∃ e, new_ExposureSpecification scenario_nir = Ok e ∧
       0 <= duty_cycle e ∧ duty_cycle e < 1.
Proof.
  apply (nir_duty_cycle_below_one scenario_nir).
  - reflexivity.
  - unfold valid_args. cbn. repeat split; try lia; try lra; auto.
  - cbn. lia.
Defined.
